(** * Checkbox/Todoist reconciliation: a shallow embedding of the plugin core

    The development follows the TypeScript sources:
    - [State] and [nextRetryDelay] (the reconciliation state and its backoff),
    - [extractTodoistId] and the string helpers of the change handler,
    - [updateState], [syncState], [savePendingSyncs], [restorePendingSyncs]
      and the [metadataCache] change handler of the plugin class.

    The store of the plugin is a plain object: under the name of a member
    of [Object.prototype] that has no entry it yields that member, which
    [updateState] then takes for a state ([updateStateBuiltin],
    [syncStateBuiltin]).

    Asynchronous functions are embedded as resumable programs ([Prog]): a
    program runs synchronously on the plugin memory until it awaits a call
    to the outside (the Todoist API, the vault, the plugin data store), and
    is resumed when that call settles. Two semantics run these programs:
    - the event loop ([step], [run]): tasks are started by events, calls in
      flight settle in any order, so attempts on the same state may overlap;
    - the run without overlap ([exec], [perform]): every call is settled
      at once, so each operation ends before the next one starts. Every
      such run is a run of the event loop ([operations_are_a_run]).

    The invariant of the state objects is proved on the event loop with a
    program logic ([safe]): a task leaves the unsynced states of the task
    ids it holds no attempt on unsynced, so an attempt in flight finds its
    state as it left it ([sound_step], [sound_run]). A second, simpler
    logic ([tidy]) shows what every task keeps whatever the interleaving:
    the store refers to state objects that carry the id they are filed
    under, and the failures of a sync attempt on a state object never
    escape its [catch].

    The [todoist] code block of codeblock.ts is embedded in the module
    [CodeBlock]: the query of the block, the tags and the lines built for
    the tasks, the replacement of the block in the note, and the click
    handler as a state and error monad over the button and the vault. *)

From stdpp Require Import gmap list strings.
From Stdlib Require Import ZArith NArith Lia.

(** ** JavaScript strings

    A JavaScript string is a sequence of UTF-16 code units; a code unit is
    modelled as a number of type [N] (every code unit is below 65536, the
    functions below never need the bound). *)

Abbreviation jstring := (list N).

(** [js "..."] is the string literal with the given ASCII text. *)
Definition js (s : string) : jstring :=
  map Ascii.N_of_ascii (String.list_ascii_of_string s).

Module Str.

(** [s.startsWith(pat)], used by the searches below. *)
Fixpoint starts_with (pat s : jstring) : bool :=
  match pat, s with
  | [], _ => true
  | _ :: _, [] => false
  | p :: pat', c :: s' => if N.eqb p c then starts_with pat' s' else false
  end.

(** [s.indexOf(pat)]: the position of the first occurrence of [pat]. *)
Fixpoint index_of (pat s : jstring) : option nat :=
  if starts_with pat s then Some 0%nat
  else match s with
       | [] => None
       | _ :: s' => S <$> index_of pat s'
       end.

(** [s.contains(pat)] (Obsidian's alias of [s.includes(pat)]). *)
Definition contains (pat s : jstring) : bool :=
  match index_of pat s with Some _ => true | None => false end.

(** The replacement text of [String.prototype.replace] when the pattern is
    a string (ECMAScript GetSubstitution without captures): [$$] yields a
    dollar sign, [$&] the matched text, [$`] the text before the match,
    [$'] the text after it; every other character stands for itself. *)
Fixpoint get_substitution (matched before after repl : jstring) : jstring :=
  match repl with
  | [] => []
  | c :: r =>
      if N.eqb c 36 then
        match r with
        | d :: r' =>
            if N.eqb d 36 then 36%N :: get_substitution matched before after r'
            else if N.eqb d 38 then matched ++ get_substitution matched before after r'
            else if N.eqb d 96 then before ++ get_substitution matched before after r'
            else if N.eqb d 39 then after ++ get_substitution matched before after r'
            else c :: get_substitution matched before after r
        | [] => [c]
        end
      else c :: get_substitution matched before after r
  end.

(** [s.replace(pat, repl)] with a string pattern: only the first occurrence
    is replaced. *)
Definition replace (pat repl s : jstring) : jstring :=
  match index_of pat s with
  | None => s
  | Some i =>
      let before := take i s in
      let after := drop (i + length pat) s in
      before ++ get_substitution pat before after repl ++ after
  end.

(** White space and line terminators, the code units [trim] strips. *)
Definition is_space (c : N) : bool :=
  (N.leb 9 c && N.leb c 13) || N.eqb c 32 || N.eqb c 160 || N.eqb c 5760
  || (N.leb 8192 c && N.leb c 8202) || N.eqb c 8232 || N.eqb c 8233
  || N.eqb c 8239 || N.eqb c 8287 || N.eqb c 12288 || N.eqb c 65279.

Fixpoint trim_start (s : jstring) : jstring :=
  match s with
  | c :: s' => if is_space c then trim_start s' else s
  | [] => []
  end.

Definition trim_end (s : jstring) : jstring := rev (trim_start (rev s)).

(** [s.trim()]. *)
Definition trim (s : jstring) : jstring := trim_end (trim_start s).

(** [s.split('\n')], with the line under construction in [cur]. *)
Fixpoint split_lines_from (cur s : jstring) : list jstring :=
  match s with
  | [] => [cur]
  | c :: s' => if N.eqb c 10 then cur :: split_lines_from [] s'
               else split_lines_from (cur ++ [c]) s'
  end.

Definition split_lines (s : jstring) : list jstring := split_lines_from [] s.

(** [parts.join(sep)]. *)
Fixpoint join (sep : jstring) (parts : list jstring) : jstring :=
  match parts with
  | [] => []
  | [p] => p
  | p :: ps => p ++ sep ++ join sep ps
  end.

End Str.

(** ** The id marker: [TODOIST_ID_REGEX] and [extractTodoistId]

    The regular expressions the pattern needs: a literal code unit, one or
    more code units of a class (greedy), sequencing, and a capturing group.
    [rmatch] is a backtracking matcher in continuation-passing style: the
    continuation receives the rest of the input and the text captured so
    far. *)

Module Regex.

Inductive regex :=
| Lit (c : N)
| PlusClass (p : N → bool)
| Seq (a b : regex)
| Group (a : regex).

Section Matcher.
Context {X : Type}.

(** [p+], greedy: take one more code unit whenever that leads to a
    match, otherwise stop here. *)
Fixpoint plus_class (p : N → bool) (input : jstring)
    (k : jstring → option X) : option X :=
  match input with
  | c :: rest =>
      if p c then
        match plus_class p rest k with
        | Some x => Some x
        | None => k rest
        end
      else None
  | [] => None
  end.

Fixpoint rmatch (r : regex) (input : jstring) (cap : option jstring)
    (k : jstring → option jstring → option X) : option X :=
  match r with
  | Lit c =>
      match input with
      | c' :: rest => if N.eqb c c' then k rest cap else None
      | [] => None
      end
  | PlusClass p => plus_class p input (fun rest => k rest cap)
  | Seq a b => rmatch a input cap (fun rest cap' => rmatch b rest cap' k)
  | Group a =>
      rmatch a input cap
        (fun rest _ => k rest (Some (take (length input - length rest) input)))
  end.
End Matcher.

(** A match anchored at the start of [input]: the captured group. *)
Definition match_here (r : regex) (input : jstring) : option (option jstring) :=
  rmatch r input None (fun _ cap => Some cap).

(** [input.match(r)] for a regex without the global flag: the leftmost
    position with a match wins. *)
Fixpoint search (r : regex) (input : jstring) : option (option jstring) :=
  match match_here r input with
  | Some cap => Some cap
  | None => match input with
            | [] => None
            | _ :: rest => search r rest
            end
  end.

End Regex.

(** [[a-zA-Z0-9]] *)
Definition alnum (c : N) : bool :=
  (N.leb 97 c && N.leb c 122) || (N.leb 65 c && N.leb c 90)
  || (N.leb 48 c && N.leb c 57).

(** [/\(\*([a-zA-Z0-9]+)\*\)/] *)
Definition TODOIST_ID_REGEX : Regex.regex :=
  Regex.Seq (Regex.Lit 40) (Regex.Seq (Regex.Lit 42)
    (Regex.Seq (Regex.Group (Regex.PlusClass alnum))
      (Regex.Seq (Regex.Lit 42) (Regex.Lit 41)))).

(** [line.match(TODOIST_ID_REGEX)?.[1] ?? null] *)
Definition extractTodoistId (line : jstring) : option jstring :=
  match Regex.search TODOIST_ID_REGEX line with
  | Some (Some id) => Some id
  | _ => None
  end.

(** ** The reconciliation state (class [State])

    [retryAttempts] is a JavaScript number that only ever holds a count:
    it starts at 0, is incremented, reset to 0, or copied from a persisted
    count. It is modelled as a natural number of type [N] (increments are
    exact on doubles below 2^53). *)

Record State := mkState {
  todoistId : jstring;
  checkboxState : bool;
  synced : bool;
  retryAttempts : N }.

(** [new State(todoistId, checkboxState)]: the constructor together with
    the field initialisers [synced = false] and [retryAttempts = 0]. *)
Definition new_State (id : jstring) (checked : bool) : State :=
  mkState id checked false 0.

Definition set_checkboxState (b : bool) (s : State) : State :=
  mkState (todoistId s) b (synced s) (retryAttempts s).
Definition set_synced (b : bool) (s : State) : State :=
  mkState (todoistId s) (checkboxState s) b (retryAttempts s).
Definition set_retryAttempts (n : N) (s : State) : State :=
  mkState (todoistId s) (checkboxState s) (synced s) n.

(** The doubles the backoff computation meets: integers and [+Infinity]. *)
Inductive number :=
| Num (z : Z)
| Infinity.

(** [Math.pow(2, n)] for a count [n]: exact up to the largest binary
    exponent of a double, [Infinity] beyond. *)
Definition Math_pow2 (n : N) : number :=
  if (n <? 1024)%N then Num (2 ^ Z.of_N n) else Infinity.

(** [base * x] where [x] is a power of two (or [Infinity]) and [base] has
    a significand of fewer than 53 bits: the product is exact while it is
    below 2^1024 and overflows to [Infinity] otherwise. *)
Definition times (base : Z) (x : number) : number :=
  match x with
  | Num z => if (base * z <? 2 ^ 1024)%Z then Num (base * z) else Infinity
  | Infinity => Infinity
  end.

(** [Math.min(x, cap)] for a finite [cap]. *)
Definition Math_min (x : number) (cap : Z) : Z :=
  match x with
  | Num z => Z.min z cap
  | Infinity => cap
  end.

(** [Math.round(x / 1000)] for an integer [x]. *)
Definition Math_round_div1000 (x : Z) : Z := ((x + 500) / 1000)%Z.

(** [State.nextRetryDelay()] *)
Definition nextRetryDelay (s : State) : Z :=
  let base := 5000%Z in
  let cap := (5 * 60000)%Z in
  Math_min (times base (Math_pow2 (retryAttempts s))) cap.

(** ** Data exchanged with the outside *)

(** A Todoist task as the plugin reads it. [completedAt] is a date string
    or null. *)
Record Task := mkTask {
  t_id : jstring;
  t_projectId : jstring;
  t_labels : list jstring;
  t_completedAt : option jstring }.

Record Project := mkProject { p_name : jstring }.

Record PersistedSyncEntry := mkEntry {
  e_todoistId : jstring;
  e_checkboxState : bool;
  e_retryAttempts : N }.

Record MyPluginSettings := mkSettings { apiKey : jstring }.

(** [PluginData]: the settings together with [pendingSyncs]. *)
Record PluginData := mkData {
  d_settings : MyPluginSettings;
  d_pendingSyncs : list PersistedSyncEntry }.

(** What [loadData()] yields: [Partial<PluginData> | null]. *)
Record LoadedData := mkLoaded {
  l_apiKey : option jstring;
  l_pendingSyncs : option (list PersistedSyncEntry) }.

(** A list item of the metadata cache: its line and, for a checkbox, the
    character between the brackets. *)
Record ListItem := mkItem {
  li_line : nat;
  li_task : option jstring }.

(** JavaScript truthiness of a [string | null]. *)
Definition truthy (s : option jstring) : bool :=
  match s with
  | Some (_ :: _) => true
  | _ => false
  end.

(** The asynchronous calls the plugin awaits. A sync attempt passes
    [state.todoistId] to [getTask], [closeTask] and [reopenTask]; for a
    [state] that is no [State] object that is [undefined] (the last three
    calls). *)
Inductive Call :=
| GetTask (id : jstring)
| CloseTask (id : jstring)
| ReopenTask (id : jstring)
| AddTask (content : jstring)
| GetProject (projectId : jstring)
| VaultModify (file data : jstring)
| LoadData
| SaveData (d : PluginData)
| GetTask_undefined
| CloseTask_undefined
| ReopenTask_undefined.

(** The type of the value a call resolves to. *)
Definition Reply (c : Call) : Type :=
  match c with
  | GetTask _ | GetTask_undefined => option Task
  | CloseTask _ | ReopenTask _ | CloseTask_undefined | ReopenTask_undefined => bool
  | AddTask _ => Task
  | GetProject _ => option Project
  | VaultModify _ _ => unit
  | LoadData => option LoadedData
  | SaveData _ => unit
  end.

Inductive Settled (R : Type) :=
| Fulfilled (v : R)
| Rejected.
Arguments Fulfilled {R} v.
Arguments Rejected {R}.

(** How the outside settles a call. *)
Definition Oracle := ∀ c : Call, Settled (Reply c).

(** ** What the store inherits

    The store [taskStates] is a plain object, [{}]: [this.taskStates[id]]
    yields the entry filed under [id] and, when there is none, what the
    prototype chain holds under that name. [Object.prototype] has the
    members below; all are built-in functions, except the accessor
    [__proto__], which yields [Object.prototype] itself. An id that is
    none of these names and has no entry yields [undefined]. *)

Definition Object_prototype : list jstring :=
  [js "constructor"; js "__defineGetter__"; js "__defineSetter__";
   js "hasOwnProperty"; js "__lookupGetter__"; js "__lookupSetter__";
   js "isPrototypeOf"; js "propertyIsEnumerable"; js "toString";
   js "valueOf"; js "__proto__"; js "toLocaleString"].

Definition inherited (id : jstring) : bool :=
  bool_decide (id ∈ Object_prototype).

(** [retryAttempts] read from an object that need not have the property:
    [undefined], a count, or [NaN], which is what [++] makes of
    [undefined]. *)
Inductive Counter :=
| Undefined
| Counted (n : N)
| NaN.

(** [retryAttempts++] *)
Definition increment (c : Counter) : Counter :=
  match c with
  | Counted n => Counted (n + 1)
  | _ => NaN
  end.

(** The properties the plugin has put on such a member, each absent
    until it is assigned. None of the members has a [todoistId] or a
    [nextRetryDelay]. *)
Record Builtin := mkBuiltin {
  b_checkboxState : option bool;
  b_synced : option bool;
  b_retryAttempts : Counter }.

Definition untouched : Builtin := mkBuiltin None None Undefined.

Definition set_b_checkboxState (b : bool) (f : Builtin) : Builtin :=
  mkBuiltin (Some b) (b_synced f) (b_retryAttempts f).
Definition set_b_synced (b : bool) (f : Builtin) : Builtin :=
  mkBuiltin (b_checkboxState f) (Some b) (b_retryAttempts f).
Definition set_b_retryAttempts (c : Counter) (f : Builtin) : Builtin :=
  mkBuiltin (b_checkboxState f) (b_synced f) c.

(** ** The plugin memory

    [State] objects are mutable and shared between the store, the sync
    attempts in flight and the timer callbacks: they live in [heap] and
    are referred to by their index. [taskStates] holds the entries of the
    store [Record<string, State>], from task id to state object; the order
    of [Object.values] is not modelled. [timers] lists the callbacks
    registered with [window.setTimeout] (delay in ms and the state the
    callback closes over) and [notices] the notices shown (attempt number
    and seconds). [builtins] holds what has been written on the members of
    [Object.prototype], by name; a member without an entry is
    [untouched].

    One name is modelled in part only: [__proto__]. What is written on
    [Object.prototype] is kept there and is not seen through other
    objects, and an entry restored under that name is filed like any
    other, whereas the assignment would replace the prototype of the
    store. The id pattern matches no such id; it can only come from
    Todoist or from the data file. *)

Record Mem := Memory {
  heap : list State;
  taskStates : gmap jstring nat;
  settings : MyPluginSettings;
  timers : list (Z * nat);
  notices : list (N * Z);
  builtins : gmap jstring Builtin }.

(** A memory in which nothing has been written on the inherited
    members. *)
Definition mkMem (heap : list State) (taskStates : gmap jstring nat)
    (settings : MyPluginSettings) (timers : list (Z * nat))
    (notices : list (N * Z)) : Mem :=
  Memory heap taskStates settings timers notices ∅.

Definition with_heap (h : list State) (m : Mem) : Mem :=
  Memory h (taskStates m) (settings m) (timers m) (notices m) (builtins m).
Definition with_taskStates (t : gmap jstring nat) (m : Mem) : Mem :=
  Memory (heap m) t (settings m) (timers m) (notices m) (builtins m).
Definition with_timers (t : list (Z * nat)) (m : Mem) : Mem :=
  Memory (heap m) (taskStates m) (settings m) t (notices m) (builtins m).
Definition with_notices (n : list (N * Z)) (m : Mem) : Mem :=
  Memory (heap m) (taskStates m) (settings m) (timers m) n (builtins m).
Definition with_builtins (b : gmap jstring Builtin) (m : Mem) : Mem :=
  Memory (heap m) (taskStates m) (settings m) (timers m) (notices m) b.

(** The member [name] as the plugin has left it. *)
Definition builtin (name : jstring) (m : Mem) : Builtin :=
  default untouched (builtins m !! name).

(** ** Asynchronous programs

    [Get]/[Put] read and write the memory, [Await] suspends the program
    until the call settles, [Fork] starts an asynchronous function without
    awaiting it, [Throw] is an exception on its way out. *)

Inductive Prog (A : Type) : Type :=
| Ret (a : A)
| Throw
| Get (k : Mem → Prog A)
| Put (m : Mem) (k : Prog A)
| Await (c : Call) (k : Settled (Reply c) → Prog A)
| Fork (child : Prog unit) (k : Prog A).
Arguments Ret {A} a.
Arguments Throw {A}.
Arguments Get {A} k.
Arguments Put {A} m k.
Arguments Await {A} c k.
Arguments Fork {A} child k.

Fixpoint bind {A B : Type} (p : Prog A) (f : A → Prog B) : Prog B :=
  match p with
  | Ret a => f a
  | Throw => Throw
  | Get k => Get (λ m, bind (k m) f)
  | Put m k => Put m (bind k f)
  | Await c k => Await c (λ s, bind (k s) f)
  | Fork child k => Fork child (bind k f)
  end.

#[export] Instance Prog_ret : MRet Prog := @Ret.
#[export] Instance Prog_bind : MBind Prog := λ A B f p, bind p f.

(** [try { p } catch { h }] *)
Fixpoint try_catch {A : Type} (p : Prog A) (h : Prog A) : Prog A :=
  match p with
  | Ret a => Ret a
  | Throw => h
  | Get k => Get (λ m, try_catch (k m) h)
  | Put m k => Put m (try_catch k h)
  | Await c k => Await c (λ s, try_catch (k s) h)
  | Fork child k => Fork child (try_catch k h)
  end.

(** [await call]: the value the call resolves to; a rejection throws. *)
Definition await (c : Call) : Prog (Reply c) :=
  Await c (λ s, match s with Fulfilled v => Ret v | Rejected => Throw end).

Definition modify (f : Mem → Mem) : Prog unit :=
  Get (λ m, Put (f m) (Ret tt)).

(** Allocation of a state object. *)
Definition alloc (s : State) : Prog nat :=
  Get (λ m, Put (with_heap (heap m ++ [s]) m) (Ret (length (heap m)))).

(** Reading the fields of a state object; a reference to no object
    throws, as a property access on [undefined] does. *)
Definition readState (state : nat) : Prog State :=
  Get (λ m, match heap m !! state with Some s => Ret s | None => Throw end).

(** An assignment to fields of a state object. *)
Definition assign (state : nat) (f : State → State) : Prog unit :=
  s ← readState state;
  modify (λ m, with_heap (<[state := f s]> (heap m)) m).

(** [new Notice(...)] with the attempt number and the seconds shown. *)
Definition notice (attempt : N) (seconds : Z) : Prog unit :=
  modify (λ m, with_notices (notices m ++ [(attempt, seconds)]) m).

(** [window.setTimeout(() => { if (!state.synced) this.syncState(state) }, delay)] *)
Definition setTimeout (state : nat) (delay : Z) : Prog unit :=
  modify (λ m, with_timers (timers m ++ [(delay, state)]) m).

Definition get : Prog Mem := Get Ret.

(** Reading the properties of a member of [Object.prototype], and an
    assignment to one of them. *)
Definition readBuiltin (name : jstring) : Prog Builtin :=
  Get (λ m, Ret (builtin name m)).

Definition assignBuiltin (name : jstring) (f : Builtin → Builtin) : Prog unit :=
  modify (λ m, with_builtins (<[name := f (builtin name m)]> (builtins m)) m).

(** ** The plugin's asynchronous functions *)

(** [syncState(state)]: one attempt to bring the remote task in line with
    the checkbox; a failure schedules a retry with exponential backoff. *)
Definition syncState (state : nat) : Prog unit :=
  try_catch
    (s ← readState state;
     todoistTask ← await (GetTask (todoistId s));
     match todoistTask with
     | None => mret tt
     | Some task =>
         s ← readState state;
         (if checkboxState s && negb (truthy (t_completedAt task)) then
            _ ← await (CloseTask (todoistId s)); mret tt
          else if negb (checkboxState s) && truthy (t_completedAt task) then
            _ ← await (ReopenTask (todoistId s)); mret tt
          else mret tt);;
         assign state (set_synced true);;
         assign state (set_retryAttempts 0)
     end)
    (s ← readState state;
     assign state (set_retryAttempts (retryAttempts s + 1));;
     s ← readState state;
     let delay := nextRetryDelay s in
     notice (retryAttempts s) (Math_round_div1000 delay);;
     setTimeout state delay).

(** [syncState(state)] when [state] is the member [name] of
    [Object.prototype]: [state.todoistId] is [undefined], and in the
    [catch] block [state.nextRetryDelay] is no function, so the call
    throws a [TypeError] once the count has been incremented. *)
Definition syncStateBuiltin (name : jstring) : Prog unit :=
  try_catch
    (todoistTask ← await GetTask_undefined;
     match todoistTask with
     | None => mret tt
     | Some task =>
         f ← readBuiltin name;
         (if bool_decide (b_checkboxState f = Some true)
               && negb (truthy (t_completedAt task)) then
            _ ← await CloseTask_undefined; mret tt
          else if negb (bool_decide (b_checkboxState f = Some true))
                    && truthy (t_completedAt task) then
            _ ← await ReopenTask_undefined; mret tt
          else mret tt);;
         assignBuiltin name (set_b_synced true);;
         assignBuiltin name (set_b_retryAttempts (Counted 0))
     end)
    (f ← readBuiltin name;
     assignBuiltin name (set_b_retryAttempts (increment (b_retryAttempts f)));;
     Throw).

(** The callback registered by [setTimeout]. *)
Definition timerCallback (state : nat) : Prog unit :=
  s ← readState state;
  if negb (synced s) then Fork (syncState state) (mret tt) else mret tt.

(** [updateState] once [this.taskStates[todoistId]] has yielded the
    member [name] of [Object.prototype] for [state]: an object, so
    [!state] is false; its [checkboxState] is [undefined] until it is
    written, [state.synced] is read for its truth. *)
Definition updateStateBuiltin (name : jstring) (checked : bool) : Prog unit :=
  f ← readBuiltin name;
  (if negb (bool_decide (b_checkboxState f = Some checked)) then
     assignBuiltin name (set_b_checkboxState checked);;
     assignBuiltin name (set_b_synced false);;
     assignBuiltin name (set_b_retryAttempts (Counted 0))
   else mret tt);;
  f ← readBuiltin name;
  if bool_decide (b_synced f = Some true) then mret tt
  else syncStateBuiltin name.

(** [updateState(todoistId, checkboxState)]: [state] is the entry of the
    store or, without one, what the store inherits under that name: a
    member of [Object.prototype], or [undefined]. *)
Definition updateState (id : jstring) (checked : bool) : Prog unit :=
  m ← get;
  match taskStates m !! id with
  | None =>
      if inherited id then updateStateBuiltin id checked
      else
        state ← alloc (new_State id checked);
        assign state (set_synced true);;
        modify (λ m, with_taskStates (<[id := state]> (taskStates m)) m)
  | Some state =>
      s ← readState state;
      (if negb (Bool.eqb (checkboxState s) checked) then
         assign state (set_checkboxState checked);;
         assign state (set_synced false);;
         assign state (set_retryAttempts 0)
       else mret tt);;
      s ← readState state;
      if synced s then mret tt else syncState state
  end.

(** [Object.values(this.taskStates)] *)
Definition Object_values (m : Mem) : list State :=
  omap (λ kr : jstring * nat, heap m !! kr.2) (map_to_list (taskStates m)).

Definition persisted (s : State) : PersistedSyncEntry :=
  mkEntry (todoistId s) (checkboxState s) (retryAttempts s).

(** The [pending] list of [savePendingSyncs]. *)
Definition pendingSyncs (m : Mem) : list PersistedSyncEntry :=
  persisted <$> filter (λ s, synced s = false) (Object_values m).

(** [savePendingSyncs()]: the data is handed to [saveData] and the promise
    is dropped. *)
Definition savePendingSyncs : Prog unit :=
  m ← get;
  Fork (await (SaveData (mkData (settings m) (pendingSyncs m)))) (mret tt).

(** [onunload()] *)
Definition onunload : Prog unit := savePendingSyncs.

(** The loop of [restorePendingSyncs] over the persisted entries. *)
Fixpoint restoreEntries (entries : list PersistedSyncEntry) : Prog unit :=
  match entries with
  | [] => mret tt
  | entry :: rest =>
      state ← alloc (new_State (e_todoistId entry) (e_checkboxState entry));
      assign state (set_synced false);;
      assign state (set_retryAttempts (e_retryAttempts entry));;
      modify (λ m, with_taskStates (<[e_todoistId entry := state]> (taskStates m)) m);;
      syncState state;;
      restoreEntries rest
  end.

(** [restorePendingSyncs()] *)
Definition restorePendingSyncs : Prog unit :=
  data ← await LoadData;
  restoreEntries
    (match data with
     | Some d => default [] (l_pendingSyncs d)
     | None => []
     end).

Definition TAG : jstring := js "#todoist".

(** The task content sent to Todoist for a new line. *)
Definition taskContent (line : jstring) : jstring :=
  Str.trim (Str.replace TAG [] (Str.replace (js "- [ ]") [] line)).

(** The line written back once the task exists. *)
Definition rewrittenLine (line projectName : jstring) (newTask : Task) : jstring :=
  let labels := Str.join (js " ") ((λ label, js "#todoist/" ++ label) <$> t_labels newTask) in
  Str.replace TAG (js "#todoist/" ++ projectName) line
    ++ labels ++ js " (*" ++ t_id newTask ++ js "*)".

(** The body of the loop of the change handler for one checkbox; the
    result is the [lines] array after the iteration. The assignment to
    [lines] is only reached for a line of the array, so it never extends
    the array. The new document is [lines.join('\n')] (code unit 10). *)
Definition handleCheckbox (file : jstring) (lines : list jstring)
    (checkbox : ListItem) : Prog (list jstring) :=
  let line := default [] (lines !! li_line checkbox) in
  let checked := bool_decide (li_task checkbox = Some (js "x")) in
  match extractTodoistId line with
  | Some (c :: id) =>
      Fork (updateState (c :: id) checked) (mret lines)
  | _ =>
      if Str.contains TAG line then
        let content := taskContent line in
        newTask ← await (AddTask content);
        project ← await (GetProject (t_projectId newTask));
        let projectName :=
          match project with Some p => p_name p | None => js "Inbox" end in
        let newLine := rewrittenLine line projectName newTask in
        let lines' := <[li_line checkbox := newLine]> lines in
        _ ← await (VaultModify file (Str.join [10%N] lines'));
        Fork (updateState (t_id newTask) checked) (mret lines')
      else mret lines
  end.

Fixpoint forCheckboxes (file : jstring) (lines : list jstring)
    (checkboxes : list ListItem) : Prog unit :=
  match checkboxes with
  | [] => mret tt
  | checkbox :: rest =>
      lines' ← handleCheckbox file lines checkbox;
      forCheckboxes file lines' rest
  end.

(** The handler of the [changed] event of the metadata cache. *)
Definition onChanged (file data : jstring) (listItems : option (list ListItem)) : Prog unit :=
  let lines := Str.split_lines data in
  let checkboxes :=
    filter (λ i, li_task i ≠ None) (default [] listItems) in
  forCheckboxes file lines checkboxes.

(** ** Running programs

    A system is the plugin memory together with the calls in flight (each
    with the program that resumes when it settles), the calls issued so
    far, and the number of promises rejected without a handler. *)

Inductive Outcome (A : Type) :=
| Finished (a : A)
| Threw
| Waiting (c : Call) (k : Settled (Reply c) → Prog A).
Arguments Finished {A} a.
Arguments Threw {A}.
Arguments Waiting {A} c k.

Record Pending := mkPending {
  p_call : Call;
  p_resume : Settled (Reply p_call) → Prog unit }.

Record Sys := mkSys {
  mem : Mem;
  pool : list Pending;
  history : list Call;
  unhandled : nat }.

Definition with_mem (m : Mem) (s : Sys) : Sys :=
  mkSys m (pool s) (history s) (unhandled s).
Definition with_pool (p : list Pending) (s : Sys) : Sys :=
  mkSys (mem s) p (history s) (unhandled s).

(** What becomes of an asynchronous function nobody awaits. *)
Definition register (o : Outcome unit) (s : Sys) : Sys :=
  match o with
  | Finished _ => s
  | Threw => mkSys (mem s) (pool s) (history s) (S (unhandled s))
  | Waiting c k =>
      mkSys (mem s) (pool s ++ [mkPending c k]) (history s ++ [c]) (unhandled s)
  end.

(** [advance p s] runs [p] up to its first [await]. *)
Fixpoint advance {A : Type} (p : Prog A) (s : Sys) : Sys * Outcome A :=
  match p with
  | Ret a => (s, Finished a)
  | Throw => (s, Threw)
  | Get k => advance (k (mem s)) s
  | Put m k => advance k (with_mem m s)
  | Await c k => (s, Waiting c k)
  | Fork child k =>
      let '(s1, o1) := advance child s in
      advance k (register o1 s1)
  end.

(** A task started from the event loop. *)
Definition start (p : Prog unit) (s : Sys) : Sys :=
  let '(s1, o1) := advance p s in register o1 s1.

(** What the event loop delivers: a [changed] event of the metadata
    cache, a call of [updateState] (as the change handler makes for a
    tracked checkbox), the restore at load time, the settling of the
    [i]-th call in flight as the oracle says, the firing of the [i]-th
    timer, and the unload. *)
Inductive Stimulus :=
| Changed (file data : jstring) (listItems : option (list ListItem))
| Observe (id : jstring) (checked : bool)
| Restore
| Settle (i : nat) (o : Oracle)
| Timeout (i : nat)
| Unload.

Definition step (e : Stimulus) (s : Sys) : Sys :=
  match e with
  | Changed file data listItems => start (onChanged file data listItems) s
  | Observe id checked => start (updateState id checked) s
  | Restore => start restorePendingSyncs s
  | Settle i o =>
      match pool s !! i with
      | Some pd => start (p_resume pd (o (p_call pd))) (with_pool (delete i (pool s)) s)
      | None => s
      end
  | Timeout i =>
      match timers (mem s) !! i with
      | Some (_, state) =>
          start (timerCallback state)
            (with_mem (with_timers (delete i (timers (mem s))) (mem s)) s)
      | None => s
      end
  | Unload => start onunload s
  end.

Definition run (es : list Stimulus) (s : Sys) : Sys :=
  foldl (λ s e, step e s) s es.

Definition emptyMem (st : MyPluginSettings) : Mem := mkMem [] ∅ st [] [].
Definition initial (st : MyPluginSettings) : Sys := mkSys (emptyMem st) [] [] 0.

(** [exec ω p s] runs [p] without interleaving: the [n]-th call issued is
    settled at once, as [ω n] says. A forked function is run to its end
    before its caller goes on. The result is [None] when [p] throws. *)
Fixpoint exec {A : Type} (ω : nat → Oracle) (p : Prog A) (s : Sys) : Sys * option A :=
  match p with
  | Ret a => (s, Some a)
  | Throw => (s, None)
  | Get k => exec ω (k (mem s)) s
  | Put m k => exec ω k (with_mem m s)
  | Await c k =>
      exec ω (k (ω (length (history s)) c))
        (mkSys (mem s) (pool s) (history s ++ [c]) (unhandled s))
  | Fork child k =>
      let '(s1, r1) := exec ω child s in
      exec ω k (match r1 with
                | Some _ => s1
                | None => mkSys (mem s1) (pool s1) (history s1) (S (unhandled s1))
                end)
  end.

(** ** Oracles for examples *)

(** The outside is unreachable: every call is rejected. *)
Definition rejects : Oracle := λ c, Rejected.

(** A healthy outside: what it holds and how it answers; it rejects the
    calls made without an id. *)
Record Remote := mkRemote {
  r_task : jstring → option Task;
  r_created : jstring → Task;
  r_project : jstring → option Project;
  r_data : option LoadedData }.

Definition serves (R : Remote) : Oracle :=
  λ c, match c with
       | GetTask id => Fulfilled (r_task R id)
       | CloseTask _ => Fulfilled true
       | ReopenTask _ => Fulfilled true
       | AddTask content => Fulfilled (r_created R content)
       | GetProject pid => Fulfilled (r_project R pid)
       | VaultModify _ _ => Fulfilled tt
       | LoadData => Fulfilled (r_data R)
       | SaveData _ => Fulfilled tt
       | GetTask_undefined | CloseTask_undefined | ReopenTask_undefined =>
           Rejected
       end.

(** The settings, the remote task and the remote used in the examples:
    the task "123" is open or completed as [completedAt] says, new tasks
    get the id "42" in project "Work" with the label "home". *)
Definition key : MyPluginSettings := mkSettings (js "key").

Definition task123 (completedAt : option jstring) : Task :=
  mkTask (js "123") (js "2001") [] completedAt.

Definition healthy (task : option Task) (data : option LoadedData) : Remote :=
  mkRemote (λ _, task)
    (λ _, mkTask (js "42") (js "2001") [js "home"] None)
    (λ _, Some (mkProject (js "Work")))
    data.

(** ** Vocabulary of the statements *)

(** [line] contains the marker [(*id*)] right after [pre], with an id made
    of one or more ASCII letters and digits. *)
Definition marker_at (line pre id post : jstring) : Prop :=
  line = pre ++ js "(*" ++ id ++ js "*)" ++ post
  ∧ id ≠ [] ∧ Forall (λ c, alnum c = true) id.

(** The system after one more call has been issued. *)
Definition logged (c : Call) (s : Sys) : Sys :=
  mkSys (mem s) (pool s) (history s ++ [c]) (unhandled s).

Definition on_mem (f : Mem → Mem) (s : Sys) : Sys := with_mem (f (mem s)) s.

(** The object [state] now holds [st]. *)
Definition write (state : nat) (st : State) (m : Mem) : Mem :=
  with_heap (<[state := st]> (heap m)) m.

(** The memory after a successful attempt on the object [state], which
    held [st]. *)
Definition markSynced (state : nat) (st : State) (m : Mem) : Mem :=
  write state (mkState (todoistId st) (checkboxState st) true 0) m.

(** The memory after a failed attempt on the object [state], which held
    [st]: one more failed attempt, a notice, and a retry scheduled after
    the delay computed from the new count. *)
Definition markFailed (state : nat) (st : State) (m : Mem) : Mem :=
  let st' := set_retryAttempts (retryAttempts st + 1) st in
  Memory (<[state := st']> (heap m)) (taskStates m) (settings m)
    (timers m ++ [(nextRetryDelay st', state)])
    (notices m ++ [(retryAttempts st', Math_round_div1000 (nextRetryDelay st'))])
    (builtins m).

(** How one attempt of [syncState] on a state holding [st] ends, as the
    replies of [ω] decide, when [n] calls were issued before it. *)
Inductive Attempt :=
| Failed
| Gone
| Succeeded.

Definition mutation (st : State) (task : Task) : option Call :=
  if checkboxState st && negb (truthy (t_completedAt task)) then
    Some (CloseTask (todoistId st))
  else if negb (checkboxState st) && truthy (t_completedAt task) then
    Some (ReopenTask (todoistId st))
  else None.

Definition is_rejected {R : Type} (r : Settled R) : bool :=
  match r with Rejected => true | Fulfilled _ => false end.

Definition attemptOutcome (ω : nat → Oracle) (n : nat) (st : State) : Attempt :=
  match ω n (GetTask (todoistId st)) with
  | Rejected => Failed
  | Fulfilled None => Gone
  | Fulfilled (Some task) =>
      match mutation st task with
      | Some c => if is_rejected (ω (S n) c) then Failed else Succeeded
      | None => Succeeded
      end
  end.

(** The calls one attempt issues. *)
Definition attemptCalls (ω : nat → Oracle) (n : nat) (st : State) : list Call :=
  GetTask (todoistId st) ::
  match ω n (GetTask (todoistId st)) with
  | Fulfilled (Some task) =>
      match mutation st task with Some c => [c] | None => [] end
  | _ => []
  end.

(** The memory one attempt leaves. *)
Definition attemptMem (a : Attempt) (state : nat) (st : State) (m : Mem) : Mem :=
  match a with
  | Failed => markFailed state st m
  | Gone => m
  | Succeeded => markSynced state st m
  end.

(** The state one attempt leaves in an object that held [st]. *)
Definition attemptState (a : Attempt) (st : State) : State :=
  match a with
  | Failed => set_retryAttempts (retryAttempts st + 1) st
  | Gone => st
  | Succeeded => mkState (todoistId st) (checkboxState st) true 0
  end.

(** ** Operations without overlap

    [execTask ω p s] runs the task [p] from the event loop to its end,
    every call settled at once; a task that throws leaves a rejected
    promise nobody handles. *)
Definition execTask (ω : nat → Oracle) (p : Prog unit) (s : Sys) : Sys :=
  let '(s1, r) := exec ω p s in
  match r with
  | Some _ => s1
  | None => mkSys (mem s1) (pool s1) (history s1) (S (unhandled s1))
  end.

(** The operations on the store, each run to its end before the next one
    starts: an observation ([updateState]), the restore at load time, the
    firing of the [i]-th timer, and the unload. *)
Inductive Op :=
| DoObserve (id : jstring) (checked : bool)
| DoRestore
| DoTimeout (i : nat)
| DoUnload.

Definition perform (ω : nat → Oracle) (s : Sys) (op : Op) : Sys :=
  match op with
  | DoObserve id checked => execTask ω (updateState id checked) s
  | DoRestore => execTask ω restorePendingSyncs s
  | DoTimeout i =>
      match timers (mem s) !! i with
      | Some (_, state) =>
          execTask ω (timerCallback state)
            (with_mem (with_timers (delete i (timers (mem s))) (mem s)) s)
      | None => s
      end
  | DoUnload => execTask ω onunload s
  end.

(** Programs whose forks are the last thing they do: for those, running
    the forked function to its end first is one of the schedules of the
    event loop. *)
Fixpoint sequential {A : Type} (p : Prog A) : Prop :=
  match p with
  | Ret _ | Throw => True
  | Get k => ∀ m, sequential (k m)
  | Put _ k => sequential k
  | Await _ k => ∀ r, sequential (k r)
  | Fork child k => sequential child ∧ ∃ a, k = Ret a
  end.

(** Programs that fork nothing. *)
Fixpoint forkless {A : Type} (p : Prog A) : Prop :=
  match p with
  | Ret _ | Throw => True
  | Get k => ∀ m, forkless (k m)
  | Put _ k => forkless k
  | Await _ k => ∀ r, forkless (k r)
  | Fork _ _ => False
  end.

(** The invariant of the state objects: a synced state has no failed
    attempts on its count. *)
Definition coherent (m : Mem) : Prop :=
  ∀ state st, heap m !! state = Some st →
    synced st = true → retryAttempts st = 0%N.

(** Every entry of the store is filed under the id of its state object. *)
Definition keyed (m : Mem) : Prop :=
  ∀ id state st, taskStates m !! id = Some state →
    heap m !! state = Some st → todoistId st = id.

(** Every entry of the store refers to a state object that carries the
    id of the entry. *)
Definition filed (m : Mem) : Prop :=
  ∀ id state, taskStates m !! id = Some state →
    ∃ st, heap m !! state = Some st ∧ todoistId st = id.

(** The data [savePendingSyncs] hands to [saveData], and what [loadData]
    yields once that data is what the store holds. *)
Definition savedData (m : Mem) : PluginData :=
  mkData (settings m) (pendingSyncs m).

Definition reloaded (d : PluginData) : LoadedData :=
  mkLoaded (Some (apiKey (d_settings d))) (Some (d_pendingSyncs d)).

(** The state object [restorePendingSyncs] builds from an entry. *)
Definition restored (entry : PersistedSyncEntry) : State :=
  mkState (e_todoistId entry) (e_checkboxState entry) false (e_retryAttempts entry).

(** The number of calls issued when the restore reaches the entry that
    follows [before], when [n] calls were issued as it reached the first:
    the restore waits for the attempt of each entry. *)
Fixpoint issuedBefore (ω : nat → Oracle) (n : nat)
    (before : list PersistedSyncEntry) : nat :=
  match before with
  | [] => n
  | entry :: rest =>
      issuedBefore ω (n + length (attemptCalls ω n (restored entry))) rest
  end.

(** ** Attempts on the event loop

    The calls of a sync attempt on a state object carry the id of the
    task they are about. *)
Definition attemptId (c : Call) : option jstring :=
  match c with
  | GetTask id | CloseTask id | ReopenTask id => Some id
  | _ => None
  end.

(** Programs that write on the members of [Object.prototype] only, await
    no call that carries a task id and fork nothing. *)
Fixpoint aside {A : Type} (p : Prog A) (m : Mem) : Prop :=
  match p with
  | Ret _ | Throw => True
  | Get k => aside (k m) m
  | Put m' k => (∃ b, m' = with_builtins b m) ∧ aside k m'
  | Await c k => attemptId c = None ∧ ∀ r m', aside (k r) m'
  | Fork _ _ => False
  end.

(** No two attempts for the same task id are in flight. *)
Definition noOverlap (s : Sys) : Prop :=
  NoDup (omap (λ pd, attemptId (p_call pd)) (pool s)).

(** [noOverlap] holds before and after every stimulus of the run. *)
Fixpoint disciplined (es : list Stimulus) (s : Sys) : Prop :=
  noOverlap s ∧
  match es with
  | [] => True
  | e :: es' => disciplined es' (step e s)
  end.

(** The object [state] carries the id and is not synced. *)
Definition unsyncedAt (state : nat) (id : jstring) (m : Mem) : Prop :=
  ∃ st, heap m !! state = Some st ∧ todoistId st = id ∧ synced st = false.

(** From [m] to [m'], a task that holds an attempt on [own] (if any) has
    left the unsynced states of the other ids unsynced. *)
Definition frame (own : option jstring) (m m' : Mem) : Prop :=
  ∀ state id, own ≠ Some id → unsyncedAt state id m → unsyncedAt state id m'.

(** How a synchronous stretch of a task ends. *)
Inductive End (A : Type) :=
| Completed (r : option A)
| Suspended.
Arguments Completed {A} r.
Arguments Suspended {A}.

(** A postcondition: whether the task has been suspended before
    ([detached]: its caller has gone on), the id it holds an attempt on,
    how the stretch ends, the memory at the start of the stretch and the
    memory at its end. *)
Definition Post (A : Type) : Type :=
  bool → option jstring → End A → Mem → Mem → Prop.

(** The postcondition of a task of the event loop. *)
Definition taskPost {A : Type} : Post A :=
  λ _ own _ m0 m, frame own m0 m ∧ coherent m.

(** [safe detached own p m0 m Q]: [p] runs from the memory [m] in a
    stretch begun at [m0]; every stretch ends in [Q]; every attempt call
    is about an unsynced state that carries its id; and the program goes
    on safely whenever it is resumed in a coherent memory in which that
    state is still unsynced. A fork ends the stretch of the caller. *)
Fixpoint safe (A : Type) (detached : bool) (own : option jstring)
    (p : Prog A) (m0 m : Mem) (Q : Post A) {struct p} : Prop :=
  match p with
  | Ret a => Q detached own (Completed (Some a)) m0 m
  | Throw => Q detached own (Completed None) m0 m
  | Get k => safe A detached own (k m) m0 m Q
  | Put m' k => safe A detached own k m0 m' Q
  | Await c k =>
      Q detached own Suspended m0 m
      ∧ match attemptId c with
        | Some id =>
            ∃ state, unsyncedAt state id m
              ∧ ∀ r m', coherent m' → unsyncedAt state id m' →
                  safe A true (Some id) (k r) m' m' Q
        | None => ∀ r m', coherent m' → safe A true None (k r) m' m' Q
        end
  | Fork child k =>
      own = None
      ∧ safe unit false None child m0 m
          (λ d o _ m0' m1,
             if d then frame o m0' m1 ∧ coherent m1
             else frame None m0' m1 ∧ safe A detached None k m1 m1 Q)
  end.
Arguments safe {A} detached own p m0 m Q.

(** Postconditions that hold whenever the stretch has respected the
    frame and ends in a coherent memory, for a task that is detached or
    is in the mode [d] and holds [own]. *)
Definition lenient {A : Type} (d : bool) (own : option jstring) (Q : Post A) : Prop :=
  ∀ d' own' e m0 m,
    d' = true ∨ (d' = d ∧ own' = own) →
    frame own' m0 m → coherent m → Q d' own' e m0 m.

(** Postconditions that make the stretch respect the frame. *)
Definition framing {A : Type} (Q : Post A) : Prop :=
  ∀ d own e m0 m, Q d own e m0 m → frame own m0 m.

(** The postcondition of [p] in [bind p f]. *)
Definition bindPost {A B : Type} (f : A → Prog B) (Q : Post B) : Post A :=
  λ d own e m0 m,
    match e with
    | Completed (Some a) => safe d own (f a) m0 m Q
    | Completed None => Q d own (Completed None) m0 m
    | Suspended => Q d own Suspended m0 m
    end.

(** The postcondition of [p] in [try_catch p h]. *)
Definition catchPost {A : Type} (h : Prog A) (Q : Post A) : Post A :=
  λ d own e m0 m,
    match e with
    | Completed None => safe d own h m0 m Q
    | _ => Q d own e m0 m
    end.

(** What a suspended program does when its call [c] settles. *)
Definition resumes {A : Type} (c : Call) (k : Settled (Reply c) → Prog A)
    (m : Mem) (Q : Post A) : Prop :=
  match attemptId c with
  | Some id =>
      ∃ state, unsyncedAt state id m
        ∧ ∀ r m', coherent m' → unsyncedAt state id m' →
            safe true (Some id) (k r) m' m' Q
  | None => ∀ r m', coherent m' → safe true None (k r) m' m' Q
  end.

(** A call in flight resumes safely. *)
Definition resumable (pd : Pending) (m : Mem) : Prop :=
  resumes (p_call pd) (p_resume pd) m taskPost.

(** The invariant of the event loop: the memory is coherent and every
    call in flight resumes safely. *)
Definition sound (s : Sys) : Prop :=
  coherent (mem s) ∧ ∀ pd, pd ∈ pool s → resumable pd (mem s).

(** ** What every task keeps

    From [m] to [m']: every state object is still there and carries the
    id it had; every entry of the store is as it was or refers to an object
    that carries its id; every timer is as it was or closes over an
    existing object. *)
Definition grows (m m' : Mem) : Prop :=
  (∀ state st, heap m !! state = Some st →
     ∃ st', heap m' !! state = Some st' ∧ todoistId st' = todoistId st)
  ∧ (∀ id state, taskStates m' !! id = Some state →
       taskStates m !! id = Some state
       ∨ ∃ st, heap m' !! state = Some st ∧ todoistId st = id)
  ∧ (∀ t, t ∈ timers m' → t ∈ timers m ∨ is_Some (heap m' !! t.2)).

(** The store and the timers refer to existing state objects, the store
    under the id of the object. *)
Definition wired (m : Mem) : Prop :=
  filed m ∧ ∀ t, t ∈ timers m → is_Some (heap m !! t.2).

(** [tidy strict guarded p m]: every write of [p], run from [m] and
    resumed in whatever the memory has grown to, makes the memory grow.
    With [strict], moreover, nothing is thrown outside a [try] block
    ([guarded] says that [p] is inside one) as long as no call other than
    those a sync attempt makes for a task id is rejected. *)
Fixpoint tidy (strict guarded : bool) {A : Type} (p : Prog A) (m : Mem) : Prop :=
  match p with
  | Ret _ => True
  | Throw => strict = false ∨ guarded = true
  | Get k => tidy strict guarded (k m) m
  | Put m' k => grows m m' ∧ tidy strict guarded k m'
  | Await c k =>
      ∀ r m', grows m m' → wired m' →
        (strict = true → is_rejected r = true → attemptId c ≠ None) →
        tidy strict guarded (k r) m'
  | Fork child k =>
      tidy strict false child m
      ∧ ∀ m', grows m m' → wired m' → tidy strict guarded k m'
  end.

(** A call in flight whose program is tidy when resumed. *)
Definition tidyPending (strict : bool) (pd : Pending) (m : Mem) : Prop :=
  ∀ r m', grows m m' → wired m' →
    (strict = true → is_rejected r = true → attemptId (p_call pd) ≠ None) →
    tidy strict false (p_resume pd r) m'.

(** The invariant: the memory is wired, the calls in flight are tidy and,
    with [strict], no rejection has gone unhandled. *)
Definition steady (strict : bool) (s : Sys) : Prop :=
  wired (mem s)
  ∧ (∀ pd, pd ∈ pool s → tidyPending strict pd (mem s))
  ∧ (strict = true → unhandled s = 0%nat).




(** A checkbox the change handler passes over: its line carries neither
    an id marker nor the tag, or its task is in the store, synced, with the
    value the box shows. *)
Definition quiet (m : Mem) (lines : list jstring) (checkbox : ListItem) : Prop :=
  let line := default [] (lines !! li_line checkbox) in
  match extractTodoistId line with
  | Some id =>
      ∃ state st, taskStates m !! id = Some state ∧ heap m !! state = Some st
        ∧ synced st = true
        ∧ checkboxState st = bool_decide (li_task checkbox = Some (js "x"))
  | None => Str.contains TAG line = false
  end.

(** The code units an id marker is made of. *)
Definition marker_char (c : N) : bool :=
  alnum c || N.eqb c 40 || N.eqb c 41 || N.eqb c 42.

(** [line] contains no id marker. *)
Definition unmarked (line : jstring) : Prop :=
  ¬ ∃ pre id post, marker_at line pre id post.

(** ** The [todoist] code block (codeblock.ts)

    The code block renders a button; a click fetches the tasks of the
    filter, turns them into checkbox lines and replaces the block in the
    note by these lines. *)

Module CodeBlock.

(** [task.due]: the plugin reads its [date], a string. *)
Record Due := mkDue { due_date : jstring }.

(** A task as [getTasksByFilter] lists it. *)
Record ListedTask := mkListed {
  lt_id : jstring;
  lt_content : jstring;
  lt_projectId : jstring;
  lt_labels : list jstring;
  lt_due : option Due }.

(** How a promise settles; a rejection carries the text the error shows
    as in a template literal. *)
Inductive Result (A : Type) :=
| Ok (a : A)
| Err (error : jstring).
Arguments Ok {A} a.
Arguments Err {A} error.

(** The outside of a click: what Todoist answers to the [n]-th request
    ([getTasksByFilter] once the [then] has picked the task list out of
    the response, [getProject]), and whether a due date lies in the past
    ([new Date(date) < new Date()]). *)
Record Outside := mkOutside {
  tasksByFilter : nat → jstring → Result (list ListedTask);
  projectById : nat → jstring → Result Project;
  isOverdue : jstring → bool }.

Record Button := mkButton {
  disabled : bool;
  text : jstring }.

(** What [getAbstractFileByPath] finds at a path. *)
Inductive AbstractFile :=
| TFile (content : jstring)
| TFolder.

Inductive Request :=
| FetchTasks (query : jstring)
| FetchProject (projectId : jstring)
| ReadFile (path : jstring)
| ModifyFile (path data : jstring).

(** The button, the vault, the callbacks registered with [setTimeout]
    (each re-enables the button and sets its text) and the requests made
    so far. Reading and writing a file of the vault succeed. *)
Record World := mkWorld {
  button : Button;
  vault : gmap jstring AbstractFile;
  timeouts : list (Z * jstring);
  requests : list Request }.

Definition DEFAULT_QUERY : jstring := js "today | overdue".
Definition FILTER : jstring := js "filter:".

(** The loop over the lines of the block: the last [filter:] line sets
    the query. *)
Fixpoint queryOf (query : jstring) (lines : list jstring) : jstring :=
  match lines with
  | [] => query
  | line :: rest =>
      let trimmed := Str.trim line in
      queryOf (if Str.starts_with FILTER trimmed
               then Str.trim (drop (length FILTER) trimmed)
               else query) rest
  end.

(** The filter query of a code block. *)
Definition filterQuery (source : jstring) : jstring :=
  queryOf DEFAULT_QUERY (Str.split_lines (Str.trim source)).

Definition buttonText (query : jstring) : jstring :=
  js "Insert Todoist tasks (" ++ query ++ js ")".

(** [processTodoistCodeBlock]: the button it renders. *)
Definition processTodoistCodeBlock (source : jstring) : Button :=
  mkButton false (buttonText (filterQuery source)).

(** [s.replace(/\s+/g, '-')]: every run of white space becomes one dash;
    [in_run] says that the code unit before was white space. *)
Fixpoint dash_spaces_from (in_run : bool) (s : jstring) : jstring :=
  match s with
  | [] => []
  | c :: s' =>
      if Str.is_space c then
        if in_run then dash_spaces_from true s'
        else 45%N :: dash_spaces_from true s'
      else c :: dash_spaces_from false s'
  end.

Definition dash_spaces (s : jstring) : jstring := dash_spaces_from false s.

(** The regular expression of the code block: three backquotes and
    [todoist], then as little text as possible up to three backquotes. *)
Definition FENCE : jstring := js "```".
Definition OPEN : jstring := js "```todoist".

(** [[\s\S]*?] followed by [pat]: the number of code units up to the
    end of the first [pat]. *)
Fixpoint lazy_until (pat input : jstring) : option nat :=
  if Str.starts_with pat input then Some (length pat)
  else match input with
       | [] => None
       | _ :: rest => S <$> lazy_until pat rest
       end.

(** A match of the regular expression at the start of [input]: its
    length. *)
Definition block_here (input : jstring) : option nat :=
  if Str.starts_with OPEN input
  then (λ n, length OPEN + n)%nat <$> lazy_until FENCE (drop (length OPEN) input)
  else None.

(** The leftmost match: where it starts and how long it is. *)
Fixpoint search_block (input : jstring) : option (nat * nat) :=
  match block_here input with
  | Some n => Some (0%nat, n)
  | None => match input with
            | [] => None
            | _ :: rest => (λ p : nat * nat, (S p.1, p.2)) <$> search_block rest
            end
  end.

(** [content.replace(codeBlockRegex, repl)] *)
Definition replaceCodeBlock (repl content : jstring) : jstring :=
  match search_block content with
  | None => content
  | Some (i, n) =>
      let before := take i content in
      let matched := take n (drop i content) in
      let after := drop (i + n) content in
      before ++ Str.get_substitution matched before after repl ++ after
  end.

(** The calendar sign of the due date, in UTF-16. *)
Definition CALENDAR : jstring := [55357; 56787; 65039]%N.

(** The due date as the line shows it. *)
Definition dueDate (O : Outside) (task : ListedTask) : jstring :=
  match lt_due task with
  | Some due =>
      js " (" ++ CALENDAR ++ js " " ++ due_date due ++ js " "
      ++ (if isOverdue O (due_date due) then js " - **OVERDUE**" else [])
      ++ js ")"
  | None => []
  end.

(** The checkbox line of a task, without its line end. *)
Definition taskLine (O : Outside) (task : ListedTask) (tags : list jstring) : jstring :=
  js "- [ ] " ++ lt_content task ++ js " " ++ Str.join (js " ") tags ++ js " "
  ++ dueDate O task ++ js " (*" ++ lt_id task ++ js "*)".

(** *** The click handler

    Asynchronous code that nothing interleaves with: a state and error
    monad over the world. *)
Definition M (A : Type) : Type := World → World * Result A.

Definition ret {A : Type} (a : A) : M A := λ w, (w, Ok a).

Definition bindM {A B : Type} (m : M A) (f : A → M B) : M B :=
  λ w, match m w with
       | (w', Ok a) => f a w'
       | (w', Err e) => (w', Err e)
       end.

Definition update (f : World → World) : M unit := λ w, (f w, Ok tt).

Definition asked (r : Request) (w : World) : World :=
  mkWorld (button w) (vault w) (timeouts w) (requests w ++ [r]).

Definition setText (t : jstring) (w : World) : World :=
  mkWorld (mkButton (disabled (button w)) t) (vault w) (timeouts w) (requests w).

Definition setDisabled (b : bool) (w : World) : World :=
  mkWorld (mkButton b (text (button w))) (vault w) (timeouts w) (requests w).

(** [setTimeout(() => { button.disabled = false; button.setText(t) }, delay)] *)
Definition setTimeout (delay : Z) (t : jstring) (w : World) : World :=
  mkWorld (button w) (vault w) (timeouts w ++ [(delay, t)]) (requests w).

Definition writeFile (path data : jstring) (w : World) : World :=
  mkWorld (button w) (<[path := TFile data]> (vault w)) (timeouts w) (requests w).

(** [await todoist.getTasksByFilter({ query })] *)
Definition getTasksByFilter (O : Outside) (query : jstring) : M (list ListedTask) :=
  λ w, (asked (FetchTasks query) w, tasksByFilter O (length (requests w)) query).

(** [await todoist.getProject(projectId)] *)
Definition getProject (O : Outside) (projectId : jstring) : M Project :=
  λ w, (asked (FetchProject projectId) w, projectById O (length (requests w)) projectId).

(** [buildTags(todoist, task)] *)
Definition buildTags (O : Outside) (task : ListedTask) : M (list jstring) :=
  let defaultTag := js "#todoist" in
  bindM (match lt_projectId task with
         | _ :: _ =>
             bindM (getProject O (lt_projectId task)) (λ project,
               ret (defaultTag ++ js "/" ++ dash_spaces (p_name project)))
         | [] => ret defaultTag
         end) (λ projectTag,
    ret (projectTag ::
         ((λ taskLabel, defaultTag ++ js "/" ++ dash_spaces taskLabel)
            <$> lt_labels task))).

(** The loop that builds [checkboxMarkdown]. *)
Fixpoint checkboxMarkdown (O : Outside) (tasks : list ListedTask)
    (markdown : jstring) : M jstring :=
  match tasks with
  | [] => ret markdown
  | task :: rest =>
      bindM (buildTags O task) (λ tags,
        checkboxMarkdown O rest (markdown ++ taskLine O task tags ++ [10%N]))
  end.

(** The [try] block of the click handler. *)
Definition fetchAndInsert (O : Outside) (query sourcePath : jstring) : M unit :=
  bindM (getTasksByFilter O query) (λ tasks,
    match tasks with
    | [] =>
        bindM (update (setText (js "No tasks found"))) (λ _,
          update (setTimeout 2000 (buttonText query)))
    | _ :: _ =>
        bindM (checkboxMarkdown O tasks []) (λ markdown w,
          match vault w !! sourcePath with
          | Some (TFile content) =>
              let newContent := replaceCodeBlock markdown content in
              (writeFile sourcePath newContent
                 (asked (ModifyFile sourcePath newContent)
                    (asked (ReadFile sourcePath) w)), Ok tt)
          | _ => (w, Ok tt)
          end)
    end).

(** The click handler of the button. *)
Definition click (O : Outside) (query sourcePath : jstring) (w : World) : World :=
  let w1 := setText (js "Fetching tasks...") (setDisabled true w) in
  match fetchAndInsert O query sourcePath w1 with
  | (w2, Ok _) => w2
  | (w2, Err error) =>
      setTimeout 3000 (js "Insert Todoist tasks") (setText (js "Error: " ++ error) w2)
  end.

(** The [i]-th callback registered with [setTimeout] runs. *)
Definition fire (i : nat) (w : World) : World :=
  match timeouts w !! i with
  | Some (_, t) =>
      mkWorld (mkButton false t) (vault w) (delete i (timeouts w)) (requests w)
  | None => w
  end.

End CodeBlock.

(** What building the tags and the lines leaves of the world: only
    requests for projects are added. *)
Definition onlyAsked (w w' : CodeBlock.World) : Prop :=
  CodeBlock.button w' = CodeBlock.button w
  ∧ CodeBlock.vault w' = CodeBlock.vault w
  ∧ CodeBlock.timeouts w' = CodeBlock.timeouts w
  ∧ ∃ ids, CodeBlock.requests w'
           = CodeBlock.requests w ++ (CodeBlock.FetchProject <$> ids).

(* ===================================================================== *)
(** * Theorems *)

(** ** The backoff delay *)

Example nextRetryDelay_values :
  (λ n, nextRetryDelay (mkState (js "123") true false n))
    <$> [0; 1; 2; 3; 5; 6; 7; 2000]%N
  = [5000; 10000; 20000; 40000; 160000; 300000; 300000; 300000]%Z.
Proof. vm_compute. reflexivity. Qed.

Example backoff_overflows_to_Infinity :
  times 5000 (Math_pow2 1011) = Num (5000 * 2 ^ 1011)
  ∧ times 5000 (Math_pow2 1012) = Infinity
  ∧ Math_pow2 1024 = Infinity.
Proof. vm_compute. repeat split; reflexivity. Qed.

Lemma pow2_1024_large : (300000 < 2 ^ 1024)%Z.
Proof.
  apply Z.lt_le_trans with (2 ^ 19)%Z; [reflexivity|].
  apply Z.pow_le_mono_r; lia.
Qed.

(** C3: for every count n of failed attempts, nextRetryDelay on a state
    with retryAttempts = n is exactly min(5000 * 2^n, 300000) ms. It is a
    function of the state alone: it yields the same delay whenever asked,
    and nothing but retryAttempts enters the result. *)
Theorem nextRetryDelay_formula (id : jstring) (checked sync : bool) (n : N) :
  nextRetryDelay (mkState id checked sync n)
  = Z.min (5000 * 2 ^ Z.of_N n) 300000.
Proof.
  unfold nextRetryDelay, Math_pow2; cbn [retryAttempts].
  change (5 * 60000)%Z with 300000%Z.
  pose proof pow2_1024_large as Hbig.
  destruct (N.ltb_spec n 1024) as [Hn|Hn]; cbn [times Math_min].
  - destruct (Z.ltb_spec (5000 * 2 ^ Z.of_N n) (2 ^ 1024)) as [Hp|Hp];
      cbn [Math_min]; lia.
  - assert (2 ^ 1024 ≤ 2 ^ Z.of_N n)%Z by (apply Z.pow_le_mono_r; lia).
    lia.
Qed.
(** ** The id marker *)

Example extractTodoistId_values :
  extractTodoistId <$> [js "- [x] Pay rent #todoist/Home (*6X7rM8997g3RQmvh*)";
                        js "- [ ] (*12*) first, (*34*) second";
                        js "- [ ] no marker (**) here (*a b*)";
                        js ""]
  = [Some (js "6X7rM8997g3RQmvh"); Some (js "12"); None; None].
Proof. vm_compute. reflexivity. Qed.

Section PlusClass.
Context {X : Type} (p : N → bool) (k : jstring → option X).
(** The continuation only accepts inputs that start outside the class. *)
Hypothesis k_stops : ∀ rest x, k rest = Some x →
  ∃ c rest', rest = c :: rest' ∧ p c = false.

Lemma plus_class_Some input x :
  Regex.plus_class p input k = Some x ↔
  ∃ s rest, input = s ++ rest ∧ s ≠ [] ∧ Forall (λ c, p c = true) s
            ∧ k rest = Some x.
Proof using k_stops.
  revert x. induction input as [|c input IH]; intros x; cbn.
  - split; [done|]. intros (s & rest & Heq & Hne & _).
    destruct s; [done|discriminate].
  - destruct (p c) eqn:Hc.
    + destruct (Regex.plus_class p input k) as [y|] eqn:Hrec.
      * split.
        -- intros [= <-].
           destruct (proj1 (IH y) eq_refl) as (s & rest & -> & _ & Hall & Hk).
           exists (c :: s), rest. repeat split; auto.
        -- intros (s & rest & Heq & Hne & Hall & Hk).
           destruct s as [|c' s]; [done|]. injection Heq as <- ->.
           destruct s as [|c2 s].
           ++ destruct (k_stops _ _ Hk) as (d & rest' & -> & Hd).
              cbn in Hrec. rewrite Hd in Hrec. discriminate.
           ++ apply IH. exists (c2 :: s), rest. repeat split; auto.
              by inversion Hall.
      * split.
        -- intros Hk. exists [c], input. repeat split; auto.
        -- intros (s & rest & Heq & Hne & Hall & Hk).
           destruct s as [|c' s]; [done|]. injection Heq as <- ->.
           destruct s as [|c2 s]; [done|].
           assert (None = Some x) as Hx; [|done].
           apply IH. exists (c2 :: s), rest. repeat split; auto.
           by inversion Hall.
    + split; [done|]. intros (s & rest & Heq & Hne & Hall & _).
      destruct s as [|c' s]; [done|]. injection Heq as <- ->.
      inversion Hall; congruence.
Qed.
End PlusClass.

Lemma take_captured (s rest : jstring) :
  take (length (s ++ rest) - length rest) (s ++ rest) = s.
Proof.
  rewrite length_app. replace (_ + _ - _)%nat with (length s) by lia.
  by rewrite take_app_length.
Qed.

Lemma match_here_marker input cap :
  Regex.match_here TODOIST_ID_REGEX input = Some cap ↔
  ∃ id post, marker_at input [] id post ∧ cap = Some id.
Proof.
  unfold Regex.match_here, TODOIST_ID_REGEX, marker_at. cbn [Regex.rmatch app].
  change (js "(*") with [40%N; 42%N]. change (js "*)") with [42%N; 41%N].
  destruct input as [|c1 input].
  { split; [done|]. by intros (? & ? & (? & _) & _). }
  destruct (N.eqb_spec 40 c1) as [<-|Hc1].
  2: { split; [done|]. intros (? & ? & (Heq & _) & _). cbn in Heq. congruence. }
  destruct input as [|c2 input].
  { split; [done|]. intros (? & ? & (Heq & _) & _). cbn in Heq. congruence. }
  destruct (N.eqb_spec 42 c2) as [<-|Hc2].
  2: { split; [done|]. intros (? & ? & (Heq & _) & _). cbn in Heq. congruence. }
  rewrite plus_class_Some.
  - split.
    + intros (s & rest & -> & Hne & Hall & Hk).
      destruct rest as [|d1 rest]; [done|].
      destruct (N.eqb_spec 42 d1) as [<-|]; [|done].
      destruct rest as [|d2 rest]; [done|].
      destruct (N.eqb_spec 41 d2) as [<-|]; [|done].
      injection Hk as <-. exists s, rest. split; [done|].
      f_equal. exact (take_captured s (42%N :: 41%N :: rest)).
    + intros (id & post & (Heq & Hne & Hall) & ->).
      cbn in Heq. injection Heq as ->.
      exists id, (42%N :: 41%N :: post). repeat split; auto.
      cbn. do 2 f_equal. exact (take_captured id (42%N :: 41%N :: post)).
  - intros rest x Hk. destruct rest as [|d1 rest]; [done|].
    destruct (N.eqb_spec 42 d1) as [<-|]; [|done]. eauto.
Qed.

Lemma alnum_prefix_unique (s s' r r' : jstring) :
  Forall (λ c, alnum c = true) s → Forall (λ c, alnum c = true) s' →
  s ++ 42%N :: r = s' ++ 42%N :: r' → s = s'.
Proof.
  intros Hs. revert s'. induction Hs as [|c s Hc Hs IH]; intros s' Hs' Heq.
  - destruct Hs' as [|c' s' Hc' _]; [done|].
    cbn in Heq. injection Heq as <- _. discriminate.
  - destruct Hs' as [|c' s' Hc' Hs'].
    + cbn in Heq. injection Heq as -> _. discriminate.
    + cbn in Heq. injection Heq as -> Heq. f_equal. eauto.
Qed.

Lemma marker_at_unique line pre id id' post post' :
  marker_at line pre id post → marker_at line pre id' post' → id = id'.
Proof.
  intros (-> & _ & Hid) (Heq & _ & Hid').
  apply app_inv_head in Heq. cbn in Heq. injection Heq as Heq.
  eapply alnum_prefix_unique; eauto.
Qed.

Lemma marker_at_shift line pre id post c :
  marker_at line pre id post → marker_at (c :: line) (c :: pre) id post.
Proof. intros (-> & ? & ?). by split. Qed.

Lemma search_None line :
  Regex.search TODOIST_ID_REGEX line = None ↔
  ¬ ∃ pre id post, marker_at line pre id post.
Proof.
  induction line as [|c line IH]; cbn [Regex.search].
  - destruct (Regex.match_here _ []) as [cap|] eqn:Hm.
    + apply match_here_marker in Hm as (id & post & H & _).
      split; [done|]. intros []. eauto.
    + split; [|done]. intros _ (pre & id & post & Heq & _).
      destruct pre; discriminate.
  - destruct (Regex.match_here _ (c :: line)) as [cap|] eqn:Hm.
    + apply match_here_marker in Hm as (id & post & H & _).
      split; [done|]. intros []. eauto.
    + rewrite IH. split.
      * intros Hno (pre & id & post & H). destruct pre as [|c' pre].
        -- assert (Regex.match_here TODOIST_ID_REGEX (c :: line) = Some (Some id)).
           { apply match_here_marker. eauto. }
           congruence.
        -- destruct H as (Heq & ? & ?). cbn in Heq. injection Heq as <- ->.
           apply Hno. exists pre, id, post. by split.
      * intros Hno (pre & id & post & H). apply Hno.
        exists (c :: pre), id, post. by apply marker_at_shift.
Qed.

Lemma search_Some line cap :
  Regex.search TODOIST_ID_REGEX line = Some cap ↔
  ∃ pre id post, cap = Some id ∧ marker_at line pre id post
    ∧ ∀ pre' id' post', marker_at line pre' id' post' → length pre ≤ length pre'.
Proof.
  induction line as [|c line IH] in cap |- *; cbn [Regex.search].
  - destruct (Regex.match_here _ []) as [cap'|] eqn:Hm.
    + apply match_here_marker in Hm as (id & post & (Heq & _) & _). discriminate.
    + split; [done|]. intros (pre & id & post & _ & (Heq & _) & _).
      destruct pre; discriminate.
  - destruct (Regex.match_here _ (c :: line)) as [cap'|] eqn:Hm.
    + apply match_here_marker in Hm as (id & post & H & ->). split.
      * intros [= <-]. exists [], id, post. split; [done|]. split; [done|].
        intros; cbn; lia.
      * intros (pre & id' & post' & -> & H' & Hmin).
        specialize (Hmin _ _ _ H). destruct pre; [|cbn in Hmin; lia].
        f_equal. f_equal. eapply marker_at_unique; eauto.
    + rewrite IH. split.
      * intros (pre & id & post & -> & H & Hmin).
        exists (c :: pre), id, post. split; [done|].
        split; [by apply marker_at_shift|].
        intros pre' id' post' H'. destruct pre' as [|c' pre'].
        -- assert (Regex.match_here TODOIST_ID_REGEX (c :: line) = Some (Some id')).
           { apply match_here_marker. eauto. }
           congruence.
        -- destruct H' as (Heq & ? & ?). cbn in Heq. injection Heq as <- ->.
           cbn. apply le_n_S. eapply Hmin. by split.
      * intros (pre & id & post & -> & H & Hmin). destruct pre as [|c' pre].
        -- assert (Regex.match_here TODOIST_ID_REGEX (c :: line) = Some (Some id)).
           { apply match_here_marker. eauto. }
           congruence.
        -- destruct H as (Heq & ? & ?). cbn in Heq. injection Heq as <- ->.
           exists pre, id, post. split; [done|]. split; [by split|].
           intros pre' id' post' H'.
           specialize (Hmin (c :: pre') id' post' (marker_at_shift _ _ _ _ c H')).
           cbn in Hmin. lia.
Qed.

(** C10: extractTodoistId returns an id exactly when the line contains a
    marker (*id*) whose id is a non-empty run of ASCII letters and digits,
    and then it is the id of the leftmost such marker, wherever it stands
    in the line; it returns null exactly when there is no such marker, as
    for an id with a hyphen. *)
Theorem extractTodoistId_spec (line : jstring) :
  (∀ id, extractTodoistId line = Some id ↔
     ∃ pre post, marker_at line pre id post
       ∧ ∀ pre' id' post', marker_at line pre' id' post' → length pre ≤ length pre')
  ∧ (extractTodoistId line = None ↔ ¬ ∃ pre id post, marker_at line pre id post)
  ∧ extractTodoistId (js "- [ ] Call Bob (*ab-cd*)") = None
  ∧ extractTodoistId (js "- [ ] Call (*a1*) Bob (*b2*) soon") = Some (js "a1").
Proof.
  unfold extractTodoistId. split; [|split; [|split; reflexivity]].
  - intros id. destruct (Regex.search _ line) as [cap|] eqn:Hs.
    + apply search_Some in Hs as (pre & id0 & post & -> & H & Hmin). split.
      * intros [= <-]. eauto.
      * intros (pre' & post' & H' & Hmin'). f_equal.
        pose proof (Hmin _ _ _ H'). pose proof (Hmin' _ _ _ H).
        destruct H as (Heq & ? & ?), H' as (Heq' & ? & ?).
        assert (pre = pre') as <-.
        { rewrite Heq in Heq'. apply (f_equal (take (length pre))) in Heq'.
          rewrite take_app_length in Heq'.
          replace (length pre) with (length pre') in Heq' at 1 by lia.
          by rewrite take_app_length in Heq'. }
        eapply marker_at_unique; split; eauto.
    + split; [done|]. intros (pre & post & H & _).
      apply search_None in Hs. destruct Hs. eauto.
  - destruct (Regex.search _ line) as [cap|] eqn:Hs.
    + apply search_Some in Hs as (pre & id0 & post & -> & H & _).
      split; [done|]. intros []. eauto.
    + apply search_None in Hs. done.
Qed.

(** ** Rules for running programs *)

Lemma exec_bind {A B} ω (p : Prog A) (f : A → Prog B) s :
  exec ω (bind p f) s
  = match exec ω p s with
    | (s', Some a) => exec ω (f a) s'
    | (s', None) => (s', None)
    end.
Proof.
  revert s. induction p as [A a|A|A k IH|A m k IH|A c k IH|A child _ k IH]
    in B, f |- *; intros s; cbn; auto.
  destruct (exec ω child s) as [s1 [r|]]; apply IH.
Qed.

Lemma exec_try_catch {A} ω (p h : Prog A) s :
  exec ω (try_catch p h) s
  = match exec ω p s with
    | (s', Some a) => (s', Some a)
    | (s', None) => exec ω h s'
    end.
Proof.
  revert s. induction p as [A a|A|A k IH|A m k IH|A c k IH|A child _ k IH]
    in h |- *; intros s; cbn; auto.
  destruct (exec ω child s) as [s1 [r|]]; apply IH.
Qed.

Lemma exec_await ω c s :
  exec ω (await c) s
  = (logged c s,
     match ω (length (history s)) c with
     | Fulfilled v => Some v
     | Rejected => None
     end).
Proof. cbn. by destruct (ω _ c). Qed.

Lemma exec_readState ω state s st :
  heap (mem s) !! state = Some st →
  exec ω (readState state) s = (s, Some st).
Proof. intros H. cbn. by rewrite H. Qed.

Lemma exec_assign ω state f s st :
  heap (mem s) !! state = Some st →
  exec ω (assign state f) s = (on_mem (write state (f st)) s, Some tt).
Proof. intros H. cbn. by rewrite H. Qed.

Lemma heap_write state st m st0 :
  heap m !! state = Some st0 → heap (write state st m) !! state = Some st.
Proof.
  intros H. cbn. apply list_lookup_insert_eq. by eapply lookup_lt_Some.
Qed.

Lemma write_write state st st' m :
  write state st' (write state st m) = write state st' m.
Proof. unfold write, with_heap; cbn. by rewrite list_insert_insert_eq. Qed.

Ltac sys_eq :=
  unfold on_mem, with_mem, logged; cbn [mem pool history unhandled];
  rewrite <- ?app_assoc; reflexivity.

Ltac exec_bind := rewrite exec_bind; cbv beta iota.

Lemma exec_syncState ω state s st :
  heap (mem s) !! state = Some st →
  let n := length (history s) in
  exec ω (syncState state) s
  = (mkSys (attemptMem (attemptOutcome ω n st) state st (mem s)) (pool s)
       (history s ++ attemptCalls ω n st) (unhandled s),
     Some tt).
Proof.
  intros H n.
  assert (∀ s1 : Sys, heap (mem s1) !! state = Some st →
    exec ω (bind (assign state (set_synced true))
              (λ _, assign state (set_retryAttempts 0))) s1
    = (on_mem (markSynced state st) s1, Some tt)) as Hmark.
  { intros s1 H1. rewrite exec_bind, (exec_assign _ _ _ _ _ H1).
    cbv beta iota. erewrite exec_assign by (by eapply heap_write).
    unfold on_mem, markSynced; cbn. by rewrite write_write. }
  assert (∀ s1 : Sys, heap (mem s1) !! state = Some st →
    exec ω (bind (readState state) (λ s0,
       bind (assign state (set_retryAttempts (retryAttempts s0 + 1)))
         (λ _, bind (readState state) (λ s2,
            bind (notice (retryAttempts s2) (Math_round_div1000 (nextRetryDelay s2)))
              (λ _, setTimeout state (nextRetryDelay s2)))))) s1
    = (on_mem (markFailed state st) s1, Some tt)) as Hfail.
  { intros s1 H1. rewrite exec_bind, (exec_readState _ _ _ _ H1).
    cbv beta iota. rewrite exec_bind, (exec_assign _ _ _ _ _ H1).
    cbv beta iota. rewrite exec_bind.
    erewrite exec_readState by (by eapply heap_write).
    reflexivity. }
  unfold syncState, mbind, Prog_bind, mret, Prog_ret.
  rewrite exec_try_catch. exec_bind. rewrite (exec_readState _ _ _ _ H).
  cbv beta iota. exec_bind. rewrite (exec_await ω (GetTask (todoistId st))). fold n.
  unfold attemptOutcome, attemptCalls.
  destruct (ω n (GetTask (todoistId st))) as [[task|]|] eqn:Hf; cbv beta iota.
  - exec_bind. rewrite (exec_readState ω state (logged _ s) st H). cbv beta iota.
    exec_bind. unfold mutation.
    destruct (checkboxState st && negb (truthy (t_completedAt task))).
    + exec_bind. rewrite (exec_await ω (CloseTask (todoistId st))). cbn [logged history].
      rewrite length_app; cbn [length]. replace (length (history s) + 1)%nat with (S n) by (subst n; lia).
      destruct (ω (S n) (CloseTask (todoistId st))); cbn [is_rejected]; cbv beta iota.
      * cbn [exec]. rewrite Hmark by done. sys_eq.
      * rewrite Hfail by done. sys_eq.
    + destruct (negb (checkboxState st) && truthy (t_completedAt task)).
      * exec_bind. rewrite (exec_await ω (ReopenTask (todoistId st))). cbn [logged history].
        rewrite length_app; cbn [length]. replace (length (history s) + 1)%nat with (S n) by (subst n; lia).
        destruct (ω (S n) (ReopenTask (todoistId st))); cbn [is_rejected]; cbv beta iota.
        -- cbn [exec]. rewrite Hmark by done. sys_eq.
        -- rewrite Hfail by done. sys_eq.
      * cbn [exec]. rewrite Hmark by done. reflexivity.
  - reflexivity.
  - rewrite Hfail by done. reflexivity.
Qed.

Lemma advance_bind {A B} (p : Prog A) (f : A → Prog B) s :
  advance (bind p f) s
  = match advance p s with
    | (s', Finished a) => advance (f a) s'
    | (s', Threw) => (s', Threw)
    | (s', Waiting c k) => (s', Waiting c (λ r, bind (k r) f))
    end.
Proof.
  revert s. induction p as [A a|A|A k IH|A m k IH|A c k IH|A child _ k IH]
    in B, f |- *; intros s; cbn; auto.
  destruct (advance child s) as [s1 o1]; apply IH.
Qed.

Lemma advance_try_catch {A} (p h : Prog A) s :
  advance (try_catch p h) s
  = match advance p s with
    | (s', Finished a) => (s', Finished a)
    | (s', Threw) => advance h s'
    | (s', Waiting c k) => (s', Waiting c (λ r, try_catch (k r) h))
    end.
Proof.
  revert s. induction p as [A a|A|A k IH|A m k IH|A c k IH|A child _ k IH]
    in h |- *; intros s; cbn; auto.
  destruct (advance child s) as [s1 o1]; apply IH.
Qed.

Lemma advance_readState state s st :
  heap (mem s) !! state = Some st →
  advance (readState state) s = (s, Finished st).
Proof. intros H. cbn. by rewrite H. Qed.

Lemma advance_assign state f s st :
  heap (mem s) !! state = Some st →
  advance (assign state f) s = (on_mem (write state (f st)) s, Finished tt).
Proof. intros H. cbn. by rewrite H. Qed.

Lemma advance_assign_again state f s st st' :
  heap (mem s) !! state = Some st →
  advance (assign state f) (on_mem (write state st') s)
  = (on_mem (write state (f st')) s, Finished tt).
Proof.
  intros H. erewrite advance_assign by (by eapply heap_write).
  unfold on_mem; cbn [mem with_mem]. by rewrite write_write.
Qed.

Ltac advance_bind := rewrite advance_bind; cbv beta iota.

(** The first [await] of an attempt is the fetch of the task. *)
Lemma start_syncState state s st :
  heap (mem s) !! state = Some st →
  ∃ k, start (syncState state) s
       = mkSys (mem s) (pool s ++ [mkPending (GetTask (todoistId st)) k])
           (history s ++ [GetTask (todoistId st)]) (unhandled s).
Proof.
  intros H. unfold start, syncState, mbind, Prog_bind.
  rewrite advance_try_catch. advance_bind.
  rewrite (advance_readState _ _ _ H). cbv beta iota.
  advance_bind. cbn [await advance register]. eauto.
Qed.

(** ** Programs on the inherited members *)

Lemma aside_bind {A B} (p : Prog A) (f : A → Prog B) :
  ∀ m, aside p m → (∀ a m', aside (f a) m') → aside (bind p f) m.
Proof.
  induction p as [A a|A|A k IH|A mp k IH|A c k IH|A child IHc k IHk] in B, f |- *;
    intros m Hp Hf; cbn [aside bind] in *.
  - apply Hf.
  - done.
  - by apply IH.
  - destruct Hp as [Hb Hp]. split; [done|]. by apply IH.
  - destruct Hp as [Hc Hp]. split; [done|]. intros r m'. by apply IH.
  - done.
Qed.

Lemma aside_try_catch {A} (p h : Prog A) :
  ∀ m, aside p m → (∀ m', aside h m') → aside (try_catch p h) m.
Proof.
  induction p as [A a|A|A k IH|A mp k IH|A c k IH|A child IHc k IHk] in h |- *;
    intros m Hp Hh; cbn [aside try_catch] in *.
  - done.
  - apply Hh.
  - by apply IH.
  - destruct Hp as [Hb Hp]. split; [done|]. by apply IH.
  - destruct Hp as [Hc Hp]. split; [done|]. intros r m'. by apply IH.
  - done.
Qed.

Lemma aside_assignBuiltin name f m : aside (assignBuiltin name f) m.
Proof. cbn. split; [|done]. by eexists. Qed.

Lemma aside_await c m : attemptId c = None → aside (await c) m.
Proof. intros Hc. cbn. split; [done|]. by intros [v|] m'. Qed.

Lemma aside_syncStateBuiltin name m : aside (syncStateBuiltin name) m.
Proof.
  unfold syncStateBuiltin, mbind, Prog_bind, mret, Prog_ret.
  apply aside_try_catch.
  - apply aside_bind; [by apply aside_await|]. intros [task|] m1; [|done].
    cbn [readBuiltin bind aside].
    apply aside_bind.
    + destruct (_ && _); [apply aside_bind; [by apply aside_await|done]|].
      destruct (_ && _); [apply aside_bind; [by apply aside_await|done]|done].
    + intros _ m2. apply aside_bind; [apply aside_assignBuiltin|].
      intros _ m3. apply aside_assignBuiltin.
  - intros m1. cbn [readBuiltin bind aside].
    apply aside_bind; [apply aside_assignBuiltin|done].
Qed.

Lemma aside_updateStateBuiltin name checked m :
  aside (updateStateBuiltin name checked) m.
Proof.
  unfold updateStateBuiltin, mbind, Prog_bind, mret, Prog_ret.
  cbn [readBuiltin bind aside].
  apply aside_bind.
  - destruct (negb _); [|done].
    apply aside_bind; [apply aside_assignBuiltin|]. intros _ m1.
    apply aside_bind; [apply aside_assignBuiltin|]. intros _ m2.
    apply aside_assignBuiltin.
  - intros _ m1. cbn [readBuiltin bind aside].
    destruct (bool_decide _); [done|]. apply aside_syncStateBuiltin.
Qed.

(** Such a program leaves the state objects, the store and the timers as
    they are. *)
Lemma exec_aside {A} ω (p : Prog A) :
  ∀ s, aside p (mem s) →
    heap (mem (exec ω p s).1) = heap (mem s)
    ∧ taskStates (mem (exec ω p s).1) = taskStates (mem s)
    ∧ timers (mem (exec ω p s).1) = timers (mem s).
Proof.
  induction p as [A a|A|A k IH|A mp k IH|A c k IH|A child IHc k IHk];
    intros s Hp; cbn [aside exec] in *.
  - done.
  - done.
  - by apply IH.
  - destruct Hp as [[b ->] Hp]. by destruct (IH (with_mem (with_builtins b (mem s)) s) Hp).
  - destruct Hp as [_ Hp]. apply (IH _ (logged c s)), Hp.
  - done.
Qed.

(** ** Observations *)




(** C7: observing, for an entry of the store, a checkbox value different
    from the stored one stores the new value with synced = false and
    retryAttempts = 0 and then starts a sync attempt on the entry: the
    fetch of its task is issued and the attempt is in flight. *)
Theorem updateState_change (s : Sys) (id : jstring) (state : nat) (st : State)
    (checked : bool) :
  taskStates (mem s) !! id = Some state →
  heap (mem s) !! state = Some st →
  checkboxState st ≠ checked →
  let s1 := on_mem (write state (mkState (todoistId st) checked false 0)) s in
  step (Observe id checked) s = start (syncState state) s1
  ∧ ∃ k, start (syncState state) s1
         = mkSys (mem s1) (pool s ++ [mkPending (GetTask (todoistId st)) k])
             (history s ++ [GetTask (todoistId st)]) (unhandled s).
Proof.
  intros Hid Hst Hne s1.
  assert (heap (mem s1) !! state = Some (mkState (todoistId st) checked false 0)) as H1.
  { by eapply heap_write. }
  split; [|exact (start_syncState state s1 _ H1)].
  unfold step, start, updateState, mbind, Prog_bind, mret, Prog_ret, get.
  cbn [bind advance]. rewrite Hid.
  advance_bind. rewrite (advance_readState _ _ _ Hst). cbv beta iota.
  advance_bind.
  replace (negb (Bool.eqb (checkboxState st) checked)) with true.
  2: { destruct (checkboxState st), checked; done. }
  advance_bind. rewrite (advance_assign _ _ _ _ Hst). cbv beta iota.
  advance_bind. rewrite (advance_assign_again _ _ _ _ _ Hst). cbv beta iota.
  rewrite (advance_assign_again _ _ _ _ _ Hst). cbv beta iota.
  change (on_mem (write state (set_retryAttempts 0 _)) s) with s1.
  advance_bind. rewrite (advance_readState _ _ _ H1). cbv beta iota.
  reflexivity.
Qed.

Lemma updateState_change_witness :
  ∃ k, step (Observe (js "123") true)
         (step (Observe (js "123") false) (initial (mkSettings (js "key"))))
       = mkSys (mkMem [mkState (js "123") true false 0] {[ js "123" := 0%nat ]}
                  (mkSettings (js "key")) [] [])
           [mkPending (GetTask (js "123")) k] [GetTask (js "123")] 0.
Proof.
  destruct (updateState_change
              (step (Observe (js "123") false) (initial (mkSettings (js "key"))))
              (js "123") 0 (mkState (js "123") false true 0) true)
    as [Hstep [k Hk]]; [reflexivity|reflexivity|discriminate|].
  exists k. rewrite Hstep. exact Hk.
Defined.

(** ** The steps of an attempt on the event loop *)

Lemma advance_markSynced state s st :
  heap (mem s) !! state = Some st →
  advance (bind (assign state (set_synced true))
             (λ _, assign state (set_retryAttempts 0))) s
  = (on_mem (markSynced state st) s, Finished tt).
Proof.
  intros H. advance_bind. rewrite (advance_assign _ _ _ _ H). cbv beta iota.
  by rewrite (advance_assign_again _ _ _ _ _ H).
Qed.

Lemma advance_markFailed state s st :
  heap (mem s) !! state = Some st →
  advance (bind (readState state) (λ s0,
     bind (assign state (set_retryAttempts (retryAttempts s0 + 1)))
       (λ _, bind (readState state) (λ s2,
          bind (notice (retryAttempts s2) (Math_round_div1000 (nextRetryDelay s2)))
            (λ _, setTimeout state (nextRetryDelay s2)))))) s
  = (on_mem (markFailed state st) s, Finished tt).
Proof.
  intros H. advance_bind. rewrite (advance_readState _ _ _ H). cbv beta iota.
  advance_bind. rewrite (advance_assign _ _ _ _ H). cbv beta iota.
  advance_bind. erewrite advance_readState by (by eapply heap_write).
  reflexivity.
Qed.

(** X3: an attempt first issues the fetch. Whenever the fetch settles, in
    whatever system [s] the event loop has reached by then, the attempt
    goes on from the state [st] the object holds at that moment: a
    rejection counts a failure and schedules the retry; a missing task
    ends the attempt; a task that agrees with the checkbox marks the state
    synced; otherwise the close or reopen call is issued, and when that
    call settles in turn, the state is marked synced or the failure is
    counted. *)
Lemma syncState_steps (state : nat) (s0 : Sys) (st0 : State) :
  heap (mem s0) !! state = Some st0 →
  ∃ k, advance (syncState state) s0 = (s0, Waiting (GetTask (todoistId st0)) k)
    ∧ ∀ s st, heap (mem s) !! state = Some st →
        advance (k Rejected) s = (on_mem (markFailed state st) s, Finished tt)
        ∧ advance (k (Fulfilled None)) s = (s, Finished tt)
        ∧ ∀ task,
            match mutation st task with
            | None =>
                advance (k (Fulfilled (Some task))) s
                = (on_mem (markSynced state st) s, Finished tt)
            | Some c =>
                ∃ k', advance (k (Fulfilled (Some task))) s = (s, Waiting c k')
                  ∧ ∀ s' st', heap (mem s') !! state = Some st' →
                      advance (k' Rejected) s'
                      = (on_mem (markFailed state st') s', Finished tt)
                      ∧ ∀ v, advance (k' (Fulfilled v)) s'
                             = (on_mem (markSynced state st') s', Finished tt)
            end.
Proof.
  intros H0. unfold syncState, mbind, Prog_bind, mret, Prog_ret.
  rewrite advance_try_catch. advance_bind.
  rewrite (advance_readState _ _ _ H0). cbv beta iota.
  advance_bind. cbn [await advance]. eexists. split; [reflexivity|].
  intros s st H. split; [|split].
  - cbn [bind try_catch]. by apply advance_markFailed.
  - reflexivity.
  - intros task. cbn [bind]. rewrite advance_try_catch. advance_bind.
    rewrite (advance_readState _ _ _ H). cbv beta iota. unfold mutation.
    destruct (checkboxState st && negb (truthy (t_completedAt task))).
    + advance_bind. advance_bind. cbn [await advance]. eexists.
      split; [reflexivity|]. intros s' st' H'. split.
      * cbn [bind try_catch]. by apply advance_markFailed.
      * intros v. cbn [bind]. rewrite advance_try_catch.
        by rewrite (advance_markSynced _ _ _ H').
    + destruct (negb (checkboxState st) && truthy (t_completedAt task)).
      * advance_bind. advance_bind. cbn [await advance]. eexists.
        split; [reflexivity|]. intros s' st' H'. split.
        -- cbn [bind try_catch]. by apply advance_markFailed.
        -- intros v. cbn [bind]. rewrite advance_try_catch.
           by rewrite (advance_markSynced _ _ _ H').
      * advance_bind. cbn [advance]. by rewrite (advance_markSynced _ _ _ H).
Qed.

(** ** Single attempts *)

Lemma execTask_syncState ω state s st :
  heap (mem s) !! state = Some st →
  execTask ω (syncState state) s
  = mkSys (attemptMem (attemptOutcome ω (length (history s)) st) state st (mem s))
      (pool s) (history s ++ attemptCalls ω (length (history s)) st) (unhandled s).
Proof. intros H. unfold execTask. by rewrite (exec_syncState _ _ _ _ H). Qed.

(** C4: when the fetch resolves to a task whose completion agrees with
    the checkbox of the state, the attempt issues no other call (neither
    close nor reopen), sets no timer, does not throw, and leaves the state
    with synced = true and retryAttempts = 0. *)
Theorem syncState_consistent (ω : nat → Oracle) (s : Sys) (state : nat)
    (st : State) (task : Task) :
  heap (mem s) !! state = Some st →
  ω (length (history s)) (GetTask (todoistId st)) = Fulfilled (Some task) →
  truthy (t_completedAt task) = checkboxState st →
  exec ω (syncState state) s
  = (on_mem (write state (mkState (todoistId st) (checkboxState st) true 0))
       (logged (GetTask (todoistId st)) s),
     Some tt).
Proof.
  intros H Hfetch Hagree. rewrite (exec_syncState _ _ _ _ H).
  assert (mutation st task = None) as Hnone.
  { unfold mutation. rewrite Hagree. by destruct (checkboxState st). }
  unfold attemptOutcome, attemptCalls. rewrite Hfetch, Hnone. reflexivity.
Qed.

Lemma syncState_consistent_witness :
  exec (λ _, serves (healthy (Some (task123 None)) None)) (syncState 0)
    (mkSys (mkMem [mkState (js "123") false false 2] {[ js "123" := 0%nat ]} key [] [])
       [] [] 0)
  = (mkSys (mkMem [mkState (js "123") false true 0] {[ js "123" := 0%nat ]} key [] [])
       [] [GetTask (js "123")] 0,
     Some tt).
Proof.
  exact (syncState_consistent
           (λ _, serves (healthy (Some (task123 None)) None))
           (mkSys (mkMem [mkState (js "123") false false 2] {[ js "123" := 0%nat ]} key [] [])
              [] [] 0)
           0 (mkState (js "123") false false 2) (task123 None)
           eq_refl eq_refl eq_refl).
Defined.

Lemma elem_of_pendingSyncs (m : Mem) (e : PersistedSyncEntry) :
  e ∈ pendingSyncs m ↔
  ∃ id state st, taskStates m !! id = Some state ∧ heap m !! state = Some st
                 ∧ synced st = false ∧ e = persisted st.
Proof.
  unfold pendingSyncs, Object_values. rewrite list_elem_of_fmap. split.
  - intros (st & -> & Hin). apply list_elem_of_filter in Hin as [Hs Hin].
    apply list_elem_of_omap in Hin as ([id state] & Hin & Hst).
    apply elem_of_map_to_list in Hin. eauto 10.
  - intros (id & state & st & Hid & Hst & Hs & ->). exists st. split; [done|].
    apply list_elem_of_filter. split; [done|].
    apply list_elem_of_omap. exists (id, state). split; [|done].
    by apply elem_of_map_to_list.
Qed.




(** ** Observations and timers, run to their end *)

(** The state an observation leaves in the object before any attempt. *)
Lemma exec_updateState_new ω id checked s :
  taskStates (mem s) !! id = None →
  inherited id = false →
  exec ω (updateState id checked) s
  = (on_mem (λ m, with_taskStates (<[id := length (heap m)]> (taskStates m))
                    (with_heap (heap m ++ [mkState id checked true 0]) m)) s,
     Some tt).
Proof.
  intros H Hin. unfold updateState, mbind, Prog_bind, mret, Prog_ret, get.
  cbn [bind exec]. rewrite H, Hin.
  cbn [alloc assign readState modify bind exec mem with_mem heap with_heap
       mbind Prog_bind].
  rewrite lookup_app_r, Nat.sub_diag by done.
  cbn [lookup list_lookup bind exec mem with_mem heap with_heap modify].
  rewrite insert_app_r_alt, Nat.sub_diag by done. reflexivity.
Qed.

Lemma exec_updateState_inherited ω id checked s :
  taskStates (mem s) !! id = None →
  inherited id = true →
  exec ω (updateState id checked) s = exec ω (updateStateBuiltin id checked) s.
Proof.
  intros H Hin. unfold updateState, mbind, Prog_bind, mret, Prog_ret, get.
  cbn [bind exec]. by rewrite H, Hin.
Qed.

Lemma exec_updateState_dangling ω id checked s state :
  taskStates (mem s) !! id = Some state →
  heap (mem s) !! state = None →
  exec ω (updateState id checked) s = (s, None).
Proof.
  intros Hid H. unfold updateState, mbind, Prog_bind, mret, Prog_ret, get.
  cbn [bind exec]. rewrite Hid. cbn [readState bind exec]. by rewrite H.
Qed.

Lemma exec_assign_again ω state f s st st' :
  heap (mem s) !! state = Some st →
  exec ω (assign state f) (on_mem (write state st') s)
  = (on_mem (write state (f st')) s, Some tt).
Proof.
  intros H. erewrite exec_assign by (by eapply heap_write).
  unfold on_mem; cbn [mem with_mem]. by rewrite write_write.
Qed.

Lemma exec_updateState_same ω id checked s state st :
  taskStates (mem s) !! id = Some state →
  heap (mem s) !! state = Some st →
  checkboxState st = checked →
  exec ω (updateState id checked) s
  = if synced st then (s, Some tt) else exec ω (syncState state) s.
Proof.
  intros Hid H Hsame. unfold updateState, mbind, Prog_bind, mret, Prog_ret, get.
  cbn [bind exec]. rewrite Hid.
  exec_bind. rewrite (exec_readState _ _ _ _ H). cbv beta iota.
  exec_bind. rewrite Hsame, Bool.eqb_reflx. cbn [negb exec].
  exec_bind. rewrite (exec_readState _ _ _ _ H). cbv beta iota.
  by destruct (synced st).
Qed.

Lemma exec_updateState_changed ω id checked s state st :
  taskStates (mem s) !! id = Some state →
  heap (mem s) !! state = Some st →
  checkboxState st ≠ checked →
  exec ω (updateState id checked) s
  = exec ω (syncState state)
      (on_mem (write state (mkState (todoistId st) checked false 0)) s).
Proof.
  intros Hid H Hne. unfold updateState, mbind, Prog_bind, mret, Prog_ret, get.
  cbn [bind exec]. rewrite Hid.
  exec_bind. rewrite (exec_readState _ _ _ _ H). cbv beta iota.
  exec_bind.
  replace (negb (Bool.eqb (checkboxState st) checked)) with true.
  2: { destruct (checkboxState st), checked; done. }
  exec_bind. rewrite (exec_assign _ _ _ _ _ H). cbv beta iota.
  exec_bind. rewrite (exec_assign_again _ _ _ _ _ _ H). cbv beta iota.
  rewrite (exec_assign_again _ _ _ _ _ _ H). cbv beta iota.
  exec_bind. erewrite exec_readState by (by eapply heap_write). cbv beta iota.
  reflexivity.
Qed.

Lemma exec_timerCallback ω state s :
  exec ω (timerCallback state) s
  = match heap (mem s) !! state with
    | None => (s, None)
    | Some st => if synced st then (s, Some tt)
                 else (execTask ω (syncState state) s, Some tt)
    end.
Proof.
  unfold timerCallback, mbind, Prog_bind, mret, Prog_ret.
  exec_bind. destruct (heap (mem s) !! state) as [st|] eqn:H.
  - rewrite (exec_readState _ _ _ _ H). cbv beta iota.
    destruct (synced st); [done|]. cbn [negb exec]. unfold execTask.
    by destruct (exec ω (syncState state) s) as [s1 [[]|]].
  - cbn. by rewrite H.
Qed.

Lemma exec_savePendingSyncs ω s :
  exec ω savePendingSyncs s
  = (mkSys (mem s) (pool s) (history s ++ [SaveData (savedData (mem s))])
       (if is_rejected (ω (length (history s)) (SaveData (savedData (mem s))))
        then S (unhandled s) else unhandled s),
     Some tt).
Proof.
  unfold savePendingSyncs, mbind, Prog_bind, mret, Prog_ret, get.
  cbn [bind exec]. unfold savedData.
  rewrite (exec_await ω (SaveData (mkData (settings (mem s)) (pendingSyncs (mem s))))).
  by destruct (ω _ _).
Qed.

Lemma exec_restoreEntries_cons ω entry rest s :
  let state := length (heap (mem s)) in
  let s1 := on_mem (λ m, with_taskStates (<[e_todoistId entry := state]> (taskStates m))
                           (with_heap (heap m ++ [restored entry]) m)) s in
  exec ω (restoreEntries (entry :: rest)) s
  = exec ω (restoreEntries rest) (execTask ω (syncState state) s1).
Proof.
  intros state s1.
  assert (heap (mem s1) !! state = Some (restored entry)) as H1.
  { cbn. by rewrite lookup_app_r, Nat.sub_diag. }
  rewrite (execTask_syncState _ _ _ _ H1).
  cbn [restoreEntries]. unfold mbind, Prog_bind, mret, Prog_ret.
  cbn [alloc bind exec mem with_mem]. exec_bind.
  set (s0 := with_mem (with_heap (heap (mem s) ++ [new_State (e_todoistId entry) (e_checkboxState entry)]) (mem s)) s).
  assert (heap (mem s0) !! state = Some (new_State (e_todoistId entry) (e_checkboxState entry))) as H0.
  { cbn. by rewrite lookup_app_r, Nat.sub_diag. }
  rewrite (exec_assign _ _ _ _ _ H0). cbv beta iota.
  exec_bind. rewrite (exec_assign_again _ _ _ _ _ _ H0). cbv beta iota.
  exec_bind. cbn [modify exec mem with_mem on_mem].
  exec_bind.
  replace (with_mem _ _) with s1.
  2: { unfold s1, s0, on_mem, write, with_mem, with_taskStates, with_heap.
       cbn [mem heap taskStates settings timers notices pool history unhandled].
       rewrite insert_app_r_alt, Nat.sub_diag by done. reflexivity. }
  rewrite (exec_syncState _ _ _ _ H1). reflexivity.
Qed.

(** ** The invariant of the state objects *)

Lemma coherent_write state st m :
  coherent m → (synced st = true → retryAttempts st = 0%N) →
  coherent (write state st m).
Proof.
  intros Hm Hst state' st' H. cbn in H.
  apply list_lookup_insert_Some in H as [(_ & <- & _)|(_ & H)]; eauto.
Qed.

Lemma coherent_attemptMem a state st m :
  synced st = false → coherent m → coherent (attemptMem a state st m).
Proof.
  intros Hs Hm. destruct a; [|done|].
  - intros state' st' H. cbn in H.
    apply list_lookup_insert_Some in H as [(_ & <- & _)|(_ & H)]; [|eauto].
    cbn. congruence.
  - by apply coherent_write.
Qed.

Lemma coherent_alloc st m :
  coherent m → (synced st = true → retryAttempts st = 0%N) →
  coherent (with_heap (heap m ++ [st]) m).
Proof.
  intros Hm Hst state' st' H. cbn in H.
  apply lookup_app_Some in H as [H|[_ H]]; [eauto|].
  apply list_lookup_singleton_Some in H as [_ <-]. done.
Qed.

Lemma coherent_syncState ω state s st :
  heap (mem s) !! state = Some st → synced st = false →
  coherent (mem s) → coherent (mem (execTask ω (syncState state) s)).
Proof.
  intros H Hs Hm. rewrite (execTask_syncState _ _ _ _ H). cbn [mem].
  by apply coherent_attemptMem.
Qed.

Lemma coherent_restoreEntries ω entries s :
  coherent (mem s) → coherent (mem (exec ω (restoreEntries entries) s).1).
Proof.
  revert s. induction entries as [|entry rest IH]; intros s Hm; [done|].
  rewrite exec_restoreEntries_cons. apply IH.
  eapply coherent_syncState with (st := restored entry); [|done|].
  - cbn. by rewrite lookup_app_r, Nat.sub_diag.
  - cbn [on_mem mem with_mem]. intros state st H. cbn in H.
    by eapply (coherent_alloc (restored entry) (mem s)).
Qed.

Lemma mem_execTask ω p s :
  mem (execTask ω p s) = mem (exec ω p s).1.
Proof. unfold execTask. by destruct (exec ω p s) as [s1 [?|]]. Qed.

Lemma coherent_perform ω s op :
  coherent (mem s) → coherent (mem (perform ω s op)).
Proof.
  intros Hm. destruct op as [id checked| |i|]; cbn [perform].
  - rewrite mem_execTask.
    destruct (taskStates (mem s) !! id) as [state|] eqn:Hid.
    + destruct (heap (mem s) !! state) as [st|] eqn:H.
      * destruct (decide (checkboxState st = checked)) as [Hsame|Hne].
        -- rewrite (exec_updateState_same _ _ _ _ _ _ Hid H Hsame).
           destruct (synced st) eqn:Hs; [done|].
           rewrite <- mem_execTask. by eapply coherent_syncState.
        -- rewrite (exec_updateState_changed _ _ _ _ _ _ Hid H Hne).
           rewrite <- mem_execTask.
           eapply coherent_syncState; [by eapply heap_write|done|].
           by apply coherent_write.
      * by rewrite (exec_updateState_dangling _ _ _ _ _ Hid H).
    + destruct (inherited id) eqn:Hin.
      { rewrite (exec_updateState_inherited _ _ _ _ Hid Hin).
        destruct (exec_aside ω (updateStateBuiltin id checked) s
                    (aside_updateStateBuiltin _ _ _)) as (Hh & _).
        intros state st H. rewrite Hh in H. by eapply Hm. }
      rewrite (exec_updateState_new _ _ _ _ Hid Hin). cbn [fst on_mem mem with_mem].
      intros state st H. cbn in H.
      by eapply (coherent_alloc (mkState id checked true 0) (mem s)).
  - rewrite mem_execTask. unfold restorePendingSyncs, mbind, Prog_bind.
    exec_bind. rewrite (exec_await ω LoadData).
    destruct (ω _ LoadData) as [data|]; [|done].
    by apply coherent_restoreEntries.
  - destruct (timers (mem s) !! i) as [[delay state]|]; [|done].
    rewrite mem_execTask, exec_timerCallback. cbn [mem with_mem with_timers heap].
    destruct (heap (mem s) !! state) as [st|] eqn:H; [|done].
    destruct (synced st) eqn:Hs; [done|]. cbn [fst].
    by eapply coherent_syncState.
  - unfold onunload. by rewrite mem_execTask, exec_savePendingSyncs.
Qed.

(** Without any overlap, every operation run to its end before the next
    one starts, the state objects stay coherent. *)
Lemma operations_keep_coherent (ω : nat → Oracle) (st0 : MyPluginSettings)
    (ops : list Op) :
  coherent (mem (foldl (perform ω) (initial st0) ops)).
Proof.
  induction ops as [|op ops IH] using rev_ind; [by intros ? ? [=]|].
  rewrite foldl_app. cbn [foldl]. by apply coherent_perform.
Qed.

(** ** The invariant on the event loop

    Sync attempts for different task ids may overlap freely, and so may
    the change handlers, the restore and the unload; what the invariant
    needs is that no two attempts for the same task id are in flight at
    the same time. *)

(** *** Rules for safe programs *)

Lemma safe_mono {A} (p : Prog A) :
  ∀ d own m0 m (Q Q' : Post A),
    (∀ d' o e m0' m', Q d' o e m0' m' → Q' d' o e m0' m') →
    safe d own p m0 m Q → safe d own p m0 m Q'.
Proof.
  induction p as [A a|A|A k IH|A mp k IH|A c k IH|A child IHc k IHk];
    intros d own m0 m Q Q' HQ; cbn [safe]; eauto.
  - intros [Hs Hk]. split; [eauto|].
    destruct (attemptId c) as [id|].
    + destruct Hk as (state & Hu & Hk). exists state. split; [done|]. eauto.
    + eauto.
  - intros [-> Hc]. split; [done|].
    eapply IHc; [|exact Hc]. intros [] o e m0' m1; cbn; [done|].
    intros [? ?]. split; [done|]. eauto.
Qed.

(** Once a task has been suspended, only the detached part of its
    postcondition counts. *)
Lemma safe_mono_detached {A} (p : Prog A) :
  ∀ own m0 m (Q Q' : Post A),
    (∀ o e m0' m', Q true o e m0' m' → Q' true o e m0' m') →
    safe true own p m0 m Q → safe true own p m0 m Q'.
Proof.
  induction p as [A a|A|A k IH|A mp k IH|A c k IH|A child IHc k IHk];
    intros own m0 m Q Q' HQ; cbn [safe]; eauto.
  - intros [Hs Hk]. split; [eauto|].
    destruct (attemptId c) as [id|].
    + destruct Hk as (state & Hu & Hk). exists state. split; [done|]. eauto.
    + eauto.
  - intros [-> Hc]. split; [done|].
    eapply safe_mono; [|exact Hc]. intros [] o e m0' m1; cbn; [done|].
    intros [? ?]. split; [done|]. eauto.
Qed.

Lemma safe_bind {A B} (p : Prog A) (f : A → Prog B) :
  ∀ d own m0 m (Q : Post B),
    safe d own p m0 m (bindPost f Q) → safe d own (bind p f) m0 m Q.
Proof.
  induction p as [A a|A|A k IH|A mp k IH|A c k IH|A child IHc k IHk]
    in B, f |- *; intros d own m0 m Q; cbn [safe bind]; eauto.
  - intros [Hs Hk]. split; [done|].
    destruct (attemptId c) as [id|].
    + destruct Hk as (state & Hu & Hk). exists state. split; [done|]. eauto.
    + eauto.
  - intros [-> Hc]. split; [done|].
    eapply safe_mono; [|exact Hc]. intros [] o e m0' m1; cbn; [done|].
    intros [? ?]. split; [done|]. eauto.
Qed.

Lemma safe_try_catch {A} (p h : Prog A) :
  ∀ d own m0 m (Q : Post A),
    safe d own p m0 m (catchPost h Q) → safe d own (try_catch p h) m0 m Q.
Proof.
  induction p as [A a|A|A k IH|A mp k IH|A c k IH|A child IHc k IHk]
    in h |- *; intros d own m0 m Q; cbn [safe try_catch]; eauto.
  - intros [Hs Hk]. split; [done|].
    destruct (attemptId c) as [id|].
    + destruct Hk as (state & Hu & Hk). exists state. split; [done|]. eauto.
    + eauto.
  - intros [-> Hc]. split; [done|].
    eapply safe_mono; [|exact Hc]. intros [] o e m0' m1; cbn; [done|].
    intros [? ?]. split; [done|]. eauto.
Qed.

(** *** Writes and the frame *)

Lemma frame_refl own m : frame own m m.
Proof. by intros ? ? ?. Qed.

Lemma frame_trans own m1 m2 m3 :
  frame own m1 m2 → frame own m2 m3 → frame own m1 m3.
Proof. intros H1 H2 state id Hne Hu. apply H2, H1; done. Qed.

Lemma frame_None own m m' : frame None m m' → frame own m m'.
Proof. intros H state id _ Hu. by apply H. Qed.

Lemma unsyncedAt_write_ne state state' st id m :
  state ≠ state' → unsyncedAt state' id m → unsyncedAt state' id (write state st m).
Proof.
  intros Hne (st' & H & Hid & Hs). exists st'. cbn.
  by rewrite list_lookup_insert_ne.
Qed.

(** A write that leaves an unsynced state unsynced, with its id. *)
Lemma frame_write_unsynced own state st st' m :
  heap m !! state = Some st →
  todoistId st' = todoistId st → (synced st = false → synced st' = false) →
  frame own m (write state st' m).
Proof.
  intros H Hid Hs state' id _ Hu.
  destruct (decide (state = state')) as [<-|Hne];
    [|by apply unsyncedAt_write_ne].
  destruct Hu as (st0 & H0 & Hid0 & Hs0). exists st'. cbn.
  rewrite list_lookup_insert_eq by (by eapply lookup_lt_Some).
  assert (st0 = st) as -> by congruence. split; [done|]. split; [congruence|auto].
Qed.

(** A write to the state the task holds an attempt on. *)
Lemma frame_write_own state st st' id m :
  heap m !! state = Some st → todoistId st = id →
  frame (Some id) m (write state st' m).
Proof.
  intros H Hid state' id' Hne Hu.
  destruct (decide (state = state')) as [<-|Hne'];
    [|by apply unsyncedAt_write_ne].
  destruct Hu as (st0 & H0 & Hid0 & _). congruence.
Qed.

(** A new object, whatever is written to it afterwards. *)
Lemma frame_alloc own st m tS :
  frame own m (mkMem (heap m ++ [st]) tS (settings m) (timers m) (notices m)).
Proof.
  intros state id _ (st0 & H0 & Hid & Hs). exists st0. cbn.
  by rewrite lookup_app_l by (by eapply lookup_lt_Some).
Qed.

Lemma frame_same_heap own m m' : heap m' = heap m → frame own m m'.
Proof.
  intros Hh state id _ (st0 & H0 & Hid & Hs). exists st0. by rewrite Hh.
Qed.

Lemma coherent_same_heap m m' : heap m' = heap m → coherent m → coherent m'.
Proof. intros Hh Hm state st. rewrite Hh. apply Hm. Qed.

(** *** Rules for the primitives *)

Lemma safe_read_bind {B} d own state st (f : State → Prog B) m0 m Q :
  heap m !! state = Some st →
  safe d own (f st) m0 m Q → safe d own (bind (readState state) f) m0 m Q.
Proof. intros H Hf. cbn. by rewrite H. Qed.

Lemma safe_assign_bind {B} d own state st g (f : unit → Prog B) m0 m Q :
  heap m !! state = Some st →
  safe d own (f tt) m0 (write state (g st) m) Q →
  safe d own (bind (assign state g) f) m0 m Q.
Proof. intros H Hf. cbn. rewrite H. done. Qed.

Lemma safe_assign d own state st g m0 m (Q : Post unit) :
  heap m !! state = Some st →
  Q d own (Completed (Some tt)) m0 (write state (g st) m) →
  safe d own (assign state g) m0 m Q.
Proof. intros H HQ. cbn. rewrite H. done. Qed.

Lemma safe_modify_bind {B} d own g (f : unit → Prog B) m0 m Q :
  safe d own (f tt) m0 (g m) Q →
  safe d own (bind (modify g) f) m0 m Q.
Proof. done. Qed.

Lemma safe_modify d own g m0 m (Q : Post unit) :
  Q d own (Completed (Some tt)) m0 (g m) →
  safe d own (modify g) m0 m Q.
Proof. done. Qed.

(** [await] of an attempt call, about the unsynced state [state]. *)
Lemma safe_await_attempt {B} d own c id state (f : Reply c → Prog B) m0 m Q :
  attemptId c = Some id →
  Q d own Suspended m0 m →
  unsyncedAt state id m →
  (∀ m', coherent m' → unsyncedAt state id m' →
     Q true (Some id) (Completed None) m' m'
     ∧ ∀ v, safe true (Some id) (f v) m' m' Q) →
  safe d own (bind (await c) f) m0 m Q.
Proof.
  intros Hc HQ Hu Hk. cbn [await bind safe]. rewrite Hc. split; [done|].
  exists state. split; [done|]. intros r m' Hm' Hu'.
  destruct (Hk m' Hm' Hu') as [Hthrow Hv]. destruct r; cbn; auto.
Qed.

(** [await] of any other call. *)
Lemma safe_await_other {B} d own c (f : Reply c → Prog B) m0 m Q :
  attemptId c = None →
  Q d own Suspended m0 m →
  (∀ m', coherent m' →
     Q true None (Completed None) m' m' ∧ ∀ v, safe true None (f v) m' m' Q) →
  safe d own (bind (await c) f) m0 m Q.
Proof.
  intros Hc HQ Hk. cbn [await bind safe]. rewrite Hc. split; [done|].
  intros r m' Hm'. destruct (Hk m' Hm') as [Hthrow Hv]. destruct r; cbn; auto.
Qed.

(** *** The attempt *)

Lemma lenient_weaken {A} d own d' own' (Q : Post A) :
  d' = true ∨ (d' = d ∧ own' = own) → lenient d own Q → lenient d' own' Q.
Proof.
  intros Hd HQ d2 own2 e m0 m H2. apply HQ.
  destruct H2 as [->|[-> ->]]; [by left|done].
Qed.

Lemma lenient_here {A} d own (Q : Post A) e m0 m :
  lenient d own Q → frame own m0 m → coherent m → Q d own e m0 m.
Proof. intros HQ. apply HQ. by right. Qed.

Lemma lenient_detached {A} d own own' (Q : Post A) e m0 m :
  lenient d own Q → frame own' m0 m → coherent m → Q true own' e m0 m.
Proof. intros HQ. apply HQ. by left. Qed.

(** The [catch] block of [syncState], on an unsynced state. *)
Lemma safe_failure d own state id m0 m (Q : Post unit) :
  (∀ m1, frame own m0 m1 → coherent m1 → Q d own (Completed (Some tt)) m0 m1) →
  frame own m0 m →
  coherent m → unsyncedAt state id m →
  safe d own
    (bind (readState state) (λ s0,
       bind (assign state (set_retryAttempts (retryAttempts s0 + 1)))
         (λ _, bind (readState state) (λ s2,
            bind (notice (retryAttempts s2) (Math_round_div1000 (nextRetryDelay s2)))
              (λ _, setTimeout state (nextRetryDelay s2)))))) m0 m Q.
Proof.
  intros HQ Hfr Hm (st & H & Hid & Hs).
  eapply safe_read_bind; [done|].
  eapply safe_assign_bind; [done|].
  eapply safe_read_bind; [by eapply heap_write|].
  apply safe_modify_bind.
  apply safe_modify.
  apply HQ.
  - eapply (frame_trans _ _ (write state (set_retryAttempts (retryAttempts st + 1) st) m));
      [|by apply frame_same_heap].
    eapply frame_trans; [done|]. by eapply frame_write_unsynced.
  - eapply coherent_same_heap; [reflexivity|].
    eapply coherent_same_heap; [reflexivity|].
    apply coherent_write; [done|]. cbn. congruence.
Qed.

(** The two assignments of a successful attempt. *)
Lemma safe_success state id m0 m (Q : Post unit) :
  (∀ m1, frame (Some id) m0 m1 → coherent m1 →
     Q true (Some id) (Completed (Some tt)) m0 m1) →
  frame (Some id) m0 m →
  coherent m → unsyncedAt state id m →
  safe true (Some id)
    (bind (assign state (set_synced true))
       (λ _, assign state (set_retryAttempts 0))) m0 m Q.
Proof.
  intros HQ Hfr Hm (st & H & Hid & Hs).
  eapply safe_assign_bind; [done|].
  eapply safe_assign; [by eapply heap_write|].
  rewrite write_write. apply HQ.
  - eapply frame_trans; [done|]. by eapply frame_write_own.
  - by apply coherent_write.
Qed.

Lemma safe_syncState d own state st m0 m (Q : Post unit) :
  lenient d own Q → frame own m0 m → coherent m →
  heap m !! state = Some st → synced st = false →
  safe d own (syncState state) m0 m Q.
Proof.
  intros HQ Hfr Hm H Hs. unfold syncState, mbind, Prog_bind, mret, Prog_ret.
  assert (unsyncedAt state (todoistId st) m) as Hu by (by exists st).
  apply safe_try_catch.
  eapply safe_read_bind; [done|].
  eapply (safe_await_attempt _ _ (GetTask (todoistId st)));
    [done|cbn [catchPost]; eapply lenient_here; eassumption|done|].
  intros m' Hm' Hu'. split.
  { cbn [catchPost]. eapply safe_failure; [|apply frame_refl|done..].
    intros; eapply lenient_detached; eassumption. }
  intros [task|]; [|cbn [safe catchPost]; eapply lenient_detached; [eassumption|apply frame_refl|done]].
  pose proof Hu' as (st' & H' & Hid' & Hs').
  eapply safe_read_bind; [done|]. rewrite Hid'.
  apply safe_bind.
  assert (∀ m1 m2, frame (Some (todoistId st)) m1 m2 →
    coherent m2 → unsyncedAt state (todoistId st) m2 →
    safe true (Some (todoistId st))
      (bind (assign state (set_synced true))
         (λ _, assign state (set_retryAttempts 0))) m1 m2
      (catchPost
         (bind (readState state) (λ s0,
            bind (assign state (set_retryAttempts (retryAttempts s0 + 1)))
              (λ _, bind (readState state) (λ s2,
                 bind (notice (retryAttempts s2) (Math_round_div1000 (nextRetryDelay s2)))
                   (λ _, setTimeout state (nextRetryDelay s2)))))) Q)) as Hnext.
  { intros m1 m2 Hfr2 Hm2 Hu2. eapply safe_success; [|done..].
    intros m3 Hfr3 Hm3. cbn [catchPost]. eapply lenient_detached; eassumption. }
  assert (∀ c : Call, attemptId c = Some (todoistId st) →
    safe true (Some (todoistId st)) (bind (await c) (λ _, Ret tt)) m' m'
      (bindPost (λ _ : unit, bind (assign state (set_synced true))
                               (λ _, assign state (set_retryAttempts 0)))
         (catchPost
            (bind (readState state) (λ s0,
               bind (assign state (set_retryAttempts (retryAttempts s0 + 1)))
                 (λ _, bind (readState state) (λ s2,
                    bind (notice (retryAttempts s2) (Math_round_div1000 (nextRetryDelay s2)))
                      (λ _, setTimeout state (nextRetryDelay s2)))))) Q))) as Hcall.
  { intros c Hc. eapply safe_await_attempt; [done| |done|].
    { cbn [bindPost catchPost].
      eapply lenient_detached; [done|apply frame_refl|done]. }
    intros m2 Hm2 Hu2. split.
    - cbn [bindPost catchPost]. eapply safe_failure; [|apply frame_refl|done..].
      intros; eapply lenient_detached; eassumption.
    - intros _. cbn [safe bindPost]. apply Hnext; [apply frame_refl|done..]. }
  destruct (checkboxState st' && negb (truthy (t_completedAt task))).
  { by apply Hcall. }
  destruct (negb (checkboxState st') && truthy (t_completedAt task)).
  { by apply Hcall. }
  cbn [safe bindPost]. apply Hnext; [apply frame_refl|done..].
Qed.

(** *** The asynchronous functions of the plugin *)

(** Whatever keeps the objects of [m] leaves the frame. *)
Lemma frame_preserve own m m' :
  (∀ i st, heap m !! i = Some st → heap m' !! i = Some st) → frame own m m'.
Proof. intros H state id _ (st & Hst & Hid & Hs). exists st. auto. Qed.

(** The postcondition of an asynchronous function nobody awaits. *)
Lemma lenient_fork {A} d (k : Prog A) (Q : Post A) :
  (∀ m, coherent m → safe d None k m m Q) →
  lenient false None
    (λ d' o (_ : End unit) m0' m1,
       if d' then frame o m0' m1 ∧ coherent m1
       else frame None m0' m1 ∧ safe d None k m1 m1 Q).
Proof.
  intros Hk d' own' e m0 m [->|[-> ->]] Hfr Hm; [done|]. split; [done|]. auto.
Qed.

(** A program on the inherited members respects every frame. *)
Lemma safe_aside {A} (p : Prog A) :
  ∀ d own m0 m (Q : Post A),
    aside p m → lenient d own Q → frame own m0 m → coherent m →
    safe d own p m0 m Q.
Proof.
  induction p as [A a|A|A k IH|A mp k IH|A c k IH|A child IHc k IHk];
    intros d own m0 m Q Hp HQ Hfr Hm; cbn [aside safe] in *.
  - by eapply lenient_here.
  - by eapply lenient_here.
  - by apply IH.
  - destruct Hp as [[b ->] Hp]. apply IH; [done|done| |].
    + eapply frame_trans; [done|]. by apply frame_same_heap.
    + by eapply coherent_same_heap.
  - destruct Hp as [-> Hp]. split; [by eapply lenient_here|].
    intros r m' Hm'. apply IH; [apply Hp| |apply frame_refl|done].
    eapply lenient_weaken; [|done]. by left.
  - done.
Qed.

Lemma safe_updateState d id checked m0 m (Q : Post unit) :
  lenient d None Q → frame None m0 m → coherent m →
  safe d None (updateState id checked) m0 m Q.
Proof.
  intros HQ Hfr Hm. unfold updateState, mbind, Prog_bind, mret, Prog_ret, get.
  cbn [bind safe]. destruct (taskStates m !! id) as [state|].
  - cbn [bind safe readState]. destruct (heap m !! state) as [st|] eqn:H;
      [|cbn [bind safe]; by eapply lenient_here].
    change (safe d None
      (bind (if negb (Bool.eqb (checkboxState st) checked)
             then bind (assign state (set_checkboxState checked))
                    (λ _, bind (assign state (set_synced false))
                            (λ _, assign state (set_retryAttempts 0)))
             else Ret tt)
         (λ _, bind (readState state)
                 (λ s, if synced s then Ret tt else syncState state))) m0 m Q).
    destruct (negb (Bool.eqb (checkboxState st) checked)).
    + apply safe_bind.
      eapply safe_assign_bind; [done|].
      eapply safe_assign_bind; [by eapply heap_write|].
      eapply safe_assign; [by do 2 eapply heap_write|].
      rewrite !write_write. cbn [bindPost].
      eapply safe_read_bind; [by eapply heap_write|]. cbn [synced set_retryAttempts set_synced].
      eapply safe_syncState; [done| |by apply coherent_write|by eapply heap_write|done].
      eapply frame_trans; [done|]. by eapply frame_write_unsynced.
    + cbn [bind]. eapply safe_read_bind; [done|].
      destruct (synced st) eqn:Hs; [cbn [safe]; by eapply lenient_here|].
      by eapply safe_syncState.
  - destruct (inherited id).
    { by apply safe_aside; [apply aside_updateStateBuiltin|..]. }
    cbn [bind safe alloc readState assign modify heap with_heap lookup].
    eapply safe_assign_bind.
    { cbn [heap with_heap]. rewrite lookup_app_r by done.
      by rewrite Nat.sub_diag. }
    apply safe_modify.
    eapply lenient_here; [done| |].
    + eapply frame_trans; [done|]. apply frame_preserve. intros i st H. cbn.
      pose proof (lookup_lt_Some _ _ _ H).
      rewrite list_lookup_insert_ne by lia. by rewrite lookup_app_l.
    + intros state st H. cbn in H.
      apply list_lookup_insert_Some in H as [(_ & <- & _)|(_ & H)]; [done|].
      apply lookup_app_Some in H as [H|[_ H]]; [by eapply Hm|].
      apply list_lookup_singleton_Some in H as [_ <-]. done.
Qed.

Lemma safe_ret {A} d own (a : A) m0 m (Q : Post A) :
  lenient d own Q → frame own m0 m → coherent m → safe d own (Ret a) m0 m Q.
Proof. intros HQ Hfr Hm. cbn [safe]. by eapply lenient_here. Qed.

Lemma safe_timerCallback d state m0 m (Q : Post unit) :
  lenient d None Q → frame None m0 m → coherent m →
  safe d None (timerCallback state) m0 m Q.
Proof.
  intros HQ Hfr Hm. unfold timerCallback, mbind, Prog_bind, mret, Prog_ret.
  cbn [bind safe readState]. destruct (heap m !! state) as [st|] eqn:H;
    cbn [bind safe]; [|by eapply lenient_here].
  destruct (synced st) eqn:Hs; cbn [negb safe]; [by eapply lenient_here|].
  split; [done|]. eapply safe_syncState; [|done..].
  apply (lenient_fork d (Ret tt) Q).
  intros m1 Hm1. eapply safe_ret; [done|apply frame_refl|done].
Qed.

Lemma safe_savePendingSyncs d m0 m (Q : Post unit) :
  lenient d None Q → frame None m0 m → coherent m →
  safe d None savePendingSyncs m0 m Q.
Proof.
  intros HQ Hfr Hm. unfold savePendingSyncs, mbind, Prog_bind, mret, Prog_ret, get.
  cbn [bind safe await attemptId]. split; [done|]. split.
  - split; [done|]. by eapply lenient_here; [|apply frame_refl|].
  - intros r m' Hm'. destruct r; cbn [safe]; (split; [apply frame_refl|done]).
Qed.

Lemma safe_restoreEntries entries (Q : Post unit) :
  ∀ d own m0 m,
    lenient d own Q → frame own m0 m → coherent m →
    safe d own (restoreEntries entries) m0 m Q.
Proof.
  induction entries as [|entry rest IH]; intros d own m0 m HQ Hfr Hm.
  { by apply safe_ret. }
  cbn [restoreEntries]. unfold mbind, Prog_bind, mret, Prog_ret.
  cbn [bind safe alloc].
  set (st := new_State (e_todoistId entry) (e_checkboxState entry)).
  assert (heap (with_heap (heap m ++ [st]) m) !! length (heap m) = Some st) as Hnew.
  { cbn [heap with_heap]. rewrite lookup_app_r by done. by rewrite Nat.sub_diag. }
  eapply safe_assign_bind; [done|].
  eapply safe_assign_bind; [by eapply heap_write|].
  rewrite write_write. apply safe_modify_bind.
  set (st' := set_retryAttempts _ _).
  assert (∀ i s, heap m !! i = Some s →
            <[length (heap m) := st']> (heap m ++ [st]) !! i = Some s) as Hkeep.
  { intros i s H. pose proof (lookup_lt_Some _ _ _ H).
    rewrite list_lookup_insert_ne by lia. by rewrite lookup_app_l. }
  apply safe_bind. eapply (safe_syncState _ _ _ st').
  - intros d' own' e m1 m2 Hd Hfr2 Hm2. destruct e as [[[]|]|]; cbn [bindPost].
    + apply IH; [by eapply lenient_weaken|done..].
    + by apply HQ.
    + by apply HQ.
  - eapply frame_trans; [done|]. apply frame_preserve. exact Hkeep.
  - intros state s H. cbn in H.
    apply list_lookup_insert_Some in H as [(_ & <- & _)|(_ & H)]; [done|].
    apply lookup_app_Some in H as [H|[_ H]]; [by eapply Hm|].
    apply list_lookup_singleton_Some in H as [_ <-]. done.
  - cbn. apply list_lookup_insert_eq. rewrite length_app. cbn. lia.
  - done.
Qed.

Lemma safe_restorePendingSyncs d m0 m (Q : Post unit) :
  lenient d None Q → frame None m0 m → coherent m →
  safe d None restorePendingSyncs m0 m Q.
Proof.
  intros HQ Hfr Hm. unfold restorePendingSyncs, mbind, Prog_bind.
  eapply safe_await_other; [done|by eapply lenient_here|].
  intros m' Hm'. split.
  - by eapply lenient_detached; [|apply frame_refl|].
  - intros v. apply safe_restoreEntries; [|apply frame_refl|done].
    eapply lenient_weaken; [|done]. by left.
Qed.

Lemma safe_forCheckboxes file checkboxes (Q : Post unit) :
  ∀ lines d m0 m,
    lenient d None Q → frame None m0 m → coherent m →
    safe d None (forCheckboxes file lines checkboxes) m0 m Q.
Proof.
  induction checkboxes as [|checkbox rest IH]; intros lines d m0 m HQ Hfr Hm.
  { by apply safe_ret. }
  cbn [forCheckboxes]. unfold mbind, Prog_bind, mret, Prog_ret.
  assert (∀ d1 id checked lines1 m1 m2,
    lenient d1 None Q → frame None m1 m2 → coherent m2 →
    safe d1 None
      (Fork (updateState id checked) (forCheckboxes file lines1 rest)) m1 m2 Q)
    as Hfork.
  { intros d1 id checked lines1 m1 m2 HQ1 Hfr1 Hm1. cbn [safe].
    split; [done|]. apply safe_updateState; [|done..].
    apply (lenient_fork d1 (forCheckboxes file lines1 rest) Q).
    intros m3 Hm3. apply IH; [done|apply frame_refl|done]. }
  unfold handleCheckbox. cbv zeta.
  destruct (extractTodoistId _) as [[|c id]|].
  - destruct (Str.contains _ _); [|cbn [bind]; by apply IH].
    apply safe_bind. eapply safe_await_other; [done|cbn [bindPost]; by eapply lenient_here|].
    intros m1 Hm1. split; [cbn [bindPost]; by eapply lenient_detached; [|apply frame_refl|]|].
    intros newTask.
    eapply safe_await_other; [done|cbn [bindPost]; by eapply lenient_detached; [|apply frame_refl|]|].
    intros m2 Hm2. split; [cbn [bindPost]; by eapply lenient_detached; [|apply frame_refl|]|].
    intros project.
    eapply safe_await_other; [done|cbn [bindPost]; by eapply lenient_detached; [|apply frame_refl|]|].
    intros m3 Hm3. split; [cbn [bindPost]; by eapply lenient_detached; [|apply frame_refl|]|].
    intros _. cbn [safe bindPost bind].
    split; [done|]. apply safe_updateState; [|apply frame_refl|done].
    apply (lenient_fork true (forCheckboxes file _ rest) Q).
    intros m4 Hm4. apply IH; [|apply frame_refl|done].
    eapply lenient_weaken; [|done]. by left.
  - cbn [bind]. by apply Hfork.
  - destruct (Str.contains _ _); [|cbn [bind]; by apply IH].
    apply safe_bind. eapply safe_await_other; [done|cbn [bindPost]; by eapply lenient_here|].
    intros m1 Hm1. split; [cbn [bindPost]; by eapply lenient_detached; [|apply frame_refl|]|].
    intros newTask.
    eapply safe_await_other; [done|cbn [bindPost]; by eapply lenient_detached; [|apply frame_refl|]|].
    intros m2 Hm2. split; [cbn [bindPost]; by eapply lenient_detached; [|apply frame_refl|]|].
    intros project.
    eapply safe_await_other; [done|cbn [bindPost]; by eapply lenient_detached; [|apply frame_refl|]|].
    intros m3 Hm3. split; [cbn [bindPost]; by eapply lenient_detached; [|apply frame_refl|]|].
    intros _. cbn [safe bindPost bind].
    split; [done|]. apply safe_updateState; [|apply frame_refl|done].
    apply (lenient_fork true (forCheckboxes file _ rest) Q).
    intros m4 Hm4. apply IH; [|apply frame_refl|done].
    eapply lenient_weaken; [|done]. by left.
Qed.

Lemma safe_onChanged d file data listItems m0 m (Q : Post unit) :
  lenient d None Q → frame None m0 m → coherent m →
  safe d None (onChanged file data listItems) m0 m Q.
Proof. intros. unfold onChanged. by apply safe_forCheckboxes. Qed.

(** *** Safe programs on the event loop *)

Lemma framing_taskPost {A} : framing (@taskPost A).
Proof. by intros d own e m0 m [? ?]. Qed.

Lemma lenient_taskPost {A} d own : lenient d own (@taskPost A).
Proof. by intros d' own' e m0 m _ ? ?. Qed.

(** A call in flight stays resumable when the frame is respected by a
    task that does not hold its id. *)
Lemma resumable_frame own pd m m' :
  frame own m m' →
  (∀ id, attemptId (p_call pd) = Some id → own ≠ Some id) →
  resumable pd m → resumable pd m'.
Proof.
  unfold resumable, resumes. intros Hfr Hne.
  destruct (attemptId (p_call pd)) as [id|]; [|done].
  intros (state & Hu & Hk). exists state. split; [|done].
  eapply Hfr; [|done]. by apply Hne.
Qed.

(** What [advance] makes of a safe program: the calls it puts in flight
    are resumable, and the stretch ends in the postcondition. *)
Lemma advance_safe {A} (p : Prog A) :
  ∀ d own (Q : Post A) m0 s,
    framing Q → safe d own p m0 (mem s) Q →
    ∃ m0' new,
      frame own m0 m0'
      ∧ pool (advance p s).1 = pool s ++ new
      ∧ (∀ pd, pd ∈ new → resumable pd (mem (advance p s).1))
      ∧ match (advance p s).2 with
        | Finished a => Q d own (Completed (Some a)) m0' (mem (advance p s).1)
        | Threw => Q d own (Completed None) m0' (mem (advance p s).1)
        | Waiting c k =>
            Q d own Suspended m0' (mem (advance p s).1)
            ∧ resumes c k (mem (advance p s).1) Q
        end.
Proof.
  induction p as [A a|A|A k IH|A mp k IH|A c k IH|A child IHc k IHk];
    intros d own Q m0 s HQ Hp; cbn [safe advance] in *.
  - exists m0, []. rewrite app_nil_r. repeat split; try done.
    + apply frame_refl.
    + intros pd Hpd. by apply elem_of_nil in Hpd.
  - exists m0, []. rewrite app_nil_r. repeat split; try done.
    + apply frame_refl.
    + intros pd Hpd. by apply elem_of_nil in Hpd.
  - by apply IH.
  - by apply (IH d own Q m0 (with_mem mp s)).
  - exists m0, []. rewrite app_nil_r. destruct Hp as [Hs Hk].
    split; [apply frame_refl|]. split; [done|]. split.
    + intros pd Hpd. by apply elem_of_nil in Hpd.
    + done.
  - destruct Hp as [-> Hc].
    eapply IHc in Hc as (m0c & new1 & Hfr1 & Hpool1 & Hnew1 & Hend1).
    2:{ intros [] o e m1 m2; [by intros [? ?]|].
        intros [? _]. by apply frame_None. }
    destruct (advance child s) as [s1 o1] eqn:Hadv. cbn [fst snd] in *.
    assert (∃ pds,
      pool (register o1 s1) = pool s ++ new1 ++ pds
      ∧ mem (register o1 s1) = mem s1
      ∧ (∀ pd, pd ∈ pds → resumable pd (mem s1))
      ∧ frame None m0c (mem s1)
      ∧ safe d None k (mem s1) (mem s1) Q) as (pds & Hpool & Hmem & Hpds & Hfr2 & Hk).
    { destruct o1 as [[]| |c kc]; cbn [register pool mem].
      - exists []. rewrite app_nil_r. destruct Hend1 as [? ?].
        repeat split; try done. intros pd Hpd. by apply elem_of_nil in Hpd.
      - exists []. rewrite app_nil_r. destruct Hend1 as [? ?].
        repeat split; try done. intros pd Hpd. by apply elem_of_nil in Hpd.
      - exists [mkPending c kc]. destruct Hend1 as [[? ?] Hres].
        rewrite Hpool1, <- app_assoc. repeat split; try done.
        intros pd ->%list_elem_of_singleton.
        unfold resumable, resumes in *. cbn [p_call p_resume].
        destruct (attemptId c) as [id|].
        + destruct Hres as (state & Hu & Hres). exists state. split; [done|].
          intros r m' Hm' Hu'. eapply safe_mono_detached; [|by apply Hres].
          by intros o e m1 m2 [? ?].
        + intros r m' Hm'. eapply safe_mono_detached; [|by apply Hres].
          by intros o e m1 m2 [? ?]. }
    rewrite <- Hmem in Hk.
    eapply IHk in Hk as (m0k & new2 & Hfr3 & Hpool3 & Hnew3 & Hend3); [|done].
    rewrite Hmem in Hfr3.
    assert (frame None m0k (mem (advance k (register o1 s1)).1)) as Hfr4.
    { destruct ((advance k (register o1 s1)).2) as [a| |c kc].
      - by eapply HQ.
      - by eapply HQ.
      - destruct Hend3 as [Hend3 _]. by eapply HQ. }
    exists m0k, (new1 ++ pds ++ new2). split.
    { eapply frame_trans; [done|]. eapply frame_trans; done. }
    split. { rewrite Hpool3, Hpool. by rewrite <- !app_assoc. }
    split; [|done].
    intros pd Hpd. rewrite !elem_of_app in Hpd.
    assert (frame None (mem s1) (mem (advance k (register o1 s1)).1)) as Hfr5
      by (by eapply frame_trans).
    destruct Hpd as [Hpd|[Hpd|Hpd]]; [| |by apply Hnew3].
    + eapply resumable_frame; [exact Hfr5|done|]. by apply Hnew1.
    + eapply resumable_frame; [exact Hfr5|done|]. by apply Hpds.
Qed.

(** A task started from the event loop. *)
Lemma sound_start d own p s :
  coherent (mem s) →
  (∀ pd, pd ∈ pool s → resumable pd (mem s)
     ∧ ∀ id, attemptId (p_call pd) = Some id → own ≠ Some id) →
  safe d own p (mem s) (mem s) taskPost →
  sound (start p s).
Proof.
  intros Hm Hpool Hp. unfold start.
  eapply advance_safe in Hp as (m0' & new & Hfr & Hpl & Hnew & Hend);
    [|apply framing_taskPost].
  destruct (advance p s) as [s1 o1]. cbn [fst snd] in *.
  assert (frame own (mem s) (mem s1) ∧ coherent (mem s1)) as [Hfr1 Hm1].
  { destruct o1 as [a| |c k].
    - destruct Hend as [? ?]. split; [by eapply frame_trans|done].
    - destruct Hend as [? ?]. split; [by eapply frame_trans|done].
    - destruct Hend as [[? ?] _]. split; [by eapply frame_trans|done]. }
  assert (∀ pd, pd ∈ pool s1 → resumable pd (mem s1)) as Hold.
  { intros pd. rewrite Hpl, elem_of_app. intros [Hpd|Hpd]; [|by apply Hnew].
    destruct (Hpool pd Hpd) as [Hres Hne]. by eapply resumable_frame. }
  destruct o1 as [a| |c k]; cbn [register]; split; cbn [mem pool]; try done.
  intros pd. rewrite elem_of_app, list_elem_of_singleton.
  intros [Hpd| ->]; [by apply Hold|]. by destruct Hend as [_ ?].
Qed.

Lemma sound_step e s : sound s → noOverlap s → sound (step e s).
Proof.
  intros [Hm Hpool] Hno.
  assert (∀ pd, pd ∈ pool s → resumable pd (mem s)
     ∧ ∀ id, attemptId (p_call pd) = Some id → None ≠ Some id) as Hpool'.
  { intros pd Hpd. split; [by apply Hpool|done]. }
  destruct e as [file data listItems|id checked| |i o|i|]; cbn [step].
  - apply (sound_start false None); [done..|].
    apply safe_onChanged; [apply lenient_taskPost|apply frame_refl|done].
  - apply (sound_start false None); [done..|].
    apply safe_updateState; [apply lenient_taskPost|apply frame_refl|done].
  - apply (sound_start false None); [done..|].
    apply safe_restorePendingSyncs; [apply lenient_taskPost|apply frame_refl|done].
  - destruct (pool s !! i) as [pd|] eqn:Hi; [|done].
    pose proof (Hpool pd (list_elem_of_lookup_2 _ _ _ Hi)) as Hres.
    apply take_drop_middle in Hi as Hsplit.
    unfold noOverlap in Hno. rewrite <- Hsplit in Hno.
    rewrite omap_app in Hno. cbn [omap] in Hno.
    assert (delete i (pool s) = take i (pool s) ++ drop (S i) (pool s)) as Hdel.
    { apply delete_take_drop. }
    unfold resumable, resumes in Hres.
    destruct (attemptId (p_call pd)) as [id|] eqn:Hid.
    + destruct Hres as (state & Hu & Hk).
      apply (sound_start true (Some id)); cbn [mem pool with_pool]; [done| |by apply Hk].
      intros pd' Hpd'. split.
      { apply Hpool. rewrite <- Hsplit. rewrite Hdel in Hpd'.
        rewrite !elem_of_app in *. rewrite elem_of_cons. tauto. }
      intros id' Hid' [= ->]. rewrite Hdel in Hpd'.
      cbn [omap list_omap] in Hno. rewrite Hid in Hno.
      apply NoDup_app in Hno as (_ & Hno1 & Hno2).
      apply NoDup_cons in Hno2 as [Hno2 _].
      apply elem_of_app in Hpd' as [Hpd'|Hpd'].
      * eapply Hno1; [|left]. apply list_elem_of_omap. eauto.
      * apply Hno2. apply list_elem_of_omap. eauto.
    + apply (sound_start true None); cbn [mem pool with_pool]; [done| |by apply Hres].
      intros pd' Hpd'. split; [|done].
      apply Hpool. rewrite <- Hsplit. rewrite Hdel in Hpd'.
      rewrite !elem_of_app in *. rewrite elem_of_cons. tauto.
  - destruct (timers (mem s) !! i) as [[delay state]|]; [|done].
    apply (sound_start false None); cbn [mem pool with_mem].
    + by eapply coherent_same_heap.
    + intros pd Hpd. split; [|done].
      eapply (resumable_frame None); [|done|by apply Hpool].
      by apply frame_same_heap.
    + apply safe_timerCallback; [apply lenient_taskPost|apply frame_refl|].
      by eapply coherent_same_heap.
  - apply (sound_start false None); [done..|].
    apply safe_savePendingSyncs; [apply lenient_taskPost|apply frame_refl|done].
Qed.

Lemma sound_run es : ∀ s, sound s → disciplined es s → sound (run es s).
Proof.
  induction es as [|e es IH]; intros s Hs Hd; [done|].
  cbn [run foldl]. destruct Hd as [Hno Hd]. apply IH; [|done].
  by apply sound_step.
Qed.

Lemma sound_initial st0 : sound (initial st0).
Proof.
  split.
  - intros state st H. cbn in H. by rewrite lookup_nil in H.
  - intros pd Hpd. by apply elem_of_nil in Hpd.
Qed.

(** C8, as the code has it: on the event loop, from the empty store, as
    long as no two sync attempts for the same task id are in flight at the
    same time, every entry of the store with synced = true has
    retryAttempts = 0, whenever the loop is idle. *)
Theorem synced_implies_no_retries (st0 : MyPluginSettings)
    (es : list Stimulus) (id : jstring) (state : nat) (st : State) :
  disciplined es (initial st0) →
  taskStates (mem (run es (initial st0))) !! id = Some state →
  heap (mem (run es (initial st0))) !! state = Some st →
  synced st = true →
  retryAttempts st = 0%N.
Proof.
  intros Hd _.
  destruct (sound_run es (initial st0) (sound_initial st0) Hd) as [Hm _].
  apply Hm.
Qed.

Lemma synced_implies_no_retries_witness :
  let o := serves (healthy (Some (task123 None)) None) in
  let es := [Observe (js "123") false; Observe (js "456") false;
             Observe (js "123") true; Observe (js "456") true;
             Settle 0 rejects; Settle 0 o; Timeout 0; Settle 0 o;
             Settle 0 o; Settle 0 o] in
  disciplined es (initial key)
  ∧ taskStates (mem (run es (initial key))) !! js "123" = Some 0%nat
  ∧ heap (mem (run es (initial key))) !! 0%nat
    = Some (mkState (js "123") true true 0)
  ∧ retryAttempts (mkState (js "123") true true 0) = 0%N.
Proof.
  intros o es.
  assert (disciplined es (initial key)) as Hd.
  { repeat split; unfold noOverlap; apply (bool_decide_unpack _);
      vm_compute; exact I. }
  split; [exact Hd|]. split; [reflexivity|]. split; [reflexivity|].
  exact (synced_implies_no_retries key es (js "123") 0
           (mkState (js "123") true true 0) Hd eq_refl eq_refl eq_refl).
Defined.

(** The claim of C8 fails when attempts overlap: the document holds the
    tracked task "123"; its box is ticked (an attempt starts), the document
    changes again while the fetch is in flight (a second attempt starts on
    the same state), the first attempt succeeds, then the fetch of the
    second one is rejected. The state ends with synced = true and
    retryAttempts = 1, and the retry timer leaves it so. *)
Lemma overlapping_attempts_break_invariant :
  let o := serves (healthy (Some (task123 None)) None) in
  let box := Some [mkItem 0 (Some (js "x"))] in
  heap (mem (run [Changed (js "todo.md") (js "- [ ] Pay rent (*123*)")
                    (Some [mkItem 0 (Some (js " "))]);
                  Changed (js "todo.md") (js "- [x] Pay rent (*123*)") box;
                  Changed (js "todo.md") (js "- [x] Pay rent today (*123*)") box;
                  Settle 0 o; Settle 1 o; Settle 0 rejects; Timeout 0]
               (initial key)))
  = [mkState (js "123") true true 1].
Proof. vm_compute. reflexivity. Qed.

(** That run is not one of those the invariant is proved for: after the
    third change two attempts for "123" are in flight. *)
Lemma overlapping_run_not_disciplined :
  let o := serves (healthy (Some (task123 None)) None) in
  let box := Some [mkItem 0 (Some (js "x"))] in
  ¬ disciplined [Changed (js "todo.md") (js "- [ ] Pay rent (*123*)")
                   (Some [mkItem 0 (Some (js " "))]);
                 Changed (js "todo.md") (js "- [x] Pay rent (*123*)") box;
                 Changed (js "todo.md") (js "- [x] Pay rent today (*123*)") box;
                 Settle 0 o; Settle 1 o; Settle 0 rejects; Timeout 0]
      (initial key).
Proof.
  intros o box (_ & _ & _ & H & _). unfold noOverlap in H.
  apply (bool_decide_pack _) in H. vm_compute in H. exact H.
Qed.

(** ** The retry scenario *)

Lemma attemptOutcome_ext ω n st st' :
  todoistId st = todoistId st' → checkboxState st = checkboxState st' →
  attemptOutcome ω n st = attemptOutcome ω n st'.
Proof.
  intros Hid Hcb. unfold attemptOutcome, mutation. by rewrite Hid, Hcb.
Qed.

Lemma attemptCalls_ext ω n st st' :
  todoistId st = todoistId st' → checkboxState st = checkboxState st' →
  attemptCalls ω n st = attemptCalls ω n st'.
Proof.
  intros Hid Hcb. unfold attemptCalls, mutation. by rewrite Hid, Hcb.
Qed.

(** Firing the only timer starts the next attempt on an unsynced state. *)
Lemma perform_retry ω s state st delay :
  timers (mem s) = [(delay, state)] →
  heap (mem s) !! state = Some st → synced st = false →
  perform ω s (DoTimeout 0)
  = mkSys (attemptMem (attemptOutcome ω (length (history s)) st) state st
             (with_timers [] (mem s)))
      (pool s) (history s ++ attemptCalls ω (length (history s)) st) (unhandled s).
Proof.
  intros Ht H Hs. cbn [perform]. rewrite Ht. cbn [lookup list_lookup delete list_delete].
  unfold execTask. rewrite exec_timerCallback. cbn [mem with_mem with_timers heap].
  rewrite H, Hs. by rewrite (execTask_syncState _ _ _ st).
Qed.

(** C1, as the code has it: a tracked task whose box changes is synced;
    when that attempt and the two retries fail and the third retry
    succeeds, retryAttempts reads 1, 2, 3 and then 0, and the retries are
    scheduled 10000 ms, 20000 ms and 40000 ms after the failures (the
    count is incremented before the delay is computed). *)
Theorem retry_scenario (ω : nat → Oracle) (s : Sys) (id : jstring)
    (state : nat) (st : State) (checked : bool) :
  let st0 := mkState (todoistId st) checked false 0 in
  let s1 := perform ω s (DoObserve id checked) in
  let s2 := perform ω s1 (DoTimeout 0) in
  let s3 := perform ω s2 (DoTimeout 0) in
  let s4 := perform ω s3 (DoTimeout 0) in
  taskStates (mem s) !! id = Some state →
  heap (mem s) !! state = Some st →
  checkboxState st ≠ checked →
  timers (mem s) = [] →
  attemptOutcome ω (length (history s)) st0 = Failed →
  attemptOutcome ω (length (history s1)) st0 = Failed →
  attemptOutcome ω (length (history s2)) st0 = Failed →
  attemptOutcome ω (length (history s3)) st0 = Succeeded →
  (heap (mem s1) !! state = Some (mkState (todoistId st) checked false 1)
   ∧ timers (mem s1) = [(10000%Z, state)])
  ∧ (heap (mem s2) !! state = Some (mkState (todoistId st) checked false 2)
     ∧ timers (mem s2) = [(20000%Z, state)])
  ∧ (heap (mem s3) !! state = Some (mkState (todoistId st) checked false 3)
     ∧ timers (mem s3) = [(40000%Z, state)])
  ∧ (heap (mem s4) !! state = Some (mkState (todoistId st) checked true 0)
     ∧ timers (mem s4) = []).
Proof.
  intros st0 s1 s2 s3 s4 Hid H Hne Ht F1 F2 F3 F4.
  assert (state < length (heap (mem s)))%nat as Hlt by (by eapply lookup_lt_Some).
  assert (s1 = mkSys (markFailed state st0 (on_mem (write state st0) s).(mem))
                 (pool s) (history s ++ attemptCalls ω (length (history s)) st0)
                 (unhandled s)) as E1.
  { unfold s1. cbn [perform]. unfold execTask.
    rewrite (exec_updateState_changed _ _ _ _ _ _ Hid H Hne).
    erewrite exec_syncState by (by eapply heap_write).
    cbn [on_mem with_mem history]. fold st0. by rewrite F1. }
  assert (heap (mem s1) !! state = Some (mkState (todoistId st) checked false 1)
          ∧ timers (mem s1) = [(10000%Z, state)]) as [H1 T1].
  { rewrite E1. cbn. rewrite Ht.
    rewrite list_lookup_insert_eq by (by rewrite length_insert). done. }
  assert (s2 = mkSys (markFailed state (mkState (todoistId st) checked false 1)
                        (with_timers [] (mem s1)))
                 (pool s1) (history s1 ++ attemptCalls ω (length (history s1)) st0)
                 (unhandled s1)) as E2.
  { unfold s2. rewrite (perform_retry _ _ _ _ _ T1 H1 eq_refl).
    rewrite (attemptOutcome_ext _ _ _ st0), F2 by done.
    by rewrite (attemptCalls_ext _ _ _ st0). }
  assert (heap (mem s2) !! state = Some (mkState (todoistId st) checked false 2)
          ∧ timers (mem s2) = [(20000%Z, state)]) as [H2 T2].
  { rewrite E2. cbn.
    rewrite list_lookup_insert_eq by (by eapply lookup_lt_Some). done. }
  assert (s3 = mkSys (markFailed state (mkState (todoistId st) checked false 2)
                        (with_timers [] (mem s2)))
                 (pool s2) (history s2 ++ attemptCalls ω (length (history s2)) st0)
                 (unhandled s2)) as E3.
  { unfold s3. rewrite (perform_retry _ _ _ _ _ T2 H2 eq_refl).
    rewrite (attemptOutcome_ext _ _ _ st0), F3 by done.
    by rewrite (attemptCalls_ext _ _ _ st0). }
  assert (heap (mem s3) !! state = Some (mkState (todoistId st) checked false 3)
          ∧ timers (mem s3) = [(40000%Z, state)]) as [H3 T3].
  { rewrite E3. cbn.
    rewrite list_lookup_insert_eq by (by eapply lookup_lt_Some). done. }
  assert (heap (mem s4) !! state = Some (mkState (todoistId st) checked true 0)
          ∧ timers (mem s4) = []) as [H4 T4].
  { unfold s4. rewrite (perform_retry _ _ _ _ _ T3 H3 eq_refl).
    rewrite (attemptOutcome_ext _ _ _ st0), F4 by done. cbn.
    rewrite list_lookup_insert_eq by (by eapply lookup_lt_Some). done. }
  done.
Qed.

Lemma retry_scenario_witness :
  let ω := λ n : nat, if (n <? 3)%nat then rejects
                      else serves (healthy (Some (task123 None)) None) in
  let s := perform ω (initial key) (DoObserve (js "123") false) in
  let s1 := perform ω s (DoObserve (js "123") true) in
  let s2 := perform ω s1 (DoTimeout 0) in
  let s3 := perform ω s2 (DoTimeout 0) in
  let s4 := perform ω s3 (DoTimeout 0) in
  (heap (mem s1) !! 0%nat = Some (mkState (js "123") true false 1)
   ∧ timers (mem s1) = [(10000%Z, 0%nat)])
  ∧ (heap (mem s2) !! 0%nat = Some (mkState (js "123") true false 2)
     ∧ timers (mem s2) = [(20000%Z, 0%nat)])
  ∧ (heap (mem s3) !! 0%nat = Some (mkState (js "123") true false 3)
     ∧ timers (mem s3) = [(40000%Z, 0%nat)])
  ∧ (heap (mem s4) !! 0%nat = Some (mkState (js "123") true true 0)
     ∧ timers (mem s4) = []).
Proof.
  intros ω s.
  exact (retry_scenario ω s (js "123") 0 (mkState (js "123") false true 0) true
           eq_refl eq_refl ltac:(discriminate) eq_refl
           eq_refl eq_refl eq_refl eq_refl).
Defined.

(** The delays claimed by C1 are not the ones scheduled: the tracked task
    "123" gets its box ticked and every call is rejected three times; the
    timers set after the first, second and third failure wait 10000 ms,
    20000 ms and 40000 ms (the notices announce 10 s, 20 s and 40 s), not
    5000 ms, 10000 ms and 20000 ms; the fourth attempt succeeds and leaves
    retryAttempts = 0. *)
Lemma retry_delays_observed :
  let o := serves (healthy (Some (task123 None)) None) in
  let fail1 := [Observe (js "123") false; Observe (js "123") true; Settle 0 rejects] in
  let fail2 := fail1 ++ [Timeout 0; Settle 0 rejects] in
  let fail3 := fail2 ++ [Timeout 0; Settle 0 rejects] in
  let done4 := fail3 ++ [Timeout 0; Settle 0 o; Settle 0 o] in
  (λ es, timers (mem (run es (initial key)))) <$> [fail1; fail2; fail3]
  = [[(10000%Z, 0%nat)]; [(20000%Z, 0%nat)]; [(40000%Z, 0%nat)]]
  ∧ (λ es, timers (mem (run es (initial key)))) <$> [fail1; fail2; fail3]
    ≠ [[(5000%Z, 0%nat)]; [(10000%Z, 0%nat)]; [(20000%Z, 0%nat)]]
  ∧ (λ es, retryAttempts <$> heap (mem (run es (initial key))))
      <$> [fail1; fail2; fail3; done4]
    = [[1%N]; [2%N]; [3%N]; [0%N]]
  ∧ notices (mem (run done4 (initial key)))
    = [(1%N, 10%Z); (2%N, 20%Z); (3%N, 40%Z)].
Proof. vm_compute. repeat split; (reflexivity || discriminate). Qed.

(** ** One state object per task id *)

Lemma filed_keyed m : filed m → keyed m.
Proof.
  intros Hf id state st Hid Hst. destruct (Hf _ _ Hid) as (st' & Hst' & <-).
  congruence.
Qed.

Lemma filed_write state st st' m :
  heap m !! state = Some st → todoistId st' = todoistId st →
  filed m → filed (write state st' m).
Proof.
  intros Hst Hid Hf id state0 Hts. destruct (Hf _ _ Hts) as (st0 & Hst0 & <-).
  cbn. destruct (decide (state = state0)) as [<-|Hne].
  - exists st'. rewrite list_lookup_insert_eq by (by eapply lookup_lt_Some).
    split; [done|]. congruence.
  - exists st0. by rewrite list_lookup_insert_ne.
Qed.

Lemma filed_attemptMem a state st m :
  heap m !! state = Some st → filed m → filed (attemptMem a state st m).
Proof.
  intros Hst Hf. destruct a; [|done|].
  - intros id state0 Hts. cbn in Hts.
    destruct (filed_write state st (set_retryAttempts (retryAttempts st + 1) st) m
                Hst eq_refl Hf id state0 Hts) as (st0 & H0 & <-).
    by exists st0.
  - by eapply filed_write.
Qed.

Lemma filed_new id st m :
  todoistId st = id → filed m →
  filed (with_taskStates (<[id := length (heap m)]> (taskStates m))
           (with_heap (heap m ++ [st]) m)).
Proof.
  intros Hid Hf id0 state0 Hts. cbn in Hts |- *.
  apply lookup_insert_Some in Hts as [(<- & <-)|(Hne & Hts)].
  - exists st. by rewrite lookup_app_r, Nat.sub_diag.
  - destruct (Hf _ _ Hts) as (st0 & Hst0 & <-). exists st0.
    by rewrite lookup_app_l by (by eapply lookup_lt_Some).
Qed.

Lemma filed_syncState ω state s st :
  heap (mem s) !! state = Some st →
  filed (mem s) → filed (mem (execTask ω (syncState state) s)).
Proof.
  intros H Hf. rewrite (execTask_syncState _ _ _ _ H). cbn [mem].
  by apply filed_attemptMem.
Qed.

Lemma filed_restoreEntries ω entries s :
  filed (mem s) → filed (mem (exec ω (restoreEntries entries) s).1).
Proof.
  revert s. induction entries as [|entry rest IH]; intros s Hf; [done|].
  rewrite exec_restoreEntries_cons. apply IH.
  eapply filed_syncState with (st := restored entry).
  - cbn. by rewrite lookup_app_r, Nat.sub_diag.
  - cbn [on_mem mem with_mem]. by apply filed_new.
Qed.

Lemma filed_perform ω s op :
  filed (mem s) → filed (mem (perform ω s op)).
Proof.
  intros Hf. destruct op as [id checked| |i|]; cbn [perform].
  - rewrite mem_execTask.
    destruct (taskStates (mem s) !! id) as [state|] eqn:Hid.
    + destruct (heap (mem s) !! state) as [st|] eqn:H.
      * destruct (decide (checkboxState st = checked)) as [Hsame|Hne].
        -- rewrite (exec_updateState_same _ _ _ _ _ _ Hid H Hsame).
           destruct (synced st); [done|].
           rewrite <- mem_execTask. by eapply filed_syncState.
        -- rewrite (exec_updateState_changed _ _ _ _ _ _ Hid H Hne).
           rewrite <- mem_execTask.
           eapply filed_syncState; [by eapply heap_write|].
           by eapply filed_write.
      * by rewrite (exec_updateState_dangling _ _ _ _ _ Hid H).
    + destruct (inherited id) eqn:Hin.
      { rewrite (exec_updateState_inherited _ _ _ _ Hid Hin).
        destruct (exec_aside ω (updateStateBuiltin id checked) s
                    (aside_updateStateBuiltin _ _ _)) as (Hh & Hts & _).
        intros id' state. rewrite Hh, Hts. apply Hf. }
      rewrite (exec_updateState_new _ _ _ _ Hid Hin). cbn [fst on_mem mem with_mem].
      by apply filed_new.
  - rewrite mem_execTask. unfold restorePendingSyncs, mbind, Prog_bind.
    exec_bind. rewrite (exec_await ω LoadData).
    destruct (ω _ LoadData) as [data|]; [|done].
    by apply filed_restoreEntries.
  - destruct (timers (mem s) !! i) as [[delay state]|]; [|done].
    rewrite mem_execTask, exec_timerCallback. cbn [mem with_mem with_timers heap].
    destruct (heap (mem s) !! state) as [st|] eqn:H; [|done].
    destruct (synced st); [done|]. cbn [fst].
    by eapply (filed_syncState ω state (with_mem _ s)).
  - unfold onunload. by rewrite mem_execTask, exec_savePendingSyncs.
Qed.

(** From the empty store, operations without overlap keep one state
    object per task id, filed under its own id: the stores they reach
    satisfy the hypothesis of the round trip. *)
Lemma reachable_keyed (ω : nat → Oracle) (st0 : MyPluginSettings) (ops : list Op) :
  keyed (mem (foldl (perform ω) (initial st0) ops)).
Proof.
  apply filed_keyed.
  induction ops as [|op ops IH] using rev_ind; [by intros ? ? [=]|].
  rewrite foldl_app. cbn [foldl]. by apply filed_perform.
Qed.

(** ** Snapshot and restore *)

Lemma heap_attemptMem a state st m :
  heap m !! state = Some st →
  heap (attemptMem a state st m) !! state = Some (attemptState a st).
Proof.
  intros H. pose proof (lookup_lt_Some _ _ _ H).
  destruct a; cbn; [|done|]; by rewrite list_lookup_insert_eq.
Qed.

Lemma heap_attemptMem_ne a state st m state' :
  state' ≠ state →
  heap (attemptMem a state st m) !! state' = heap m !! state'.
Proof.
  intros Hne. destruct a; cbn; [|done|]; by rewrite list_lookup_insert_ne.
Qed.

Lemma taskStates_attemptMem a state st m :
  taskStates (attemptMem a state st m) = taskStates m.
Proof. by destruct a. Qed.

(** Restoring further entries leaves an entry filed under another id, and
    its state object, as they are. *)
Lemma restoreEntries_preserves ω entries s id state st :
  id ∉ e_todoistId <$> entries →
  taskStates (mem s) !! id = Some state →
  heap (mem s) !! state = Some st →
  let s' := (exec ω (restoreEntries entries) s).1 in
  taskStates (mem s') !! id = Some state ∧ heap (mem s') !! state = Some st.
Proof.
  revert s. induction entries as [|entry rest IH]; intros s Hid Hts Hh; [done|].
  rewrite exec_restoreEntries_cons.
  rewrite fmap_cons, not_elem_of_cons in Hid. destruct Hid as [Hne Hid].
  pose proof (lookup_lt_Some _ _ _ Hh) as Hlt.
  apply IH; [done|..].
  - erewrite execTask_syncState by (cbn; by rewrite lookup_app_r, Nat.sub_diag).
    cbn [mem]. rewrite taskStates_attemptMem. cbn.
    by rewrite lookup_insert_ne.
  - erewrite execTask_syncState by (cbn; by rewrite lookup_app_r, Nat.sub_diag).
    cbn [mem]. rewrite heap_attemptMem_ne by lia. cbn.
    by rewrite lookup_app_l.
Qed.

(** Every restored entry ends up in the store as the state its sync
    attempt leaves from it; the attempt is decided by the replies to the
    calls issued once the attempts of the entries before it are over. *)
Lemma restoreEntries_restores_at ω entries :
  ∀ s i entry,
    NoDup (e_todoistId <$> entries) →
    entries !! i = Some entry →
    let s' := (exec ω (restoreEntries entries) s).1 in
    let n := issuedBefore ω (length (history s)) (take i entries) in
    ∃ state,
      taskStates (mem s') !! e_todoistId entry = Some state
      ∧ heap (mem s') !! state
        = Some (attemptState (attemptOutcome ω n (restored entry)) (restored entry)).
Proof.
  induction entries as [|e rest IH]; intros s i entry Hnd Hi; [done|].
  rewrite fmap_cons, NoDup_cons in Hnd. destruct Hnd as [Hfresh Hnd].
  rewrite exec_restoreEntries_cons.
  set (state := length (heap (mem s))).
  set (s1 := on_mem _ s).
  assert (heap (mem s1) !! state = Some (restored e)) as H1.
  { cbn. by rewrite lookup_app_r, Nat.sub_diag. }
  destruct i as [|i].
  - injection Hi as ->. cbn [take issuedBefore]. exists state.
    apply restoreEntries_preserves; [done|..].
    + rewrite (execTask_syncState _ _ _ _ H1). cbn [mem].
      rewrite taskStates_attemptMem. cbn. by rewrite lookup_insert_eq.
    + rewrite (execTask_syncState _ _ _ _ H1). cbn [mem].
      by apply heap_attemptMem.
  - cbn [lookup list_lookup] in Hi. cbn [take issuedBefore].
    destruct (IH (execTask ω (syncState state) s1) i entry Hnd Hi) as (state' & Hts & Hh).
    exists state'. split; [done|]. rewrite Hh. do 3 f_equal.
    rewrite (execTask_syncState _ _ _ _ H1). cbn [history]. by rewrite length_app.
Qed.

Lemma advance_syncState_fetch state s st :
  heap (mem s) !! state = Some st →
  ∃ k, advance (syncState state) s = (s, Waiting (GetTask (todoistId st)) k).
Proof.
  intros H. unfold syncState, mbind, Prog_bind.
  rewrite advance_try_catch. advance_bind.
  rewrite (advance_readState _ _ _ H). cbv beta iota.
  advance_bind. cbn [await advance]. eauto.
Qed.

(** When the loop of the restore reaches an entry: a state object built
    from the entry is filed under its id, and the fetch of its attempt is
    in flight. *)
Lemma start_restoreEntries_cons entry rest s :
  let state := length (heap (mem s)) in
  let s1 := on_mem (λ m, with_taskStates (<[e_todoistId entry := state]> (taskStates m))
                           (with_heap (heap m ++ [restored entry]) m)) s in
  ∃ k, start (restoreEntries (entry :: rest)) s
       = mkSys (mem s1) (pool s ++ [mkPending (GetTask (e_todoistId entry)) k])
           (history s ++ [GetTask (e_todoistId entry)]) (unhandled s).
Proof.
  intros state s1.
  assert (heap (mem s1) !! state = Some (restored entry)) as H1.
  { cbn. rewrite lookup_app_r by done. by rewrite Nat.sub_diag. }
  destruct (advance_syncState_fetch state s1 _ H1) as (k & Hk).
  exists (λ r, bind (k r) (λ _, restoreEntries rest)).
  unfold start.
  assert (advance (restoreEntries (entry :: rest)) s
          = advance (bind (syncState state) (λ _, restoreEntries rest)) s1) as ->.
  { cbn [restoreEntries]. unfold mbind, Prog_bind, mret, Prog_ret.
    cbn [alloc bind advance mem with_mem]. advance_bind.
    set (s0 := with_mem (with_heap (heap (mem s)
                 ++ [new_State (e_todoistId entry) (e_checkboxState entry)]) (mem s)) s).
    assert (heap (mem s0) !! state
            = Some (new_State (e_todoistId entry) (e_checkboxState entry))) as H0.
    { cbn. by rewrite lookup_app_r, Nat.sub_diag. }
    rewrite (advance_assign _ _ _ _ H0). cbv beta iota.
    advance_bind. rewrite (advance_assign_again _ _ _ _ _ H0). cbv beta iota.
    advance_bind. cbn [modify advance mem with_mem on_mem].
    replace (with_mem _ _) with s1; [done|].
    unfold s1, s0, on_mem, write, with_mem, with_taskStates, with_heap.
    cbn [mem heap taskStates settings timers notices pool history unhandled].
    rewrite insert_app_r_alt, Nat.sub_diag by done. reflexivity. }
  rewrite advance_bind, Hk. done.
Qed.

Lemma NoDup_pending_ids (heap0 : list State) (l : list (jstring * nat)) :
  NoDup l.*1 →
  (∀ id state st, (id, state) ∈ l → heap0 !! state = Some st → todoistId st = id) →
  NoDup (e_todoistId <$>
           (persisted <$> filter (λ s, synced s = false)
                            (omap (λ kr : jstring * nat, heap0 !! kr.2) l))).
Proof.
  induction l as [|[id state] l IH]; intros Hnd Hkey; [constructor|].
  rewrite fmap_cons, NoDup_cons in Hnd. destruct Hnd as [Hfresh Hnd].
  assert (NoDup (e_todoistId <$>
           (persisted <$> filter (λ s, synced s = false)
                            (omap (λ kr : jstring * nat, heap0 !! kr.2) l)))) as IH'.
  { apply IH; [done|]. intros ? ? ? ?. apply Hkey. by right. }
  cbn [omap list_omap snd]. destruct (heap0 !! state) as [st|] eqn:Hst; [|done].
  rewrite filter_cons. destruct (decide (synced st = false)); [|done].
  rewrite !fmap_cons. apply NoDup_cons. split; [|done].
  cbn [persisted e_todoistId].
  rewrite (Hkey id state st) by (done || by left).
  intros Hin. apply Hfresh.
  apply list_elem_of_fmap in Hin as (e' & He' & Hin).
  apply list_elem_of_fmap in Hin as (st' & -> & Hin). rewrite He'.
  apply list_elem_of_filter in Hin as [_ Hin].
  apply list_elem_of_omap in Hin as ([id' state'] & Hin & Hst').
  cbn in Hst' |- *. rewrite (Hkey id' state' st') by (done || by right).
  apply list_elem_of_fmap. by exists (id', state').
Qed.

Lemma NoDup_pendingSyncs m :
  keyed m → NoDup (e_todoistId <$> pendingSyncs m).
Proof.
  intros Hkey. apply NoDup_pending_ids; [apply NoDup_fst_map_to_list|].
  intros id state st Hin. apply elem_of_map_to_list in Hin. by apply Hkey.
Qed.

(** C5, as the code has it: the snapshot holds exactly the entries with
    synced = false, with their taskId, checkboxState and retryAttempts.
    Restoring it (the loaded list [entries] is the snapshot, in the order
    [Object.values] gave it) takes the entries one at a time: a state
    object built from the entry, with the same three values and
    synced = false, is filed under the id, one sync attempt is started on
    it, and the restore waits for that attempt before the next entry. When
    nothing else runs during the restore (every call settles at once, so
    no timer fires and nothing is observed in between), what the store
    holds for the id afterwards is the state that attempt leaves: the same
    taskId and checkboxState, and retryAttempts unchanged if the remote
    task is gone, one more if the attempt failed, 0 with synced = true if
    it succeeded; the attempt is the one decided by the replies that follow
    the attempts of the entries before it in the list. *)
Theorem restore_of_snapshot (ω : nat → Oracle) (m : Mem) (s : Sys)
    (id : jstring) (state : nat) (st : State)
    (loaded : LoadedData) (entries : list PersistedSyncEntry) :
  keyed m →
  taskStates m !! id = Some state →
  heap m !! state = Some st →
  synced st = false →
  entries ≡ₚ pendingSyncs m →
  l_pendingSyncs loaded = Some entries →
  ω (length (history s)) LoadData = Fulfilled (Some loaded) →
  (∀ e, e ∈ pendingSyncs m ↔
     ∃ id1 state1 st1, taskStates m !! id1 = Some state1
       ∧ heap m !! state1 = Some st1 ∧ synced st1 = false
       ∧ e = mkEntry (todoistId st1) (checkboxState st1) (retryAttempts st1))
  ∧ restored (persisted st) = st
  ∧ (∀ (s1 : Sys) (rest : list PersistedSyncEntry),
       ∃ k, start (restoreEntries (persisted st :: rest)) s1
            = mkSys (with_taskStates (<[id := length (heap (mem s1))]> (taskStates (mem s1)))
                       (with_heap (heap (mem s1) ++ [st]) (mem s1)))
                (pool s1 ++ [mkPending (GetTask id) k])
                (history s1 ++ [GetTask id]) (unhandled s1))
  ∧ ∃ i state',
      entries !! i = Some (persisted st)
      ∧ let s' := perform ω s DoRestore in
        let n := issuedBefore ω (S (length (history s))) (take i entries) in
        taskStates (mem s') !! id = Some state'
        ∧ heap (mem s') !! state' = Some (attemptState (attemptOutcome ω n st) st).
Proof.
  intros Hkey Hid Hst Hs Hperm Hl Hload.
  split; [apply elem_of_pendingSyncs|].
  assert (restored (persisted st) = st) as Hsame.
  { destruct st as [i c y r]. cbn in Hs. by subst y. }
  assert (e_todoistId (persisted st) = id) as Hpid.
  { cbn [persisted e_todoistId]. by apply (Hkey _ _ _ Hid Hst). }
  split; [done|]. split.
  { intros s1 rest.
    destruct (start_restoreEntries_cons (persisted st) rest s1) as (k & Hk).
    exists k. rewrite Hk. by rewrite Hsame, Hpid. }
  assert (persisted st ∈ entries) as Hin.
  { rewrite Hperm. apply elem_of_pendingSyncs. eauto 10. }
  assert (NoDup (e_todoistId <$> entries)) as Hnd.
  { rewrite Hperm. by apply NoDup_pendingSyncs. }
  apply list_elem_of_lookup_1 in Hin as [i Hi].
  destruct (restoreEntries_restores_at ω entries (logged LoadData s) i
              (persisted st) Hnd Hi)
    as (state' & Hts & Hh).
  exists i, state'. split; [done|]. cbv zeta.
  cbn [perform]. rewrite mem_execTask.
  unfold restorePendingSyncs, mbind, Prog_bind.
  exec_bind. rewrite (exec_await ω LoadData), Hload, Hl.
  cbn [default from_option Datatypes.id].
  rewrite Hsame, Hpid in *.
  cbn [logged history] in Hh. rewrite length_app in Hh. cbn [length] in Hh.
  rewrite Nat.add_1_r in Hh. done.
Qed.

Lemma keyed_singleton (st : State) (sts : MyPluginSettings) :
  keyed (mkMem [st] {[ todoistId st := 0%nat ]} sts [] []).
Proof.
  intros id state st' Hid Hst. cbn in Hid, Hst.
  apply lookup_singleton_Some in Hid as [<- <-]. cbn in Hst. congruence.
Qed.

Lemma restore_of_snapshot_witness :
  let st := mkState (js "123") true false 2 in
  let m := mkMem [st] {[ js "123" := 0%nat ]} key [] [] in
  let ω := λ _ : nat,
    serves (healthy (Some (task123 None)) (Some (reloaded (savedData m)))) in
  (∀ e, e ∈ pendingSyncs m ↔
     ∃ id1 state1 st1, taskStates m !! id1 = Some state1
       ∧ heap m !! state1 = Some st1 ∧ synced st1 = false
       ∧ e = mkEntry (todoistId st1) (checkboxState st1) (retryAttempts st1))
  ∧ restored (persisted st) = st
  ∧ (∀ (s1 : Sys) (rest : list PersistedSyncEntry),
       ∃ k, start (restoreEntries (persisted st :: rest)) s1
            = mkSys (with_taskStates (<[js "123" := length (heap (mem s1))]>
                                        (taskStates (mem s1)))
                       (with_heap (heap (mem s1) ++ [st]) (mem s1)))
                (pool s1 ++ [mkPending (GetTask (js "123")) k])
                (history s1 ++ [GetTask (js "123")]) (unhandled s1))
  ∧ ∃ i state',
      [persisted st] !! i = Some (persisted st)
      ∧ let s' := perform ω (initial key) DoRestore in
        let n := issuedBefore ω (S (length (history (initial key))))
                   (take i [persisted st]) in
        taskStates (mem s') !! js "123" = Some state'
        ∧ heap (mem s') !! state' = Some (attemptState (attemptOutcome ω n st) st).
Proof.
  intros st m ω.
  assert ([persisted st] ≡ₚ pendingSyncs m) as Hperm by (vm_compute; reflexivity).
  exact (restore_of_snapshot ω m (initial key) (js "123") 0 st
           (reloaded (savedData m)) [persisted st]
           (keyed_singleton st key) eq_refl eq_refl eq_refl Hperm eq_refl eq_refl).
Defined.

(** The claim of C5 that retryAttempts round-trips fails: the store holds
    the task "123" unsynced after two failed attempts; the snapshot keeps
    the count 2, but the restore runs a sync attempt on the entry, and
    when that succeeds the restored entry has retryAttempts = 0 and
    synced = true. *)
Lemma restore_runs_sync_attempt :
  let m := mkMem [mkState (js "123") true false 2] {[ js "123" := 0%nat ]} key [] [] in
  let o := serves (healthy (Some (task123 None)) (Some (reloaded (savedData m)))) in
  pendingSyncs m = [mkEntry (js "123") true 2]
  ∧ heap (mem (run [Restore; Settle 0 o; Settle 0 o; Settle 0 o] (initial key)))
    = [mkState (js "123") true true 0].
Proof. vm_compute. split; reflexivity. Qed.

(** On the event loop the attempt of the restore need not be the only
    one: the snapshot holds "123" and "456" without failed attempts; the
    attempt on "123" fails, and its retry timer fires and fails again while
    the restore waits for the fetch of "456". When the restore is over the
    entry "123" has two failed attempts on its count. *)
Example retry_timer_during_restore :
  let a := mkEntry (js "123") true 0 in
  let b := mkEntry (js "456") false 0 in
  let o := serves (healthy (Some (task123 None))
                     (Some (mkLoaded (Some (js "key")) (Some [a; b])))) in
  let es := [Restore; Settle 0 o; Settle 0 rejects; Timeout 0; Settle 1 rejects;
             Settle 0 o] in
  taskStates (mem (run es (initial key))) !! js "123" = Some 0%nat
  ∧ heap (mem (run es (initial key))) !! 0%nat = Some (mkState (js "123") true false 2)
  ∧ pool (run es (initial key)) = [].
Proof. vm_compute. repeat split; reflexivity. Qed.

(** ** New tasks: the rewritten line *)

Lemma starts_with_prefix (pat s : jstring) :
  Str.starts_with pat s = true ↔ ∃ rest, s = pat ++ rest.
Proof.
  revert s. induction pat as [|p pat IH]; intros s; cbn.
  - split; eauto.
  - destruct s as [|c s].
    + split; [done|]. by intros [rest ?].
    + destruct (N.eqb_spec p c) as [->|Hne].
      * rewrite IH. split; intros [rest H]; exists rest; congruence.
      * split; [done|]. intros [rest H]. congruence.
Qed.

(** [index_of] finds an occurrence of the pattern. *)
Lemma index_of_split (pat s : jstring) (i : nat) :
  Str.index_of pat s = Some i →
  s = take i s ++ pat ++ drop (i + length pat) s ∧ length (take i s) = i.
Proof.
  revert i. induction s as [|c s IH]; intros i; cbn [Str.index_of].
  - destruct (Str.starts_with pat []) eqn:Hp; [|done]. intros [= <-].
    apply starts_with_prefix in Hp as [rest Hp].
    destruct pat; [|done]. by destruct rest.
  - destruct (Str.starts_with pat (c :: s)) eqn:Hp.
    + intros [= <-]. apply starts_with_prefix in Hp as [rest Hp].
      rewrite Hp at 1. cbn [take app Nat.add]. rewrite Hp, drop_app_length. done.
    + destruct (Str.index_of pat s) as [j|] eqn:Hj; [|done].
      intros [= <-]. destruct (IH j eq_refl) as [Heq Hlen].
      cbn [take drop Nat.add app length]. split; [|by rewrite Hlen].
      by rewrite <- Heq.
Qed.

Lemma get_substitution_plain (matched before after repl : jstring) :
  36%N ∉ repl → Str.get_substitution matched before after repl = repl.
Proof.
  induction repl as [|c r IH]; [done|]. intros Hc.
  apply not_elem_of_cons in Hc as [Hc Hr]. cbn [Str.get_substitution].
  destruct (N.eqb_spec c 36) as [->|_]; [done|]. by rewrite IH.
Qed.

Lemma replace_first (pat repl s : jstring) :
  Str.contains pat s = true → 36%N ∉ repl →
  ∃ before after,
    s = before ++ pat ++ after
    ∧ Str.index_of pat s = Some (length before)
    ∧ Str.replace pat repl s = before ++ repl ++ after.
Proof.
  unfold Str.contains, Str.replace. intros Hc Hrepl.
  destruct (Str.index_of pat s) as [i|] eqn:Hi; [|done].
  destruct (index_of_split _ _ _ Hi) as [Heq Hlen].
  exists (take i s), (drop (i + length pat) s).
  rewrite Hlen, get_substitution_plain by done. done.
Qed.

(** C9, as the code has it: for a checklist line that carries the tag
    #todoist and no id marker, the handler creates a remote task whose
    content is the line without its first "- [ ]" and its first tag,
    trimmed (for "- [ ] Buy milk #todoist" the content is "Buy milk"),
    asks for the project, and writes the document back with the line
    rewritten: the first occurrence of the tag replaced by the tag of the
    project (its name free of dollar signs), then the tags of the labels
    and the appended marker " (*<newId>*)"; the new task is then observed.
    Only the first occurrence of the tag is replaced. *)
Theorem new_task_line (ω : nat → Oracle) (s : Sys) (file : jstring)
    (lines : list jstring) (checkbox : ListItem) (line : jstring)
    (newTask : Task) (project : option Project) :
  let n := length (history s) in
  let checked := bool_decide (li_task checkbox = Some (js "x")) in
  let projectName := match project with Some p => p_name p | None => js "Inbox" end in
  lines !! li_line checkbox = Some line →
  extractTodoistId line = None →
  Str.contains TAG line = true →
  36%N ∉ projectName →
  ω n (AddTask (taskContent line)) = Fulfilled newTask →
  ω (S n) (GetProject (t_projectId newTask)) = Fulfilled project →
  (∀ data, ω (S (S n)) (VaultModify file data) = Fulfilled tt) →
  ∃ before after,
    line = before ++ TAG ++ after
    ∧ Str.index_of TAG line = Some (length before)
    ∧ let newLine :=
        before ++ (js "#todoist/" ++ projectName) ++ after
        ++ Str.join (js " ") ((λ label, js "#todoist/" ++ label) <$> t_labels newTask)
        ++ js " (*" ++ t_id newTask ++ js "*)" in
      let lines' := <[li_line checkbox := newLine]> lines in
      exec ω (handleCheckbox file lines checkbox) s
      = (execTask ω (updateState (t_id newTask) checked)
           (logged (VaultModify file (Str.join [10%N] lines'))
              (logged (GetProject (t_projectId newTask))
                 (logged (AddTask (taskContent line)) s))),
         Some lines')
      ∧ taskContent (js "- [ ] Buy milk #todoist") = js "Buy milk".
Proof.
  intros n checked projectName Hline Hid Htag Hdollar Hadd Hproject Hmodify.
  destruct (replace_first TAG (js "#todoist/" ++ projectName) line Htag)
    as (before & after & Heq & Hidx & Hrepl).
  { intros Hin. apply elem_of_app in Hin as [Hin|Hin]; [|done].
    vm_compute in Hin. repeat (apply elem_of_cons in Hin as [Hin|Hin]; [done|]).
    by apply elem_of_nil in Hin. }
  exists before, after. split; [done|]. split; [done|].
  intros newLine lines'. split; [|reflexivity].
  unfold handleCheckbox, mbind, Prog_bind, mret, Prog_ret.
  cbv zeta. rewrite Hline. cbn [default from_option id]. rewrite Hid, Htag.
  exec_bind. rewrite (exec_await ω (AddTask (taskContent line))).
  fold n. rewrite Hadd. cbv beta iota.
  exec_bind. rewrite (exec_await ω (GetProject (t_projectId newTask))).
  cbn [logged history]. rewrite length_app. cbn [length].
  replace (length (history s) + 1)%nat with (S n) by (subst n; lia).
  rewrite Hproject. cbv beta iota.
  fold projectName. unfold rewrittenLine. rewrite Hrepl.
  rewrite <- !app_assoc. fold newLine. fold lines'.
  exec_bind. rewrite (exec_await ω (VaultModify file (Str.join [10%N] lines'))).
  cbn [logged history]. rewrite !length_app. cbn [length].
  replace (length (history s) + 1 + 1)%nat with (S (S n)) by (subst n; lia).
  rewrite Hmodify. cbv beta iota.
  cbn [exec]. fold checked. unfold execTask.
  by destruct (exec ω (updateState (t_id newTask) checked) _) as [s' [[]|]].
Qed.

Lemma no_dollar_in_Work : 36%N ∉ js "Work".
Proof.
  intros H. vm_compute in H.
  repeat (apply elem_of_cons in H as [H|H]; [done|]). by apply elem_of_nil in H.
Qed.

Lemma new_task_line_witness :
  let ω := λ _ : nat, serves (healthy None None) in
  let line := js "- [ ] Buy milk #todoist" in
  let newTask := mkTask (js "42") (js "2001") [js "home"] None in
  ∃ before after,
    line = before ++ TAG ++ after
    ∧ Str.index_of TAG line = Some (length before)
    ∧ let newLine :=
        before ++ (js "#todoist/" ++ js "Work") ++ after
        ++ Str.join (js " ") ((λ label, js "#todoist/" ++ label) <$> t_labels newTask)
        ++ js " (*" ++ t_id newTask ++ js "*)" in
      let lines' := <[0%nat := newLine]> [line] in
      exec ω (handleCheckbox (js "todo.md") [line] (mkItem 0 (Some (js " ")))) (initial key)
      = (execTask ω (updateState (t_id newTask) false)
           (logged (VaultModify (js "todo.md") (Str.join [10%N] lines'))
              (logged (GetProject (t_projectId newTask))
                 (logged (AddTask (taskContent line)) (initial key)))),
         Some lines')
      ∧ taskContent (js "- [ ] Buy milk #todoist") = js "Buy milk".
Proof.
  intros ω line newTask.
  exact (new_task_line ω (initial key) (js "todo.md") [line]
           (mkItem 0 (Some (js " "))) line newTask (Some (mkProject (js "Work")))
           eq_refl eq_refl eq_refl no_dollar_in_Work eq_refl eq_refl
           (λ _, eq_refl)).
Defined.

(** The claim of C9 that the tag is gone from the rewritten line fails
    for a line that carries the tag twice: the new task has no labels,
    only the first tag is replaced, and the document written back still
    holds the second one as it was. *)
Lemma second_tag_stays_verbatim :
  let o := serves (mkRemote (λ _, None) (λ _, mkTask (js "42") (js "2001") [] None)
                     (λ _, Some (mkProject (js "Work"))) None) in
  let written := js "- [ ] Buy milk #todoist/Work and eggs #todoist (*42*)" in
  history (run [Changed (js "todo.md") (js "- [ ] Buy milk #todoist and eggs #todoist")
                  (Some [mkItem 0 (Some (js " "))]);
                Settle 0 o; Settle 0 o] (initial key))
  = [AddTask (js "Buy milk  and eggs #todoist"); GetProject (js "2001");
     VaultModify (js "todo.md") written]
  ∧ Str.contains (js " #todoist ") written = true.
Proof. vm_compute. split; reflexivity. Qed.

(** ** Runs without overlap are runs of the event loop *)

Lemma run_cons e es s : run (e :: es) s = run es (step e s).
Proof. reflexivity. Qed.

Lemma step_settle_last (c : Call) (k : Settled (Reply c) → Prog unit) (o : Oracle) s :
  step (Settle (length (pool s)) o)
    (mkSys (mem s) (pool s ++ [mkPending c k]) (history s ++ [c]) (unhandled s))
  = start (k (o c)) (logged c s).
Proof.
  cbn [step pool]. rewrite lookup_app_r, Nat.sub_diag by done.
  cbn [lookup list_lookup p_resume p_call]. f_equal.
  unfold with_pool, logged; cbn [mem pool history unhandled].
  by rewrite delete_middle, app_nil_r.
Qed.

Lemma exec_is_a_run (A : Type) (p : Prog A) :
  ∀ (e : A = unit) (ω : nat → Oracle) (s : Sys),
    sequential p →
    ∃ es, run es (start (eq_rect A Prog p unit e) s)
          = execTask ω (eq_rect A Prog p unit e) s.
Proof.
  induction p as [A a|A|A k IH|A m k IH|A c k IH|A child IHc k _];
    intros e ω s Hseq; subst A; cbn [eq_rect].
  - by exists [].
  - by exists [].
  - exact (IH (mem s) eq_refl ω s (Hseq (mem s))).
  - exact (IH eq_refl ω (with_mem m s) Hseq).
  - destruct (IH (ω (length (history s)) c) eq_refl ω (logged c s) (Hseq _))
      as [es Hes].
    exists (Settle (length (pool s)) (ω (length (history s))) :: es).
    rewrite run_cons.
    change (start (Await c k) s)
      with (mkSys (mem s) (pool s ++ [mkPending c k]) (history s ++ [c]) (unhandled s)).
    rewrite step_settle_last. exact Hes.
  - destruct Hseq as [Hchild [[] ->]].
    destruct (IHc eq_refl ω s Hchild) as [es Hes]. exists es.
    cbn [eq_rect] in Hes.
    unfold start in Hes |- *. unfold execTask in Hes |- *. cbn [advance exec].
    destruct (advance child s) as [s1 o1].
    destruct (exec ω child s) as [s2 [[]|]]; exact Hes.
Qed.

Lemma forkless_sequential {A} (p : Prog A) : forkless p → sequential p.
Proof.
  induction p as [A a|A|A k IH|A m k IH|A c k IH|A child _ k _]; cbn; auto.
  done.
Qed.

Lemma forkless_bind {A B} (p : Prog A) (f : A → Prog B) :
  forkless p → (∀ a, forkless (f a)) → forkless (bind p f).
Proof.
  induction p as [A a|A|A k IH|A m k IH|A c k IH|A child _ k _] in B, f |- *;
    cbn; auto.
Qed.

Lemma forkless_try_catch {A} (p h : Prog A) :
  forkless p → forkless h → forkless (try_catch p h).
Proof.
  induction p as [A a|A|A k IH|A m k IH|A c k IH|A child _ k _] in h |- *;
    cbn; auto.
Qed.

Lemma sequential_bind {A B} (p : Prog A) (f : A → Prog B) :
  forkless p → (∀ a, sequential (f a)) → sequential (bind p f).
Proof.
  induction p as [A a|A|A k IH|A m k IH|A c k IH|A child _ k _] in B, f |- *;
    cbn; auto. done.
Qed.

Lemma forkless_await c : forkless (await c).
Proof. intros []; exact I. Qed.

Lemma forkless_readState state : forkless (readState state).
Proof. intros m. cbn. by destruct (heap m !! state). Qed.

Lemma forkless_assign state f : forkless (assign state f).
Proof. intros m. cbn. by destruct (heap m !! state). Qed.

Lemma forkless_alloc st : forkless (alloc st).
Proof. by intros m. Qed.

Lemma forkless_modify f : forkless (modify f).
Proof. by intros m. Qed.

Lemma forkless_syncState state : forkless (syncState state).
Proof.
  unfold syncState, mbind, Prog_bind, mret, Prog_ret.
  apply forkless_try_catch.
  - apply forkless_bind; [apply forkless_readState|]. intros st.
    apply forkless_bind; [apply forkless_await|]. intros [task|]; [|exact I].
    apply forkless_bind; [apply forkless_readState|]. intros st'.
    apply forkless_bind.
    + repeat case_match; try exact I;
        (apply forkless_bind; [apply forkless_await|by intros]).
    + intros _. apply forkless_bind; [apply forkless_assign|].
      intros _. apply forkless_assign.
  - apply forkless_bind; [apply forkless_readState|]. intros st.
    apply forkless_bind; [apply forkless_assign|]. intros _.
    apply forkless_bind; [apply forkless_readState|]. intros st'.
    by intros m.
Qed.

Lemma forkless_readBuiltin name : forkless (readBuiltin name).
Proof. by intros m. Qed.

Lemma forkless_syncStateBuiltin name : forkless (syncStateBuiltin name).
Proof.
  unfold syncStateBuiltin, mbind, Prog_bind, mret, Prog_ret.
  apply forkless_try_catch.
  - apply forkless_bind; [apply forkless_await|]. intros [task|]; [|exact I].
    apply forkless_bind; [apply forkless_readBuiltin|]. intros f.
    apply forkless_bind.
    + repeat case_match; try exact I;
        (apply forkless_bind; [apply forkless_await|by intros]).
    + intros _. apply forkless_bind; [apply forkless_modify|].
      intros _. apply forkless_modify.
  - apply forkless_bind; [apply forkless_readBuiltin|]. intros f.
    apply forkless_bind; [apply forkless_modify|]. by intros _.
Qed.

Lemma forkless_updateStateBuiltin name checked :
  forkless (updateStateBuiltin name checked).
Proof.
  unfold updateStateBuiltin, mbind, Prog_bind, mret, Prog_ret.
  apply forkless_bind; [apply forkless_readBuiltin|]. intros f.
  apply forkless_bind.
  - case_match; [|exact I].
    apply forkless_bind; [apply forkless_modify|]. intros _.
    apply forkless_bind; [apply forkless_modify|]. intros _.
    apply forkless_modify.
  - intros _. apply forkless_bind; [apply forkless_readBuiltin|]. intros f'.
    case_match; [exact I|apply forkless_syncStateBuiltin].
Qed.

Lemma forkless_updateState id checked : forkless (updateState id checked).
Proof.
  unfold updateState, mbind, Prog_bind, mret, Prog_ret, get. intros m. cbn [bind].
  destruct (taskStates m !! id) as [state|].
  - apply forkless_bind; [apply forkless_readState|]. intros st.
    apply forkless_bind.
    + case_match; [|exact I].
      apply forkless_bind; [apply forkless_assign|]. intros _.
      apply forkless_bind; [apply forkless_assign|]. intros _.
      apply forkless_assign.
    + intros _. apply forkless_bind; [apply forkless_readState|]. intros st'.
      case_match; [exact I|apply forkless_syncState].
  - destruct (inherited id); [apply forkless_updateStateBuiltin|].
    apply forkless_bind; [apply forkless_alloc|]. intros state.
    apply forkless_bind; [apply forkless_assign|]. intros _.
    apply forkless_modify.
Qed.

Lemma forkless_restoreEntries entries : forkless (restoreEntries entries).
Proof.
  induction entries as [|entry rest IH]; [exact I|].
  cbn [restoreEntries]. unfold mbind, Prog_bind, mret, Prog_ret.
  apply forkless_bind; [apply forkless_alloc|]. intros state.
  apply forkless_bind; [apply forkless_assign|]. intros _.
  apply forkless_bind; [apply forkless_assign|]. intros _.
  apply forkless_bind; [apply forkless_modify|]. intros _.
  apply forkless_bind; [apply forkless_syncState|]. by intros.
Qed.

Lemma sequential_timerCallback state : sequential (timerCallback state).
Proof.
  unfold timerCallback, mbind, Prog_bind, mret, Prog_ret.
  apply sequential_bind; [apply forkless_readState|]. intros st.
  case_match; [|exact I]. split; [|by eexists].
  apply forkless_sequential, forkless_syncState.
Qed.

Lemma sequential_onunload : sequential onunload.
Proof.
  intros m. cbn. split; [|by eexists]. by intros [].
Qed.

Lemma sequential_handleCheckbox file lines checkbox :
  sequential (handleCheckbox file lines checkbox).
Proof.
  unfold handleCheckbox, mbind, Prog_bind, mret, Prog_ret. cbv zeta.
  assert (∀ id checked ls,
    sequential (Fork (updateState id checked) (Ret ls) : Prog (list jstring))) as Hfork.
  { intros. split; [|by eexists]. apply forkless_sequential, forkless_updateState. }
  destruct (extractTodoistId _) as [[|c id]|]; [|apply Hfork|];
    (case_match; [|exact I];
     apply sequential_bind; [apply forkless_await|]; intros newTask;
     apply sequential_bind; [apply forkless_await|]; intros project;
     apply sequential_bind; [apply forkless_await|]; intros _; apply Hfork).
Qed.

(** Every operation run without overlap is a run of the event loop: the
    stimulus of the operation followed by the settling of the calls of
    its task, one after the other. *)
Lemma perform_is_a_run (ω : nat → Oracle) (s : Sys) (op : Op) :
  ∃ es, run es s = perform ω s op.
Proof.
  destruct op as [id checked| |i|]; cbn [perform].
  - destruct (exec_is_a_run unit (updateState id checked) eq_refl ω s) as [es Hes].
    { apply forkless_sequential, forkless_updateState. }
    by exists (Observe id checked :: es).
  - destruct (exec_is_a_run unit restorePendingSyncs eq_refl ω s) as [es Hes].
    { apply forkless_sequential. unfold restorePendingSyncs, mbind, Prog_bind.
      apply forkless_bind; [apply forkless_await|]. intros.
      apply forkless_restoreEntries. }
    by exists (Restore :: es).
  - destruct (timers (mem s) !! i) as [[delay state]|] eqn:Ht.
    + destruct (exec_is_a_run unit (timerCallback state) eq_refl ω
                  (with_mem (with_timers (delete i (timers (mem s))) (mem s)) s))
        as [es Hes]; [apply sequential_timerCallback|].
      exists (Timeout i :: es). rewrite run_cons. cbn [step]. by rewrite Ht.
    + by exists [].
  - destruct (exec_is_a_run unit onunload eq_refl ω s) as [es Hes];
      [apply sequential_onunload|].
    by exists (Unload :: es).
Qed.

Lemma run_app es1 es2 s : run (es1 ++ es2) s = run es2 (run es1 s).
Proof. apply foldl_app. Qed.

Lemma operations_are_a_run (ω : nat → Oracle) (ops : list Op) (s : Sys) :
  ∃ es, run es s = foldl (perform ω) s ops.
Proof.
  induction ops as [|op ops IH] using rev_ind; [by exists []|].
  destruct IH as [es1 H1].
  destruct (perform_is_a_run ω (foldl (perform ω) s ops) op) as [es2 H2].
  exists (es1 ++ es2). by rewrite run_app, H1, foldl_app.
Qed.

Lemma sequential_bind_ret {A B} (p : Prog A) (g : A → B) :
  sequential p → sequential (bind p (λ a, Ret (g a))).
Proof.
  induction p as [A a|A|A k IH|A m k IH|A c k IH|A child _ k _] in B, g |- *;
    cbn; auto.
  intros [Hchild [a ->]]. split; [done|]. by eexists.
Qed.

(** The change handler for a document with one checkbox is sequential:
    its only fork, the observation, is the last thing it does. *)
Lemma sequential_onChanged_single file data checkbox :
  sequential (onChanged file data (Some [checkbox])).
Proof.
  unfold onChanged. cbn [default from_option id]. rewrite filter_cons.
  case_decide; [|exact I]. rewrite filter_nil.
  apply (sequential_bind_ret _ (λ _, tt)), sequential_handleCheckbox.
Qed.

(** * Further properties *)

(** ** More on the backoff delay *)

Lemma backoff_as_min (n : N) :
  Math_min (times 5000 (Math_pow2 n)) 300000 = Z.min (5000 * 2 ^ Z.of_N n) 300000.
Proof.
  unfold Math_pow2. pose proof pow2_1024_large as Hbig.
  destruct (N.ltb_spec n 1024) as [Hn|Hn]; cbn [times Math_min].
  - destruct (Z.ltb_spec (5000 * 2 ^ Z.of_N n) (2 ^ 1024)) as [Hp|Hp];
      cbn [Math_min]; lia.
  - assert (2 ^ 1024 ≤ 2 ^ Z.of_N n)%Z by (apply Z.pow_le_mono_r; lia).
    lia.
Qed.

(** X1: the retry delay is never below 5 s nor above 5 min, it never
    shrinks when the count of failed attempts grows, and it is the cap of
    5 min exactly from the sixth failed attempt on. *)
Theorem nextRetryDelay_range (s s' : State) :
  (5000 ≤ nextRetryDelay s ≤ 300000)%Z
  ∧ ((retryAttempts s ≤ retryAttempts s')%N →
     (nextRetryDelay s ≤ nextRetryDelay s')%Z)
  ∧ ((6 ≤ retryAttempts s)%N ↔ nextRetryDelay s = 300000%Z).
Proof.
  unfold nextRetryDelay. change (5 * 60000)%Z with 300000%Z.
  rewrite !backoff_as_min.
  assert (∀ n : N, (1 ≤ 2 ^ Z.of_N n)%Z) as Hpos.
  { intros n. apply (Z.pow_le_mono_r 2 0); lia. }
  pose proof (Hpos (retryAttempts s)).
  split; [lia|]. split.
  - intros Hle.
    assert (2 ^ Z.of_N (retryAttempts s) ≤ 2 ^ Z.of_N (retryAttempts s'))%Z
      by (apply Z.pow_le_mono_r; lia).
    lia.
  - split.
    + intros Hn.
      assert (2 ^ 6 ≤ 2 ^ Z.of_N (retryAttempts s))%Z
        by (apply Z.pow_le_mono_r; lia).
      lia.
    + intros Hd. apply N.le_ngt. intros Hn.
      assert (2 ^ Z.of_N (retryAttempts s) ≤ 2 ^ 5)%Z
        by (apply Z.pow_le_mono_r; lia).
      lia.
Qed.

(** ** What an attempt never does *)

(** X2: whatever the outside answers, an attempt on an existing state
    object never throws; it issues the fetch and at most one mutating call,
    which closes the task only for a ticked box and reopens it only for an
    unticked one; it leaves the store map, the other state objects, and the
    id and checkbox value of its own state as they were. *)
Theorem syncState_never_throws (ω : nat → Oracle) (s : Sys) (state : nat)
    (st : State) :
  heap (mem s) !! state = Some st →
  let r := exec ω (syncState state) s in
  r.2 = Some tt
  ∧ unhandled r.1 = unhandled s
  ∧ (history r.1 = history s ++ [GetTask (todoistId st)]
     ∨ (history r.1 = history s ++ [GetTask (todoistId st); CloseTask (todoistId st)]
        ∧ checkboxState st = true)
     ∨ (history r.1 = history s ++ [GetTask (todoistId st); ReopenTask (todoistId st)]
        ∧ checkboxState st = false))
  ∧ taskStates (mem r.1) = taskStates (mem s)
  ∧ (∀ state', state' ≠ state → heap (mem r.1) !! state' = heap (mem s) !! state')
  ∧ ∃ st', heap (mem r.1) !! state = Some st'
      ∧ todoistId st' = todoistId st ∧ checkboxState st' = checkboxState st.
Proof.
  intros H r. subst r. rewrite (exec_syncState _ _ _ _ H). cbn [fst snd mem history unhandled].
  split; [done|]. split; [done|]. split.
  { unfold attemptCalls, mutation.
    destruct (ω _ (GetTask _)) as [[task|]|]; [|by left..].
    destruct (checkboxState st) eqn:Hc; cbn [andb negb].
    - destruct (negb (truthy (t_completedAt task))); [|by left].
      right; left. done.
    - destruct (truthy (t_completedAt task)); [|by left].
      right; right. done. }
  split; [apply taskStates_attemptMem|].
  split; [intros state' Hne; by apply heap_attemptMem_ne|].
  exists (attemptState (attemptOutcome ω (length (history s)) st) st).
  split; [by apply heap_attemptMem|].
  by destruct (attemptOutcome _ _ _).
Qed.

Lemma syncState_never_throws_witness :
  let s := mkSys (mkMem [mkState (js "123") true false 0] {[ js "123" := 0%nat ]} key [] [])
             [] [] 0 in
  let r := exec (λ _, rejects) (syncState 0) s in
  r.2 = Some tt
  ∧ unhandled r.1 = unhandled s
  ∧ (history r.1 = history s ++ [GetTask (js "123")]
     ∨ (history r.1 = history s ++ [GetTask (js "123"); CloseTask (js "123")]
        ∧ true = true)
     ∨ (history r.1 = history s ++ [GetTask (js "123"); ReopenTask (js "123")]
        ∧ true = false))
  ∧ taskStates (mem r.1) = taskStates (mem s)
  ∧ (∀ state', state' ≠ 0%nat → heap (mem r.1) !! state' = heap (mem s) !! state')
  ∧ ∃ st', heap (mem r.1) !! 0%nat = Some st'
      ∧ todoistId st' = js "123" ∧ checkboxState st' = true.
Proof.
  intros s.
  exact (syncState_never_throws (λ _, rejects) s 0
           (mkState (js "123") true false 0) eq_refl).
Defined.

(** ** What every task keeps *)

Lemma grows_refl m : grows m m.
Proof. split; [eauto|]. split; eauto. Qed.

Lemma grows_trans m1 m2 m3 : grows m1 m2 → grows m2 m3 → grows m1 m3.
Proof.
  intros (Ha & Hb & Hc) (Ha' & Hb' & Hc'). split; [|split].
  - intros state st H. destruct (Ha _ _ H) as (st2 & H2 & Hid2).
    destruct (Ha' _ _ H2) as (st3 & H3 & Hid3). exists st3. split; [done|congruence].
  - intros id state H. destruct (Hb' _ _ H) as [H2|?]; [|by right].
    destruct (Hb _ _ H2) as [?|(st & Hst & Hid)]; [by left|].
    right. destruct (Ha' _ _ Hst) as (st3 & H3 & Hid3). exists st3. split; [done|congruence].
  - intros t Ht. destruct (Hc' _ Ht) as [Ht2|?]; [|by right].
    destruct (Hc _ Ht2) as [?|[st Hst]]; [by left|].
    right. destruct (Ha' _ _ Hst) as (st3 & H3 & _). by exists st3.
Qed.

Lemma wired_grows m m' : wired m → grows m m' → wired m'.
Proof.
  intros [Hf Ht] (Ha & Hb & Hc). split.
  - intros id state H. destruct (Hb _ _ H) as [H0|?]; [|done].
    destruct (Hf _ _ H0) as (st & Hst & Hid).
    destruct (Ha _ _ Hst) as (st' & Hst' & Hid'). exists st'. split; [done|congruence].
  - intros t H. destruct (Hc _ H) as [H0|?]; [|done].
    destruct (Ht _ H0) as [st Hst]. destruct (Ha _ _ Hst) as (st' & Hst' & _).
    by exists st'.
Qed.

(** A write that keeps the id of the object. *)
Lemma grows_write state st st' m :
  heap m !! state = Some st → todoistId st' = todoistId st →
  grows m (write state st' m).
Proof.
  intros H Hid. split; [|split]; cbn.
  - intros state' st0 H0. destruct (decide (state = state')) as [<-|Hne].
    + exists st'. rewrite list_lookup_insert_eq by (by eapply lookup_lt_Some).
      split; [done|congruence].
    + exists st0. by rewrite list_lookup_insert_ne.
  - by left.
  - by left.
Qed.

(** A new object. *)
Lemma grows_alloc st m : grows m (with_heap (heap m ++ [st]) m).
Proof.
  split; [|split]; cbn.
  - intros state st0 H0. exists st0. split; [|done].
    by rewrite lookup_app_l by (by eapply lookup_lt_Some).
  - by left.
  - by left.
Qed.

(** A new entry of the store, for an object that carries its id. *)
Lemma grows_file id state st m :
  heap m !! state = Some st → todoistId st = id →
  grows m (with_taskStates (<[id := state]> (taskStates m)) m).
Proof.
  intros H Hid. split; [|split]; cbn.
  - eauto.
  - intros id' state' H'. destruct (decide (id = id')) as [<-|Hne].
    + rewrite lookup_insert_eq in H'. injection H' as <-. right. eauto.
    + rewrite lookup_insert_ne in H' by done. by left.
  - by left.
Qed.

(** A new timer, for an existing object. *)
Lemma grows_timer delay state m :
  is_Some (heap m !! state) →
  grows m (with_timers (timers m ++ [(delay, state)]) m).
Proof.
  intros H. split; [|split]; cbn.
  - eauto.
  - by left.
  - intros t [Ht| ->%list_elem_of_singleton]%elem_of_app; [by left|by right].
Qed.

Lemma grows_notice n m : grows m (with_notices n m).
Proof. split; [|split]; cbn; eauto. Qed.

Lemma grows_builtins b m : grows m (with_builtins b m).
Proof. split; [|split]; cbn; eauto. Qed.

(** *** Rules for tidy programs *)

Lemma tidy_guard strict {A} (p : Prog A) :
  ∀ m, tidy strict false p m → tidy strict true p m.
Proof.
  induction p as [A a|A|A k IH|A mp k IH|A c k IH|A child IHc k IHk];
    intros m; cbn [tidy].
  - done.
  - by right.
  - apply IH.
  - intros [? ?]. eauto.
  - intros Hk r m' Hg Hw Hr. apply IH. by apply Hk.
  - intros [? Hk]. split; [done|]. intros m' Hg Hw. apply IHk. by apply Hk.
Qed.

Lemma tidy_bind strict guarded {A B} (p : Prog A) (f : A → Prog B) :
  ∀ m, wired m →
    tidy strict guarded p m →
    (∀ a m', grows m m' → wired m' → tidy strict guarded (f a) m') →
    tidy strict guarded (bind p f) m.
Proof.
  induction p as [A a|A|A k IH|A mp k IH|A c k IH|A child IHc k IHk]
    in B, f |- *; intros m Hw Hp Hf; cbn [tidy bind] in *.
  - apply Hf; [apply grows_refl|done].
  - done.
  - by apply IH.
  - destruct Hp as [Hg Hp]. split; [done|].
    apply IH; [by eapply wired_grows|done|].
    intros a m' Hg' Hw'. apply Hf; [by eapply grows_trans|done].
  - intros r m' Hg Hw' Hr. apply IH; [done|by apply Hp|].
    intros a m'' Hg' Hw''. apply Hf; [by eapply grows_trans|done].
  - destruct Hp as [Hc Hk]. split; [done|].
    intros m' Hg Hw'. apply IHk; [done|by apply Hk|].
    intros a m'' Hg' Hw''. apply Hf; [by eapply grows_trans|done].
Qed.

Lemma tidy_try_catch strict guarded {A} (p h : Prog A) :
  ∀ m, wired m →
    tidy strict true p m →
    (∀ m', grows m m' → wired m' → tidy strict guarded h m') →
    tidy strict guarded (try_catch p h) m.
Proof.
  induction p as [A a|A|A k IH|A mp k IH|A c k IH|A child IHc k IHk]
    in h |- *; intros m Hw Hp Hh; cbn [tidy try_catch] in *.
  - done.
  - apply Hh; [apply grows_refl|done].
  - by apply IH.
  - destruct Hp as [Hg Hp]. split; [done|].
    apply IH; [by eapply wired_grows|done|].
    intros m' Hg' Hw'. apply Hh; [by eapply grows_trans|done].
  - intros r m' Hg Hw' Hr. apply IH; [done|by apply Hp|].
    intros m'' Hg' Hw''. apply Hh; [by eapply grows_trans|done].
  - destruct Hp as [Hc Hk]. split; [done|].
    intros m' Hg Hw'. apply IHk; [done|by apply Hk|].
    intros m'' Hg' Hw''. apply Hh; [by eapply grows_trans|done].
Qed.

(** A [try] block in which nothing is thrown needs no [catch]. *)
Lemma tidy_try_catch_calm strict guarded {A} (p h : Prog A) :
  ∀ m, wired m →
    tidy strict false p m →
    (strict = false → ∀ m', grows m m' → wired m' → tidy strict guarded h m') →
    tidy strict guarded (try_catch p h) m.
Proof.
  induction p as [A a|A|A k IH|A mp k IH|A c k IH|A child IHc k IHk]
    in h |- *; intros m Hw Hp Hh; cbn [tidy try_catch] in *.
  - done.
  - destruct Hp as [Hs|?]; [|done]. apply Hh; [done|apply grows_refl|done].
  - by apply IH.
  - destruct Hp as [Hg Hp]. split; [done|].
    apply IH; [by eapply wired_grows|done|].
    intros Hs m' Hg' Hw'. apply Hh; [done|by eapply grows_trans|done].
  - intros r m' Hg Hw' Hr. apply IH; [done|by apply Hp|].
    intros Hs m'' Hg' Hw''. apply Hh; [done|by eapply grows_trans|done].
  - destruct Hp as [Hc Hk]. split; [done|].
    intros m' Hg Hw'. apply IHk; [done|by apply Hk|].
    intros Hs m'' Hg' Hw''. apply Hh; [done|by eapply grows_trans|done].
Qed.

Lemma tidy_read_bind strict guarded {B} state (f : State → Prog B) m :
  (heap m !! state = None → strict = false ∨ guarded = true) →
  (∀ st, heap m !! state = Some st → tidy strict guarded (f st) m) →
  tidy strict guarded (bind (readState state) f) m.
Proof.
  intros Hnone Hf. cbn [bind readState tidy].
  destruct (heap m !! state) as [st|]; cbn [bind tidy]; auto.
Qed.

Lemma tidy_assign_bind strict guarded {B} state g (f : unit → Prog B) m :
  (heap m !! state = None → strict = false ∨ guarded = true) →
  (∀ st, todoistId (g st) = todoistId st) →
  (∀ st, heap m !! state = Some st →
     tidy strict guarded (f tt) (write state (g st) m)) →
  tidy strict guarded (bind (assign state g) f) m.
Proof.
  intros Hnone Hg Hf. unfold assign, mbind, Prog_bind.
  cbn [bind readState modify tidy].
  destruct (heap m !! state) as [st|] eqn:H; cbn [bind tidy]; [|auto].
  split; [by eapply grows_write|]. by apply Hf.
Qed.

Lemma tidy_assign strict guarded state g m :
  (heap m !! state = None → strict = false ∨ guarded = true) →
  (∀ st, todoistId (g st) = todoistId st) →
  tidy strict guarded (assign state g) m.
Proof.
  intros Hnone Hg. unfold assign, mbind, Prog_bind.
  cbn [bind readState modify tidy].
  destruct (heap m !! state) as [st|] eqn:H; cbn [bind tidy]; [|auto].
  split; [by eapply grows_write|done].
Qed.

Lemma tidy_modify_bind strict guarded {B} g (f : unit → Prog B) m :
  grows m (g m) → tidy strict guarded (f tt) (g m) →
  tidy strict guarded (bind (modify g) f) m.
Proof. intros Hg Hf. cbn [bind modify tidy]. by split. Qed.

Lemma tidy_await_bind strict guarded {B} c (f : Reply c → Prog B) m :
  (strict = true → attemptId c ≠ None → guarded = true) →
  (∀ v m', grows m m' → wired m' → tidy strict guarded (f v) m') →
  tidy strict guarded (bind (await c) f) m.
Proof.
  intros Hc Hf. cbn [bind await tidy]. intros r m' Hg Hw Hr.
  destruct r as [v|]; cbn [bind tidy]; [by apply Hf|].
  destruct strict; [|by left]. right. apply Hc; [done|]. by apply Hr.
Qed.

Lemma lookup_grows state m m' :
  grows m m' → is_Some (heap m !! state) → is_Some (heap m' !! state).
Proof. intros (Ha & _) [st H]. destruct (Ha _ _ H) as (st' & H' & _). by exists st'. Qed.

(** *** The asynchronous functions are tidy *)

Lemma missing_object strict guarded state m :
  (strict = true → is_Some (heap m !! state)) →
  heap m !! state = None → strict = false ∨ guarded = true.
Proof.
  intros Hex Hnone. destruct strict; [|by left].
  destruct (Hex eq_refl) as [st H]. congruence.
Qed.

Lemma tidy_failure strict guarded state m :
  (strict = true → is_Some (heap m !! state)) →
  tidy strict guarded
    (bind (readState state) (λ s0,
       bind (assign state (set_retryAttempts (retryAttempts s0 + 1)))
         (λ _, bind (readState state) (λ s2,
            bind (notice (retryAttempts s2) (Math_round_div1000 (nextRetryDelay s2)))
              (λ _, setTimeout state (nextRetryDelay s2)))))) m.
Proof.
  intros Hex. pose proof (missing_object _ guarded _ _ Hex) as Hnone.
  apply tidy_read_bind; [done|]. intros st H.
  apply tidy_assign_bind; [done|done|]. intros st1 H1.
  assert (heap (write state (set_retryAttempts (retryAttempts st + 1) st1) m) !! state
          = Some (set_retryAttempts (retryAttempts st + 1) st1)) as Hw
    by (by eapply heap_write).
  apply tidy_read_bind; [by rewrite Hw|]. intros st2 H2.
  apply tidy_modify_bind; [apply grows_notice|].
  cbn [setTimeout modify tidy]. split; [|done].
  apply grows_timer. cbn. cbn in Hw. by rewrite Hw.
Qed.

Lemma tidy_success strict guarded state m :
  (strict = true → is_Some (heap m !! state)) →
  tidy strict guarded
    (bind (assign state (set_synced true))
       (λ _, assign state (set_retryAttempts 0))) m.
Proof.
  intros Hex. pose proof (missing_object _ guarded _ _ Hex) as Hnone.
  apply tidy_assign_bind; [done|done|]. intros st H.
  apply tidy_assign; [|done]. intros Hn.
  by rewrite (heap_write _ _ _ _ H) in Hn.
Qed.

Lemma tidy_syncState strict guarded state m :
  wired m → (strict = true → is_Some (heap m !! state)) →
  tidy strict guarded (syncState state) m.
Proof.
  intros Hw Hex. unfold syncState, mbind, Prog_bind, mret, Prog_ret.
  assert (∀ m', grows m m' → strict = true → is_Some (heap m' !! state)) as Hex'.
  { intros m' Hg Hs. eapply lookup_grows; [done|]. by apply Hex. }
  apply tidy_try_catch; [done| |].
  - apply tidy_read_bind; [by right|]. intros st H.
    apply tidy_await_bind; [done|]. intros [task|] m1 Hg1 Hw1; [|done].
    apply tidy_read_bind; [by right|]. intros st1 H1.
    apply tidy_bind; [done| |].
    + destruct (checkboxState st1 && negb (truthy (t_completedAt task))).
      { apply tidy_await_bind; done. }
      destruct (negb (checkboxState st1) && truthy (t_completedAt task)).
      { apply tidy_await_bind; done. }
      done.
    + intros _ m2 Hg2 Hw2. apply tidy_success.
      intros Hs. eapply lookup_grows; [done|]. by eapply Hex'.
  - intros m' Hg Hw'. apply tidy_failure. by apply Hex'.
Qed.

(** On a member of [Object.prototype] the attempt throws only once one of
    its calls, which carry no task id, has been rejected. *)
Lemma tidy_syncStateBuiltin strict guarded name m :
  wired m → tidy strict guarded (syncStateBuiltin name) m.
Proof.
  intros Hw. unfold syncStateBuiltin, mbind, Prog_bind, mret, Prog_ret.
  apply tidy_try_catch_calm; [done| |].
  - apply tidy_await_bind; [by intros _ ?|]. intros [task|] m1 Hg1 Hw1; [|done].
    cbn [readBuiltin bind tidy].
    apply tidy_bind; [done| |].
    + destruct (_ && _); [by apply tidy_await_bind; [intros _ ?|]|].
      destruct (_ && _); [by apply tidy_await_bind; [intros _ ?|]|done].
    + intros _ m2 _ _. unfold assignBuiltin.
      apply tidy_modify_bind; [apply grows_builtins|].
      cbn [modify tidy]. split; [apply grows_builtins|done].
  - intros -> m' _ _. cbn [readBuiltin bind tidy]. unfold assignBuiltin.
    apply tidy_modify_bind; [apply grows_builtins|]. by left.
Qed.

Lemma tidy_updateStateBuiltin strict name checked m :
  wired m → tidy strict false (updateStateBuiltin name checked) m.
Proof.
  intros Hw. unfold updateStateBuiltin, mbind, Prog_bind, mret, Prog_ret.
  cbn [readBuiltin bind tidy].
  apply tidy_bind; [done| |].
  - destruct (negb _); [|done]. unfold assignBuiltin.
    apply tidy_modify_bind; [apply grows_builtins|].
    apply tidy_modify_bind; [apply grows_builtins|].
    cbn [modify tidy]. split; [apply grows_builtins|done].
  - intros _ m' _ Hw'. cbn [readBuiltin bind tidy].
    destruct (bool_decide _); [done|]. by apply tidy_syncStateBuiltin.
Qed.

Lemma tidy_updateState strict id checked m :
  wired m → tidy strict false (updateState id checked) m.
Proof.
  intros Hw. unfold updateState, mbind, Prog_bind, mret, Prog_ret, get.
  cbn [bind tidy]. destruct (taskStates m !! id) as [state|] eqn:Hid.
  - destruct (proj1 Hw _ _ Hid) as (st & H & Hst).
    apply tidy_read_bind; [by rewrite H|]. intros st0 H0.
    assert (∀ m', grows m m' → wired m' →
      tidy strict false (bind (readState state)
        (λ s, if synced s then Ret tt else syncState state)) m') as Hrest.
    { intros m' Hg Hw'.
      assert (is_Some (heap m' !! state)) as Hex
        by (eapply lookup_grows; [done|by exists st]).
      apply tidy_read_bind; [by destruct Hex as [? ->]|]. intros st1 H1.
      destruct (synced st1); [done|]. by apply tidy_syncState. }
    apply tidy_bind; [done| |by intros _].
    destruct (negb (Bool.eqb (checkboxState st0) checked)); [|done].
    apply tidy_assign_bind; [by rewrite H|done|]. intros st1 H1.
    apply tidy_assign_bind; [by rewrite (heap_write _ _ _ _ H1)|done|].
    intros st2 H2.
    apply tidy_assign; [|done]. by rewrite (heap_write _ _ _ _ H2).
  - destruct (inherited id); [by apply tidy_updateStateBuiltin|].
    cbn [bind alloc tidy]. split; [apply grows_alloc|].
    set (m1 := with_heap _ m).
    assert (heap m1 !! length (heap m) = Some (new_State id checked)) as H1.
    { cbn. rewrite lookup_app_r by done. by rewrite Nat.sub_diag. }
    apply tidy_assign_bind; [by rewrite H1|done|]. intros st Hst.
    cbn [modify tidy]. split; [|done].
    eapply grows_file; [by eapply heap_write|].
    rewrite H1 in Hst. by injection Hst as <-.
Qed.

Lemma tidy_timerCallback strict state m :
  wired m → is_Some (heap m !! state) →
  tidy strict false (timerCallback state) m.
Proof.
  intros Hw Hex. unfold timerCallback, mbind, Prog_bind, mret, Prog_ret.
  apply tidy_read_bind; [by destruct Hex as [? ->]|]. intros st H.
  destruct (negb (synced st)); [|done]. cbn [tidy].
  split; [by apply tidy_syncState|done].
Qed.

Lemma tidy_savePendingSyncs strict m : tidy strict false savePendingSyncs m.
Proof.
  unfold savePendingSyncs, mbind, Prog_bind, mret, Prog_ret, get.
  cbn [bind await tidy]. split; [|done].
  intros r m' Hg Hw Hr. destruct r; cbn [tidy]; [done|].
  left. destruct strict; [|done]. exfalso. by apply Hr.
Qed.

Lemma tidy_restoreEntries strict entries :
  ∀ m, wired m → tidy strict false (restoreEntries entries) m.
Proof.
  induction entries as [|entry rest IH]; intros m Hw; [done|].
  cbn [restoreEntries]. unfold mbind, Prog_bind, mret, Prog_ret.
  cbn [bind alloc tidy]. split; [apply grows_alloc|].
  set (st := new_State _ _). set (m1 := with_heap _ m).
  assert (wired m1) as Hw1 by (eapply wired_grows; [done|apply grows_alloc]).
  assert (heap m1 !! length (heap m) = Some st) as H1.
  { cbn. rewrite lookup_app_r by done. by rewrite Nat.sub_diag. }
  apply tidy_assign_bind; [by rewrite H1|done|]. intros st1 Hst1.
  apply tidy_assign_bind; [by rewrite (heap_write _ _ _ _ Hst1)|done|].
  intros st2 Hst2.
  assert (st1 = st) as -> by congruence.
  assert (st2 = set_synced false st) as ->.
  { rewrite (heap_write _ _ _ _ Hst1) in Hst2. by injection Hst2 as <-. }
  set (m3 := write _ _ (write _ _ m1)).
  assert (heap m3 !! length (heap m)
          = Some (set_retryAttempts (e_retryAttempts entry) (set_synced false st))) as H3.
  { eapply heap_write. by eapply heap_write. }
  assert (wired m3) as Hw3.
  { eapply wired_grows; [exact Hw1|]. eapply grows_trans.
    - by eapply (grows_write (length (heap m)) st).
    - eapply grows_write; [by eapply heap_write|done]. }
  apply tidy_modify_bind; [by eapply grows_file|].
  set (m4 := with_taskStates _ m3).
  assert (wired m4) as Hw4.
  { eapply wired_grows; [exact Hw3|]. by eapply grows_file. }
  apply tidy_bind; [done| |by intros _ m' _ Hw'; apply IH].
  apply tidy_syncState; [done|]. intros _. by exists (set_retryAttempts (e_retryAttempts entry) (set_synced false st)).
Qed.

Lemma tidy_restorePendingSyncs strict m :
  wired m → tidy strict false restorePendingSyncs m.
Proof.
  intros Hw. unfold restorePendingSyncs, mbind, Prog_bind.
  apply tidy_await_bind; [by intros _ ?|].
  intros v m' _ Hw'. by apply tidy_restoreEntries.
Qed.

Lemma tidy_forCheckboxes strict file checkboxes :
  ∀ lines m, wired m → tidy strict false (forCheckboxes file lines checkboxes) m.
Proof.
  induction checkboxes as [|checkbox rest IH]; intros lines m Hw; [done|].
  cbn [forCheckboxes]. unfold mbind, Prog_bind, mret, Prog_ret.
  assert (∀ id checked lines1 m1, wired m1 →
    tidy strict false
      (Fork (updateState id checked) (forCheckboxes file lines1 rest)) m1) as Hfork.
  { intros id checked lines1 m1 Hw1. cbn [tidy].
    split; [by apply tidy_updateState|]. intros m' _ Hw'. by apply IH. }
  unfold handleCheckbox. cbv zeta.
  destruct (extractTodoistId _) as [[|c id]|].
  - destruct (Str.contains _ _); [|cbn [bind]; by apply IH].
    apply tidy_bind; [done| |].
    + apply tidy_await_bind; [by intros _ ?|]. intros newTask m1 _ Hw1.
      apply tidy_await_bind; [by intros _ ?|]. intros project m2 _ Hw2.
      apply tidy_await_bind; [by intros _ ?|]. intros _ m3 _ Hw3.
      cbn [tidy]. split; [by apply tidy_updateState|done].
    + intros lines1 m' _ Hw'. by apply IH.
  - cbn [bind]. by apply Hfork.
  - destruct (Str.contains _ _); [|cbn [bind]; by apply IH].
    apply tidy_bind; [done| |].
    + apply tidy_await_bind; [by intros _ ?|]. intros newTask m1 _ Hw1.
      apply tidy_await_bind; [by intros _ ?|]. intros project m2 _ Hw2.
      apply tidy_await_bind; [by intros _ ?|]. intros _ m3 _ Hw3.
      cbn [tidy]. split; [by apply tidy_updateState|done].
    + intros lines1 m' _ Hw'. by apply IH.
Qed.

Lemma tidy_onChanged strict file data listItems m :
  wired m → tidy strict false (onChanged file data listItems) m.
Proof. intros. unfold onChanged. by apply tidy_forCheckboxes. Qed.

(** *** Tidy programs on the event loop *)

Lemma tidyPending_grows strict pd m m' :
  grows m m' → tidyPending strict pd m → tidyPending strict pd m'.
Proof.
  intros Hg Hpd r m'' Hg' Hw Hr. apply Hpd; [by eapply grows_trans|done..].
Qed.

Lemma advance_tidy strict {A} (p : Prog A) :
  ∀ guarded s, wired (mem s) → tidy strict guarded p (mem s) →
    grows (mem s) (mem (advance p s).1)
    ∧ (∃ new, pool (advance p s).1 = pool s ++ new
         ∧ ∀ pd, pd ∈ new → tidyPending strict pd (mem (advance p s).1))
    ∧ (strict = true → unhandled (advance p s).1 = unhandled s)
    ∧ match (advance p s).2 with
      | Finished _ => True
      | Threw => strict = false ∨ guarded = true
      | Waiting c k =>
          ∀ r m', grows (mem (advance p s).1) m' → wired m' →
            (strict = true → is_rejected r = true → attemptId c ≠ None) →
            tidy strict guarded (k r) m'
      end.
Proof.
  induction p as [A a|A|A k IH|A mp k IH|A c k IH|A child IHc k IHk];
    intros guarded s Hw Hp; cbn [tidy advance] in *.
  - split; [apply grows_refl|]. split; [|done].
    exists []. rewrite app_nil_r. split; [done|]. by intros pd ?%elem_of_nil.
  - split; [apply grows_refl|]. split; [|done].
    exists []. rewrite app_nil_r. split; [done|]. by intros pd ?%elem_of_nil.
  - by apply IH.
  - destruct Hp as [Hg Hp].
    destruct (IH guarded (with_mem mp s)) as (Hg' & Hnew & Hun & Hend);
      [by eapply wired_grows|done|].
    split; [by eapply grows_trans|]. done.
  - split; [apply grows_refl|]. split; [|done].
    exists []. rewrite app_nil_r. split; [done|]. by intros pd ?%elem_of_nil.
  - destruct Hp as [Hc Hk].
    destruct (IHc false s Hw Hc) as (Hg1 & (new1 & Hpool1 & Hnew1) & Hun1 & Hend1).
    destruct (advance child s) as [s1 o1]. cbn [fst snd] in *.
    assert (wired (mem s1)) as Hw1 by (by eapply wired_grows).
    assert (mem (register o1 s1) = mem s1) as Hmem by (by destruct o1).
    assert (∃ pds, pool (register o1 s1) = pool s ++ new1 ++ pds
              ∧ ∀ pd, pd ∈ pds → tidyPending strict pd (mem s1)) as (pds & Hpool & Hpds).
    { destruct o1 as [[]| |c kc]; cbn [register pool].
      - exists []. rewrite app_nil_r. split; [done|]. by intros pd ?%elem_of_nil.
      - exists []. rewrite app_nil_r. split; [done|]. by intros pd ?%elem_of_nil.
      - exists [mkPending c kc]. rewrite Hpool1, <- app_assoc. split; [done|].
        intros pd ->%list_elem_of_singleton. exact Hend1. }
    assert (strict = true → unhandled (register o1 s1) = unhandled s) as Hun.
    { intros Hs. destruct o1 as [[]| |c kc]; cbn [register unhandled]; auto.
      destruct Hend1; congruence. }
    destruct (IHk guarded (register o1 s1)) as (Hg2 & (new2 & Hpool2 & Hnew2) & Hun2 & Hend2).
    { by rewrite Hmem. }
    { rewrite Hmem. by apply Hk. }
    rewrite Hmem in Hg2.
    split; [by eapply grows_trans|]. split; [|split; [|done]].
    + exists (new1 ++ pds ++ new2). split.
      { rewrite Hpool2, Hpool. by rewrite <- !app_assoc. }
      intros pd. rewrite !elem_of_app. intros [Hpd|[Hpd|Hpd]]; [| |by apply Hnew2].
      * eapply tidyPending_grows; [exact Hg2|]. by apply Hnew1.
      * eapply tidyPending_grows; [exact Hg2|]. by apply Hpds.
    + intros Hs. rewrite Hun2 by done. by apply Hun.
Qed.

Lemma steady_start strict p s :
  steady strict s → tidy strict false p (mem s) → steady strict (start p s).
Proof.
  intros (Hw & Hpool & Hun) Hp. unfold start.
  destruct (advance_tidy strict p false s Hw Hp)
    as (Hg & (new & Hpl & Hnew) & Hun' & Hend).
  destruct (advance p s) as [s1 o1]. cbn [fst snd] in *.
  assert (wired (mem s1)) as Hw1 by (by eapply wired_grows).
  assert (∀ pd, pd ∈ pool s1 → tidyPending strict pd (mem s1)) as Hold.
  { intros pd. rewrite Hpl, elem_of_app. intros [Hpd|Hpd]; [|by apply Hnew].
    eapply tidyPending_grows; [done|]. by apply Hpool. }
  destruct o1 as [a| |c k]; cbn [register]; split; cbn [mem pool unhandled];
    try done.
  - split; [done|]. intros Hs. rewrite Hun' by done. by apply Hun.
  - split; [done|]. intros Hs. destruct Hend; congruence.
  - split.
    + intros pd. rewrite elem_of_app, list_elem_of_singleton.
      intros [Hpd| ->]; [by apply Hold|exact Hend].
    + intros Hs. rewrite Hun' by done. by apply Hun.
Qed.

Lemma steady_step strict e s :
  steady strict s →
  (strict = true → ∀ i o pd, e = Settle i o → pool s !! i = Some pd →
     is_rejected (o (p_call pd)) = true → attemptId (p_call pd) ≠ None) →
  steady strict (step e s).
Proof.
  intros Hs Hpol. pose proof Hs as (Hw & Hpool & Hun).
  destruct e as [file data listItems|id checked| |i o|i|]; cbn [step].
  - apply steady_start; [done|]. by apply tidy_onChanged.
  - apply steady_start; [done|]. by apply tidy_updateState.
  - apply steady_start; [done|]. by apply tidy_restorePendingSyncs.
  - destruct (pool s !! i) as [pd|] eqn:Hi; [|done].
    apply steady_start.
    + split; [done|]. split; [|done]. cbn [pool with_pool mem].
      intros pd' Hpd'. apply Hpool. by eapply list_elem_of_delete_inv.
    + cbn [mem with_pool].
      apply (Hpool pd (list_elem_of_lookup_2 _ _ _ Hi)); [apply grows_refl|done|].
      intros Hstrict Hrej. by eapply Hpol.
  - destruct (timers (mem s) !! i) as [[delay state]|] eqn:Hi; [|done].
    assert (grows (mem s) (with_timers (delete i (timers (mem s))) (mem s))) as Hg.
    { split; [|split]; cbn; eauto.
      intros t Ht. left. by eapply list_elem_of_delete_inv. }
    apply steady_start.
    + split; [by eapply wired_grows|]. split; [|done]. cbn [pool with_mem mem].
      intros pd Hpd. eapply tidyPending_grows; [done|]. by apply Hpool.
    + cbn [mem with_mem]. apply tidy_timerCallback; [by eapply wired_grows|].
      cbn. apply (proj2 Hw (delay, state)). by eapply list_elem_of_lookup_2.
  - apply steady_start; [done|]. apply tidy_savePendingSyncs.
Qed.

Lemma steady_run es : ∀ s, steady false s → steady false (run es s).
Proof.
  induction es as [|e es IH]; intros s Hs; [done|].
  cbn [run foldl]. apply IH. by apply steady_step.
Qed.






Lemma steady_initial strict st0 : steady strict (initial st0).
Proof.
  split; [split|split].
  - intros id state H. cbn in H. by rewrite lookup_empty in H.
  - intros t Ht. cbn in Ht. by apply elem_of_nil in Ht.
  - intros pd Hpd. cbn in Hpd. by apply elem_of_nil in Hpd.
  - done.
Qed.

(** X4: on every run of the event loop, every entry of the store refers to
    an existing state object, and that object carries the id the entry is
    filed under. *)
Theorem store_entries_carry_their_id (st0 : MyPluginSettings)
    (es : list Stimulus) (id : jstring) (state : nat) :
  taskStates (mem (run es (initial st0))) !! id = Some state →
  ∃ st, heap (mem (run es (initial st0))) !! state = Some st ∧ todoistId st = id.
Proof.
  intros H.
  destruct (steady_run es (initial st0) (steady_initial false st0))
    as ((Hf & _) & _).
  by apply Hf.
Qed.

Lemma store_entries_carry_their_id_witness :
  let o := serves (healthy (Some (task123 None)) None) in
  let es := [Observe (js "123") false; Observe (js "123") true;
             Settle 0 rejects; Timeout 0; Settle 0 o] in
  ∃ st, heap (mem (run es (initial key))) !! 0%nat = Some st
        ∧ todoistId st = js "123".
Proof.
  intros o es.
  assert (taskStates (mem (run es (initial key))) !! js "123" = Some 0%nat) as H
    by (vm_compute; reflexivity).
  exact (store_entries_carry_their_id key es (js "123") 0 H).
Defined.

(** X5: on every run of the event loop, the list persisted by
    [savePendingSyncs] holds at most one entry per task id. *)
Theorem persisted_ids_distinct (st0 : MyPluginSettings) (es : list Stimulus) :
  NoDup (e_todoistId <$> pendingSyncs (mem (run es (initial st0)))).
Proof.
  apply NoDup_pendingSyncs, filed_keyed.
  by destruct (steady_run es (initial st0) (steady_initial false st0))
    as ((Hf & _) & _).
Qed.



(** ** Change events without effect *)

Lemma extractTodoistId_nonempty line : extractTodoistId line ≠ Some [].
Proof.
  unfold extractTodoistId.
  destruct (Regex.search TODOIST_ID_REGEX line) as [[id|]|] eqn:Hs; [|done..].
  apply search_Some in Hs as (pre & id' & post & [= ->] & (_ & Hne & _) & _).
  congruence.
Qed.

Lemma advance_updateState_quiet id checked s state st :
  taskStates (mem s) !! id = Some state →
  heap (mem s) !! state = Some st →
  synced st = true → checkboxState st = checked →
  advance (updateState id checked) s = (s, Finished tt).
Proof.
  intros Hid H Hs Hsame. unfold updateState, mbind, Prog_bind, mret, Prog_ret, get.
  cbn [bind advance]. rewrite Hid.
  advance_bind. rewrite (advance_readState _ _ _ H). cbv beta iota.
  advance_bind. rewrite Hsame, Bool.eqb_reflx. cbn [negb advance].
  advance_bind. rewrite (advance_readState _ _ _ H). cbv beta iota.
  by rewrite Hs.
Qed.

Lemma advance_forCheckboxes_quiet file checkboxes :
  ∀ lines s, Forall (quiet (mem s) lines) checkboxes →
    advance (forCheckboxes file lines checkboxes) s = (s, Finished tt).
Proof.
  induction checkboxes as [|checkbox rest IH]; intros lines s Hq; [done|].
  apply Forall_cons in Hq as [Hq Hrest].
  cbn [forCheckboxes]. unfold mbind, Prog_bind, mret, Prog_ret.
  unfold quiet in Hq. unfold handleCheckbox. cbv zeta in *.
  pose proof (extractTodoistId_nonempty (default [] (lines !! li_line checkbox))) as Hne.
  destruct (extractTodoistId _) as [[|c id]|]; [done| |].
  - destruct Hq as (state & st & Hid & H & Hs & Hc).
    cbn [bind advance].
    rewrite (advance_updateState_quiet _ _ _ _ _ Hid H Hs Hc). cbn [register].
    by apply IH.
  - rewrite Hq. cbn [bind]. by apply IH.
Qed.

(** X7: a change event in which every checkbox is either untracked and
    untagged or tracked, synced and unchanged has no effect at all: no
    call, no write to the store. An item that is no checkbox and a checkbox
    whose position is beyond the text are passed over as well. *)
Theorem changed_without_effect (file data : jstring)
    (listItems : option (list ListItem)) (s : Sys) :
  (∀ checkbox, checkbox ∈ default [] listItems → li_task checkbox ≠ None →
     quiet (mem s) (Str.split_lines data) checkbox) →
  step (Changed file data listItems) s = s.
Proof.
  intros Hq. cbn [step]. unfold start, onChanged. cbv zeta.
  rewrite advance_forCheckboxes_quiet; [done|].
  apply Forall_forall. intros checkbox [Ht Hin]%list_elem_of_filter. by apply Hq.
Qed.

Lemma changed_without_effect_witness :
  let s := step (Observe (js "123") true) (initial key) in
  step (Changed (js "todo.md")
          (js "- [x] Pay rent (*123*)" ++ [10%N] ++ js "- [ ] Plain item")
          (Some [mkItem 0 (Some (js "x")); mkItem 1 (Some (js " "));
                 mkItem 1 None; mkItem 7 (Some (js " "))])) s
  = s.
Proof.
  intros s. apply changed_without_effect.
  intros checkbox Hin Ht. cbn [default from_option id] in Hin.
  repeat (apply elem_of_cons in Hin as [->|Hin]); [..|by apply elem_of_nil in Hin].
  - exists 0%nat, (mkState (js "123") true true 0). by vm_compute.
  - by vm_compute.
  - done.
  - by vm_compute.
Defined.

(** ** A failure while a new task is created *)

(** X8: when creating the task, reading its project or writing the note
    fails, the change handler stops there: it throws, the store is left as
    it was, no state is recorded for the new task, and the checkboxes
    further down are not looked at. *)
Theorem new_task_failure_stops_handler (ω : nat → Oracle) (s : Sys)
    (file : jstring) (lines : list jstring) (checkbox : ListItem)
    (rest : list ListItem) (line : jstring) :
  let n := length (history s) in
  let add := AddTask (taskContent line) in
  lines !! li_line checkbox = Some line →
  extractTodoistId line = None →
  Str.contains TAG line = true →
  (ω n add = Rejected →
   exec ω (forCheckboxes file lines (checkbox :: rest)) s = (logged add s, None))
  ∧ (∀ newTask,
       ω n add = Fulfilled newTask →
       ω (S n) (GetProject (t_projectId newTask)) = Rejected →
       exec ω (forCheckboxes file lines (checkbox :: rest)) s
       = (logged (GetProject (t_projectId newTask)) (logged add s), None))
  ∧ (∀ newTask project,
       ω n add = Fulfilled newTask →
       ω (S n) (GetProject (t_projectId newTask)) = Fulfilled project →
       (∀ data, ω (S (S n)) (VaultModify file data) = Rejected) →
       ∃ data,
         exec ω (forCheckboxes file lines (checkbox :: rest)) s
         = (logged (VaultModify file data)
              (logged (GetProject (t_projectId newTask)) (logged add s)), None)).
Proof.
  intros n add Hline Hid Htag.
  assert (∀ f : list jstring → Prog unit,
    exec ω (bind (handleCheckbox file lines checkbox) f) s
    = exec ω (bind (bind (await add) (λ newTask,
         bind (await (GetProject (t_projectId newTask))) (λ project,
           let projectName :=
             match project with Some p => p_name p | None => js "Inbox" end in
           let newLine := rewrittenLine line projectName newTask in
           let lines' := <[li_line checkbox := newLine]> lines in
           bind (await (VaultModify file (Str.join [10%N] lines'))) (λ _,
             Fork (updateState (t_id newTask)
                     (bool_decide (li_task checkbox = Some (js "x"))))
               (Ret lines'))))) f) s) as Hhandle.
  { intros f. unfold handleCheckbox, mbind, Prog_bind, mret, Prog_ret.
    cbv zeta. rewrite Hline. cbn [default from_option id]. by rewrite Hid, Htag. }
  cbn [forCheckboxes]. unfold mbind, Prog_bind. rewrite Hhandle.
  split; [|split].
  - intros Hadd. do 2 exec_bind. rewrite (exec_await ω add).
    fold n. by rewrite Hadd.
  - intros newTask Hadd Hproject. do 2 exec_bind. rewrite (exec_await ω add).
    fold n. rewrite Hadd. cbv beta iota.
    exec_bind. rewrite (exec_await ω (GetProject (t_projectId newTask))).
    cbn [logged history]. rewrite length_app. cbn [length].
    replace (length (history s) + 1)%nat with (S n) by (subst n; lia).
    by rewrite Hproject.
  - intros newTask project Hadd Hproject Hmodify. eexists.
    do 2 exec_bind. rewrite (exec_await ω add).
    fold n. rewrite Hadd. cbv beta iota.
    exec_bind. rewrite (exec_await ω (GetProject (t_projectId newTask))).
    cbn [logged history]. rewrite length_app. cbn [length].
    replace (length (history s) + 1)%nat with (S n) by (subst n; lia).
    rewrite Hproject. cbv beta iota zeta.
    exec_bind. rewrite (exec_await ω (VaultModify file _)).
    cbn [logged history]. rewrite !length_app. cbn [length].
    replace (length (history s) + 1 + 1)%nat with (S (S n)) by (subst n; lia).
    by rewrite Hmodify.
Qed.

Lemma new_task_failure_stops_handler_witness :
  let ω := λ n : nat, if (n <? 1)%nat then serves (healthy None None) else rejects in
  let line := js "- [ ] Buy milk #todoist" in
  let lines := [line; js "- [x] Pay rent (*123*)"] in
  let checkbox := mkItem 0 (Some (js " ")) in
  let rest := [mkItem 1 (Some (js "x"))] in
  let add := AddTask (taskContent line) in
  let newTask := mkTask (js "42") (js "2001") [js "home"] None in
  exec ω (forCheckboxes (js "todo.md") lines (checkbox :: rest)) (initial key)
  = (logged (GetProject (t_projectId newTask)) (logged add (initial key)), None).
Proof.
  intros ω line lines checkbox rest add newTask.
  exact (proj1 (proj2 (new_task_failure_stops_handler ω (initial key) (js "todo.md")
                         lines checkbox rest line eq_refl eq_refl eq_refl))
           newTask eq_refl eq_refl).
Defined.

(** ** Restoring when nothing was persisted *)

(** X9: when the plugin data is missing, or holds no [pendingSyncs], or
    holds an empty list, the restore only loads the data: the store is left
    as it was and no sync attempt starts. When loading the data fails, the
    restore throws, with the same store. *)
Theorem restore_without_entries (ω : nat → Oracle) (s : Sys) :
  match ω (length (history s)) LoadData with
  | Rejected => exec ω restorePendingSyncs s = (logged LoadData s, None)
  | Fulfilled None => exec ω restorePendingSyncs s = (logged LoadData s, Some tt)
  | Fulfilled (Some d) =>
      l_pendingSyncs d = None ∨ l_pendingSyncs d = Some [] →
      exec ω restorePendingSyncs s = (logged LoadData s, Some tt)
  end.
Proof.
  unfold restorePendingSyncs, mbind, Prog_bind.
  exec_bind. rewrite (exec_await ω LoadData).
  destruct (ω _ LoadData) as [[d|]|]; [|done..].
  by intros [-> | ->].
Qed.

(** ** The retry timer *)

(** X10: when a retry timer fires, the timer is gone; if the state was synced
    in the meantime nothing else happens, otherwise exactly one attempt
    starts, with the fetch of the task of that state. *)
Theorem timer_checks_synced (s : Sys) (i : nat) (delay : Z) (state : nat)
    (st : State) :
  timers (mem s) !! i = Some (delay, state) →
  heap (mem s) !! state = Some st →
  let s1 := on_mem (λ m, with_timers (delete i (timers m)) m) s in
  if synced st then step (Timeout i) s = s1
  else ∃ k, step (Timeout i) s
            = mkSys (mem s1) (pool s ++ [mkPending (GetTask (todoistId st)) k])
                (history s ++ [GetTask (todoistId st)]) (unhandled s).
Proof.
  intros Hi H s1. cbn [step]. rewrite Hi. fold (on_mem (λ m, with_timers (delete i (timers m)) m) s).
  fold s1. assert (heap (mem s1) !! state = Some st) as H1 by done.
  assert (advance (timerCallback state) s1
          = if synced st then (s1, Finished tt)
            else let '(s2, o2) := advance (syncState state) s1 in
                 (register o2 s2, Finished tt)) as Hadv.
  { unfold timerCallback, mbind, Prog_bind, mret, Prog_ret.
    advance_bind. rewrite (advance_readState _ _ _ H1). cbv beta iota.
    by destruct (synced st). }
  unfold start. rewrite Hadv. destruct (synced st); [done|].
  destruct (start_syncState state s1 st H1) as (k & Hk). exists k.
  unfold start in Hk.
  destruct (advance (syncState state) s1) as [s2 o2]. cbn [register].
  by rewrite Hk.
Qed.

Lemma timer_checks_synced_witness :
  let s := run [Observe (js "123") false; Observe (js "123") true;
                Settle 0 rejects; Observe (js "123") false;
                Settle 0 (serves (healthy (Some (task123 None)) None))]
             (initial key) in
  step (Timeout 0) s = on_mem (λ m, with_timers (delete 0%nat (timers m)) m) s.
Proof.
  intros s.
  exact (timer_checks_synced s 0 10000 0 (mkState (js "123") false true 0)
           eq_refl eq_refl).
Defined.

(** ** Observations of an unsynced task *)

(** X11: an observation of a task that is in the store but not synced starts
    one more attempt for it even when the box shows the stored value: the
    state is left as it is (the count of failed attempts is kept) and the
    fetch is issued, whether or not an attempt is in flight or a retry is
    scheduled. *)
Theorem observe_unsynced_starts_attempt (s : Sys) (id : jstring) (state : nat)
    (st : State) :
  taskStates (mem s) !! id = Some state →
  heap (mem s) !! state = Some st →
  synced st = false →
  ∃ k, step (Observe id (checkboxState st)) s
       = mkSys (mem s) (pool s ++ [mkPending (GetTask (todoistId st)) k])
           (history s ++ [GetTask (todoistId st)]) (unhandled s).
Proof.
  intros Hid H Hs. destruct (start_syncState state s st H) as (k & Hk).
  exists k. rewrite <- Hk.
  unfold step, start, updateState, mbind, Prog_bind, mret, Prog_ret, get.
  cbn [bind advance]. rewrite Hid.
  advance_bind. rewrite (advance_readState _ _ _ H). cbv beta iota.
  advance_bind. rewrite Bool.eqb_reflx. cbn [negb advance].
  advance_bind. rewrite (advance_readState _ _ _ H). cbv beta iota.
  by rewrite Hs.
Qed.

Lemma observe_unsynced_starts_attempt_witness :
  let s := run [Observe (js "123") false; Observe (js "123") true] (initial key) in
  ∃ k, step (Observe (js "123") true) s
       = mkSys (mem s)
           (pool s ++ [mkPending (GetTask (js "123")) k])
           (history s ++ [GetTask (js "123")]) (unhandled s).
Proof.
  intros s.
  exact (observe_unsynced_starts_attempt s (js "123") 0
           (mkState (js "123") true false 0) eq_refl eq_refl eq_refl).
Defined.

Lemma syncState_steps_witness :
  let s0 := run [Observe (js "123") false] (initial key) in
  ∃ k, advance (syncState 0) s0 = (s0, Waiting (GetTask (js "123")) k)
    ∧ ∀ s st, heap (mem s) !! 0%nat = Some st →
        advance (k Rejected) s = (on_mem (markFailed 0 st) s, Finished tt)
        ∧ advance (k (Fulfilled None)) s = (s, Finished tt)
        ∧ ∀ task,
            match mutation st task with
            | None =>
                advance (k (Fulfilled (Some task))) s
                = (on_mem (markSynced 0 st) s, Finished tt)
            | Some c =>
                ∃ k', advance (k (Fulfilled (Some task))) s = (s, Waiting c k')
                  ∧ ∀ s' st', heap (mem s') !! 0%nat = Some st' →
                      advance (k' Rejected) s'
                      = (on_mem (markFailed 0 st') s', Finished tt)
                      ∧ ∀ v, advance (k' (Fulfilled v)) s'
                             = (on_mem (markSynced 0 st') s', Finished tt)
            end.
Proof.
  intros s0.
  exact (syncState_steps 0 s0 (mkState (js "123") false true 0) eq_refl).
Defined.

(** ** Id markers in concatenated text *)

Lemma marker_chars (id : jstring) :
  Forall (λ c, alnum c = true) id →
  Forall (λ c, marker_char c = true) (js "(*" ++ id ++ js "*)").
Proof.
  intros Hid. repeat apply Forall_app_2 || apply Forall_cons_2 || apply Forall_nil_2;
    try reflexivity.
  eapply Forall_impl; [exact Hid|]. intros c Hc. unfold marker_char. by rewrite Hc.
Qed.

(** A marker in [a ++ b] lies in [a], lies in [b], or is cut in two. *)
Lemma marker_app_cases (a b pre id post : jstring) :
  marker_at (a ++ b) pre id post →
  (∃ post', marker_at a pre id post' ∧ post = post' ++ b)
  ∨ (∃ pre', marker_at b pre' id post ∧ pre = a ++ pre')
  ∨ (∃ x y, x ≠ [] ∧ y ≠ [] ∧ js "(*" ++ id ++ js "*)" = x ++ y
            ∧ a = pre ++ x ∧ b = y ++ post).
Proof.
  intros (Heq & Hne & Hal).
  set (M := js "(*" ++ id ++ js "*)").
  assert (∀ p q l, l = p ++ M ++ q → marker_at l p id q) as Hmk.
  { intros p q l ->. split; [|done]. subst M. by rewrite <- !app_assoc. }
  assert (a ++ b = pre ++ M ++ post) as Heq'
    by (rewrite Heq; subst M; by rewrite <- !app_assoc).
  clear Heq.
  apply app_eq_inv in Heq' as [(k & Ha & Hk)|(k & Hpre & Hb)].
  - apply app_eq_inv in Hk as [(k2 & Hm & Hb)|(k2 & Hk & Hpost)].
    + destruct k as [|c k].
      * right; left. exists []. rewrite app_nil_r in *. split; [|done].
        apply Hmk. cbn [app] in Hm. by rewrite Hb, <- Hm.
      * destruct k2 as [|c2 k2].
        -- left. exists []. rewrite !app_nil_r in *. cbn [app] in Hb.
           split; [|done]. apply Hmk. by rewrite app_nil_r, Ha, Hm.
        -- right; right. exists (c :: k), (c2 :: k2). done.
    + left. exists k2. split; [|done]. apply Hmk. by rewrite Ha, Hk.
  - right; left. exists k. split; [|done]. by apply Hmk.
Qed.

Lemma unmarked_app_l (a b : jstring) : unmarked (a ++ b) → unmarked a.
Proof.
  intros Hno (pre & id & post & -> & Hne & Hal). apply Hno.
  exists pre, id, (post ++ b). split; [|done]. by rewrite <- !app_assoc.
Qed.

Lemma unmarked_app_r (a b : jstring) : unmarked (a ++ b) → unmarked b.
Proof.
  intros Hno (pre & id & post & -> & Hne & Hal). apply Hno.
  exists (a ++ pre), id, post. split; [|done]. by rewrite <- !app_assoc.
Qed.

Lemma unmarked_no_paren (a : jstring) : 40%N ∉ a → unmarked a.
Proof.
  intros Hno (pre & id & post & -> & _). apply Hno.
  apply elem_of_app. right. by left.
Qed.

(** Text without an opening parenthesis in front of unmarked text. *)
Lemma unmarked_after_no_paren (a b : jstring) :
  40%N ∉ a → unmarked b → unmarked (a ++ b).
Proof.
  intros Ha Hb (pre & id & post & Hm).
  apply marker_app_cases in Hm as [(post' & Hm & _)|[(pre' & Hm & _)|Hcut]].
  - by apply (unmarked_no_paren a Ha); eauto.
  - apply Hb; eauto.
  - destruct Hcut as (x & y & Hx & _ & Hxy & -> & _).
    destruct x as [|c x]; [done|]. cbn in Hxy. injection Hxy as <- _.
    apply Ha. apply elem_of_app. right. by left.
Qed.

(** Unmarked text in front of unmarked text that starts with a code unit
    no marker goes on with. *)
Lemma unmarked_before (a b : jstring) :
  unmarked a → unmarked b →
  (∀ c b', b = c :: b' → marker_char c = false) →
  unmarked (a ++ b).
Proof.
  intros Ha Hb Hhead (pre & id & post & Hm).
  pose proof Hm as (_ & _ & Hal).
  apply marker_app_cases in Hm as [(post' & Hm & _)|[(pre' & Hm & _)|Hcut]].
  - apply Ha; eauto.
  - apply Hb; eauto.
  - destruct Hcut as (x & y & _ & Hy & Hxy & _ & ->).
    destruct y as [|c y]; [done|].
    pose proof (marker_chars id Hal) as Hch. rewrite Hxy in Hch.
    apply Forall_app in Hch as [_ Hch]. apply Forall_cons in Hch as [Hc _].
    rewrite (Hhead c (y ++ post)) in Hc; done.
Qed.

(** The marker appended to unmarked text that ends with a blank is the
    one [extractTodoistId] finds. *)
Lemma extract_appended_marker (text id : jstring) :
  unmarked (text ++ [32%N]) → id ≠ [] → Forall (λ c, alnum c = true) id →
  extractTodoistId (text ++ js " (*" ++ id ++ js "*)") = Some id.
Proof.
  intros Hno Hne Hal. unfold extractTodoistId.
  assert (Regex.search TODOIST_ID_REGEX (text ++ js " (*" ++ id ++ js "*)")
          = Some (Some id)) as ->; [|done].
  apply (proj2 (search_Some _ _)). exists (text ++ [32%N]), id, [].
  split; [done|]. split.
  { split; [|done]. by rewrite <- !app_assoc. }
  intros pre' id' post' Hm.
  destruct (decide (length (text ++ [32%N]) ≤ length pre')) as [|Hlt]; [done|].
  exfalso.
  replace (text ++ js " (*" ++ id ++ js "*)")
    with ((text ++ [32%N]) ++ (js "(*" ++ id ++ js "*)")) in Hm
    by (by rewrite <- !app_assoc).
  pose proof Hm as (_ & _ & Hal').
  apply marker_app_cases in Hm as [(post0 & Hm & _)|[(pre0 & _ & ->)|Hcut]].
  - apply Hno; eauto.
  - rewrite !length_app in Hlt. lia.
  - destruct Hcut as (x & y & Hx & _ & Hxy & Htext & _).
    pose proof (marker_chars id' Hal') as Hch. rewrite Hxy in Hch.
    apply Forall_app in Hch as [Hch _].
    destruct (exists_last Hx) as (x' & c & ->).
    rewrite app_assoc in Htext. apply app_inj_tail in Htext as [_ <-].
    apply Forall_app in Hch as [_ Hch]. apply Forall_cons in Hch as [Hc _].
    discriminate Hc.
Qed.

Lemma extract_None_unmarked (line : jstring) :
  extractTodoistId line = None → unmarked line.
Proof.
  unfold extractTodoistId. intros H. apply search_None.
  destruct (Regex.search TODOIST_ID_REGEX line) as [[id|]|] eqn:Hs; [done| |done].
  by apply search_Some in Hs as (pre & id & post & [=] & _).
Qed.

Lemma label_tags_no_paren (labels : list jstring) :
  (∀ label, label ∈ labels → 40%N ∉ label) →
  40%N ∉ Str.join (js " ") ((λ label, js "#todoist/" ++ label) <$> labels).
Proof.
  assert (∀ label, 40%N ∉ label → 40%N ∉ js "#todoist/" ++ label) as Htag.
  { intros label Hl Hin. apply elem_of_app in Hin as [Hin|Hin]; [|done].
    vm_compute in Hin. repeat (apply elem_of_cons in Hin as [Hin|Hin]; [done|]).
    by apply elem_of_nil in Hin. }
  induction labels as [|label labels IH]; intros Hl; [by intros ?%elem_of_nil|].
  cbn [fmap list_fmap Str.join].
  destruct labels as [|label2 labels].
  - apply Htag, Hl. by left.
  - cbn [fmap list_fmap] in *. intros Hin.
    apply elem_of_app in Hin as [Hin|Hin]; [by apply (Htag label); [apply Hl; left|]|].
    apply elem_of_app in Hin as [Hin|Hin].
    + vm_compute in Hin. apply elem_of_cons in Hin as [Hin|Hin]; [done|].
      by apply elem_of_nil in Hin.
    + apply IH; [|done]. intros l Hin'. apply Hl. by right.
Qed.

Lemma label_tags_head (labels : list jstring) c rest :
  Str.join (js " ") ((λ label, js "#todoist/" ++ label) <$> labels) ++ [32%N]
  = c :: rest →
  marker_char c = false.
Proof.
  destruct labels as [|label labels]; cbn [fmap list_fmap Str.join].
  - by intros [= <- _].
  - destruct (_ <$> labels); by intros [= <- _].
Qed.

(** X12: the line the change handler writes for a new task is recognised
    as tracked at the next change: when the line had no marker, the project
    name holds no dollar sign and neither it nor a label holds an opening
    parenthesis, [extractTodoistId] finds the id of the new task in the
    rewritten line. *)
Theorem rewritten_line_is_tracked (line projectName : jstring) (newTask : Task) :
  extractTodoistId line = None →
  36%N ∉ projectName → 40%N ∉ projectName →
  (∀ label, label ∈ t_labels newTask → 40%N ∉ label) →
  t_id newTask ≠ [] → Forall (λ c, alnum c = true) (t_id newTask) →
  extractTodoistId (rewrittenLine line projectName newTask) = Some (t_id newTask).
Proof.
  intros Hline Hdollar Hparen Hlabels Hne Hal. unfold rewrittenLine. cbv zeta.
  set (labels := Str.join _ _).
  rewrite app_assoc. apply extract_appended_marker; [|done..].
  rewrite <- app_assoc.
  apply extract_None_unmarked in Hline.
  assert (unmarked (labels ++ [32%N])) as HL.
  { apply unmarked_no_paren. intros Hin.
    apply elem_of_app in Hin as [Hin|Hin].
    - by apply (label_tags_no_paren (t_labels newTask)).
    - apply list_elem_of_singleton in Hin. discriminate. }
  assert (∀ c rest, labels ++ [32%N] = c :: rest → marker_char c = false) as Hhead
    by (intros c rest; apply label_tags_head).
  assert (∀ c : N, c ∈ js "#todoist/" → c ≠ 36%N ∧ c ≠ 40%N) as Hprefix.
  { intros c Hin. vm_compute in Hin.
    repeat (apply elem_of_cons in Hin as [->|Hin]; [done|]).
    by apply elem_of_nil in Hin. }
  destruct (Str.contains TAG line) eqn:Htag.
  - destruct (replace_first TAG (js "#todoist/" ++ projectName) line Htag)
      as (before & after & Heq & _ & ->).
    { intros [Hin|Hin]%elem_of_app; [by destruct (Hprefix _ Hin)|done]. }
    rewrite Heq in Hline. rewrite <- !app_assoc.
    apply unmarked_before; [by apply unmarked_app_l in Hline| |by intros c b' [= <- _]].
    rewrite app_assoc. apply unmarked_after_no_paren.
    { intros [Hin|Hin]%elem_of_app; [by destruct (Hprefix _ Hin)|done]. }
    apply unmarked_before; [|done..].
    by apply unmarked_app_r, unmarked_app_r in Hline.
  - unfold Str.contains in Htag. unfold Str.replace.
    destruct (Str.index_of TAG line); [done|].
    by apply unmarked_before.
Qed.

Lemma rewritten_line_is_tracked_witness :
  extractTodoistId
    (rewrittenLine (js "- [ ] Buy milk #todoist") (js "Work")
       (mkTask (js "42") (js "2001") [js "home"] None))
  = Some (js "42").
Proof.
  apply (rewritten_line_is_tracked (js "- [ ] Buy milk #todoist") (js "Work")
           (mkTask (js "42") (js "2001") [js "home"] None)).
  - reflexivity.
  - vm_compute. intros Hin.
    repeat (apply elem_of_cons in Hin as [Hin|Hin]; [done|]). by apply elem_of_nil in Hin.
  - vm_compute. intros Hin.
    repeat (apply elem_of_cons in Hin as [Hin|Hin]; [done|]). by apply elem_of_nil in Hin.
  - intros label ->%list_elem_of_singleton. vm_compute. intros Hin.
    repeat (apply elem_of_cons in Hin as [Hin|Hin]; [done|]). by apply elem_of_nil in Hin.
  - done.
  - vm_compute. repeat constructor.
Defined.

(** ** The note written back *)

Lemma split_lines_from_cons (cur s : jstring) :
  ∃ l ls, Str.split_lines_from cur s = l :: ls.
Proof.
  revert cur. induction s as [|c s IH]; intros cur; cbn; [eauto|].
  destruct (N.eqb c 10); eauto.
Qed.

Lemma join_split_lines_from (cur s : jstring) :
  Str.join [10%N] (Str.split_lines_from cur s) = cur ++ s.
Proof.
  revert cur. induction s as [|c s IH]; intros cur; cbn [Str.split_lines_from].
  - cbn. by rewrite app_nil_r.
  - destruct (N.eqb_spec c 10) as [->|Hc].
    + destruct (split_lines_from_cons [] s) as (l & ls & Hs).
      specialize (IH []). rewrite Hs in *. cbn [Str.join] in *. by rewrite IH.
    + rewrite IH. by rewrite <- app_assoc.
Qed.

Lemma split_lines_from_no_newline (cur s : jstring) :
  10%N ∉ cur → Forall (λ l, 10%N ∉ l) (Str.split_lines_from cur s).
Proof.
  revert cur. induction s as [|c s IH]; intros cur Hcur; cbn [Str.split_lines_from].
  - by apply Forall_singleton.
  - destruct (N.eqb_spec c 10) as [->|Hc].
    + apply Forall_cons. split; [done|]. apply IH. by intros ?%elem_of_nil.
    + apply IH. intros [Hin|Hin]%elem_of_app; [done|].
      apply list_elem_of_singleton in Hin. congruence.
Qed.

Lemma join_head (x : jstring) (l2 : list jstring) :
  Str.join [10%N] (x :: l2) = x ++ concat ((λ l, 10%N :: l) <$> l2).
Proof.
  revert x. induction l2 as [|z l2 IH]; intros x.
  - cbn. by rewrite app_nil_r.
  - change (Str.join [10%N] (x :: z :: l2))
      with (x ++ [10%N] ++ Str.join [10%N] (z :: l2)).
    rewrite IH. done.
Qed.

(** [join] around one line: the text before it and the text after it. *)
Lemma join_middle (l1 l2 : list jstring) (x : jstring) :
  Str.join [10%N] (l1 ++ x :: l2)
  = concat ((λ l, l ++ [10%N]) <$> l1) ++ x ++ concat ((λ l, 10%N :: l) <$> l2).
Proof.
  induction l1 as [|y l1 IH].
  - apply join_head.
  - cbn [app fmap list_fmap concat].
    destruct (l1 ++ x :: l2) as [|z zs] eqn:Hz; [by destruct l1|].
    change (Str.join [10%N] (y :: z :: zs))
      with (y ++ [10%N] ++ Str.join [10%N] (z :: zs)).
    rewrite IH. by rewrite <- !app_assoc.
Qed.

Lemma count_line_ends (ls : list jstring) :
  Forall (λ l, 10%N ∉ l) ls →
  length (filter (λ c, c = 10%N) (concat ((λ l, l ++ [10%N]) <$> ls))) = length ls.
Proof.
  induction 1 as [|l ls Hl _ IH]; [done|].
  cbn [fmap list_fmap concat length]. rewrite !filter_app, !length_app, IH.
  assert (filter (λ c, c = 10%N) l = []) as ->.
  { clear -Hl. induction l as [|c l IHl]; [done|].
    rewrite filter_cons. case_decide as Hc.
    - subst c. exfalso. apply Hl. by left.
    - apply IHl. intros Hin. apply Hl. by right. }
  done.
Qed.

(** X13: the text handed to [vault.modify] is the text of the note with the
    line of the checkbox, and nothing else, replaced: the text before that
    line (which holds as many line ends as the line number says) and the
    text after it are those of the note. *)
Theorem written_note_changes_one_line (data line newLine : jstring) (i : nat) :
  Str.split_lines data !! i = Some line →
  ∃ pre post,
    data = pre ++ line ++ post
    ∧ Str.join [10%N] (<[i := newLine]> (Str.split_lines data))
      = pre ++ newLine ++ post
    ∧ length (filter (λ c, c = 10%N) pre) = i
    ∧ 10%N ∉ line.
Proof.
  intros Hi. pose proof (join_split_lines_from [] data) as Hjoin.
  pose proof (split_lines_from_no_newline [] data) as Hnl.
  fold (Str.split_lines data) in Hjoin, Hnl.
  specialize (Hnl ltac:(by intros ?%elem_of_nil)).
  set (lines := Str.split_lines data) in *.
  pose proof (take_drop_middle _ _ _ Hi) as Hsplit.
  exists (concat ((λ l, l ++ [10%N]) <$> take i lines)),
         (concat ((λ l, 10%N :: l) <$> drop (S i) lines)).
  split; [|split; [|split]].
  - rewrite <- join_middle, Hsplit. by rewrite Hjoin.
  - rewrite insert_take_drop by (by eapply lookup_lt_Some). apply join_middle.
  - rewrite count_line_ends by (by apply Forall_take).
    rewrite length_take. apply lookup_lt_Some in Hi. lia.
  - rewrite Forall_forall in Hnl. apply Hnl. by eapply list_elem_of_lookup_2.
Qed.

Lemma written_note_changes_one_line_witness :
  ∃ pre post,
    js "# Todo" ++ [10%N] ++ js "- [ ] Buy milk #todoist" ++ [10%N] ++ js "- [x] Done"
    = pre ++ js "- [ ] Buy milk #todoist" ++ post
    ∧ Str.join [10%N]
        (<[1%nat := js "- [ ] Buy milk #todoist/Work (*42*)"]>
           (Str.split_lines
              (js "# Todo" ++ [10%N] ++ js "- [ ] Buy milk #todoist" ++ [10%N]
               ++ js "- [x] Done")))
      = pre ++ js "- [ ] Buy milk #todoist/Work (*42*)" ++ post
    ∧ length (filter (λ c, c = 10%N) pre) = 1%nat
    ∧ 10%N ∉ js "- [ ] Buy milk #todoist".
Proof.
  exact (written_note_changes_one_line
           (js "# Todo" ++ [10%N] ++ js "- [ ] Buy milk #todoist" ++ [10%N]
            ++ js "- [x] Done")
           (js "- [ ] Buy milk #todoist")
           (js "- [ ] Buy milk #todoist/Work (*42*)") 1 eq_refl).
Defined.

(** ** The query of a code block *)

Lemma trim_start_cases (s : jstring) :
  Str.trim_start s = [] ∨ ∃ c r, Str.trim_start s = c :: r ∧ Str.is_space c = false.
Proof.
  induction s as [|c s IH]; [by left|]. cbn.
  destruct (Str.is_space c) eqn:Hc; [done|]. right. eauto.
Qed.

Lemma trim_start_suffix (s : jstring) :
  ∃ sp, s = sp ++ Str.trim_start s.
Proof.
  induction s as [|c s (sp & IH)]; [by exists []|]. cbn.
  destruct (Str.is_space c); [|by exists []].
  exists (c :: sp). cbn. by rewrite <- IH.
Qed.

Lemma trim_start_fixed (c : N) (r : jstring) :
  Str.is_space c = false → Str.trim_start (c :: r) = c :: r.
Proof. intros Hc. cbn. by rewrite Hc. Qed.

(** What [trim] yields is empty or begins and ends with code units that
    are not white space. *)
Lemma trim_cases (s : jstring) :
  Str.trim s = []
  ∨ ∃ c r c' r', Str.trim s = c :: r ∧ Str.is_space c = false
      ∧ rev (Str.trim s) = c' :: r' ∧ Str.is_space c' = false.
Proof.
  unfold Str.trim, Str.trim_end.
  destruct (trim_start_cases s) as [->|(c & r & Ht & Hc)]; [by left|].
  rewrite Ht.
  destruct (trim_start_cases (rev (c :: r))) as [->|(c' & r' & Ht' & Hc')]; [by left|].
  right. rewrite Ht', rev_involutive.
  destruct (trim_start_suffix (rev (c :: r))) as (sp & Hsp). rewrite Ht' in Hsp.
  apply (f_equal (@rev N)) in Hsp. rewrite rev_involutive, rev_app_distr in Hsp.
  destruct (rev (c' :: r')) as [|d u] eqn:Hu.
  { apply (f_equal (@rev N)) in Hu. rewrite rev_involutive in Hu. discriminate. }
  cbn [app] in Hsp. injection Hsp as <- _. eauto 10.
Qed.

Lemma trim_idempotent (s : jstring) : Str.trim (Str.trim s) = Str.trim s.
Proof.
  destruct (trim_cases s) as [->|(c & r & c' & r' & Ht & Hc & Hr & Hc')]; [done|].
  rewrite Ht in *. unfold Str.trim at 1, Str.trim_end.
  rewrite (trim_start_fixed c r Hc), Hr, (trim_start_fixed c' r' Hc').
  by rewrite <- Hr, rev_involutive.
Qed.

Lemma queryOf_last (lines : list jstring) :
  ∀ query,
    CodeBlock.queryOf query lines
    = from_option (λ t, Str.trim (drop 7 t)) query
        (last (filter (λ t, Str.starts_with CodeBlock.FILTER t = true)
                 (Str.trim <$> lines))).
Proof.
  induction lines as [|line lines IH]; intros query; [done|].
  cbn [CodeBlock.queryOf fmap list_fmap]. cbv zeta. rewrite IH.
  rewrite filter_cons. case_decide as Hf.
  - rewrite Hf, last_cons. by destruct (last _).
  - by destruct (Str.starts_with CodeBlock.FILTER (Str.trim line)).
Qed.

(** X14: the query of a code block is the text after [filter:] of its last
    filter line, trimmed, and [today | overdue] when the block has no
    filter line; it never begins or ends with white space. *)
Theorem filterQuery_last_filter_line (source : jstring) :
  CodeBlock.filterQuery source
  = from_option (λ t, Str.trim (drop 7 t)) (js "today | overdue")
      (last (filter (λ t, Str.starts_with (js "filter:") t = true)
               (Str.trim <$> Str.split_lines (Str.trim source))))
  ∧ Str.trim (CodeBlock.filterQuery source) = CodeBlock.filterQuery source.
Proof.
  unfold CodeBlock.filterQuery. rewrite queryOf_last. split; [done|].
  destruct (last _); cbn [from_option]; [apply trim_idempotent|reflexivity].
Qed.

(** ** The tags of a task *)

Lemma dash_spaces_from_no_space (in_run : bool) (s : jstring) :
  Forall (λ c, Str.is_space c = false) (CodeBlock.dash_spaces_from in_run s).
Proof.
  revert in_run. induction s as [|c s IH]; intros in_run; cbn; [done|].
  destruct (Str.is_space c) eqn:Hc.
  - destruct in_run; [done|]. by apply Forall_cons.
  - by apply Forall_cons.
Qed.

Lemma dash_spaces_from_keeps (in_run : bool) (s : jstring) (c : N) :
  c ∈ CodeBlock.dash_spaces_from in_run s → c = 45%N ∨ c ∈ s.
Proof.
  revert in_run. induction s as [|d s IH]; intros in_run; cbn; [by intros ?%elem_of_nil|].
  destruct (Str.is_space d).
  - destruct in_run.
    + intros [?|?]%IH; [by left|right; by right].
    + intros [->|[?|?]%IH]%elem_of_cons; [by left|by left|right; by right].
  - intros [->|[?|?]%IH]%elem_of_cons; [right; by left|by left|right; by right].
Qed.

(** X15: [buildTags] yields one tag for the project and one for each label
    of the task, every tag begins with [#todoist], and no tag holds white
    space, whatever the names of the project and of the labels. *)
Theorem buildTags_tags (O : CodeBlock.Outside) (task : CodeBlock.ListedTask)
    (w w' : CodeBlock.World) (tags : list jstring) :
  CodeBlock.buildTags O task w = (w', CodeBlock.Ok tags) →
  length tags = S (length (CodeBlock.lt_labels task))
  ∧ Forall (λ tag, Str.starts_with (js "#todoist") tag = true
                   ∧ Forall (λ c, Str.is_space c = false) tag) tags.
Proof.
  assert (∀ name, Str.starts_with (js "#todoist")
                     (js "#todoist" ++ js "/" ++ CodeBlock.dash_spaces name) = true
                  ∧ Forall (λ c, Str.is_space c = false)
                      (js "#todoist" ++ js "/" ++ CodeBlock.dash_spaces name)) as Htag.
  { intros name. split; [reflexivity|].
    apply Forall_app. split; [by vm_compute; repeat constructor|].
    apply Forall_app. split; [by vm_compute; repeat constructor|].
    apply dash_spaces_from_no_space. }
  assert (Forall (λ tag, Str.starts_with (js "#todoist") tag = true
                         ∧ Forall (λ c, Str.is_space c = false) tag)
            ((λ taskLabel, js "#todoist" ++ js "/" ++ CodeBlock.dash_spaces taskLabel)
               <$> CodeBlock.lt_labels task)) as Hlabels.
  { apply Forall_fmap, Forall_forall. intros label _. apply Htag. }
  unfold CodeBlock.buildTags, CodeBlock.bindM, CodeBlock.ret, CodeBlock.getProject.
  cbv zeta. destruct (CodeBlock.lt_projectId task) as [|c pid].
  - intros [= <- <-]. cbn [length]. rewrite length_fmap. split; [done|].
    apply Forall_cons. split; [|done]. split; [reflexivity|].
    by vm_compute; repeat constructor.
  - destruct (CodeBlock.projectById O _ _) as [project|e]; [|done].
    intros [= <- <-]. cbn [length]. rewrite length_fmap. split; [done|].
    apply Forall_cons. split; [apply Htag|done].
Qed.

Lemma buildTags_tags_witness :
  let O := CodeBlock.mkOutside (λ _ _, CodeBlock.Ok [])
             (λ _ _, CodeBlock.Ok (mkProject (js "Home  improvement"))) (λ _, false) in
  let task := CodeBlock.mkListed (js "42") (js "Paint") (js "2001")
                [js "this week"] None in
  let tags := [js "#todoist/Home-improvement"; js "#todoist/this-week"] in
  length tags = 2%nat
  ∧ Forall (λ tag, Str.starts_with (js "#todoist") tag = true
                   ∧ Forall (λ c, Str.is_space c = false) tag) tags.
Proof.
  intros O task tags.
  exact (buildTags_tags O task (CodeBlock.mkWorld (CodeBlock.mkButton false []) ∅ [] [])
           _ tags eq_refl).
Defined.

(** ** Replacing the code block *)

Lemma lazy_until_index_of (pat input : jstring) :
  CodeBlock.lazy_until pat input
  = (λ i, i + length pat)%nat <$> Str.index_of pat input.
Proof.
  induction input as [|c input IH]; cbn [CodeBlock.lazy_until Str.index_of].
  - by destruct (Str.starts_with pat []).
  - destruct (Str.starts_with pat (c :: input)); [done|].
    rewrite IH. by destruct (Str.index_of pat input).
Qed.

Lemma index_of_None_drop (pat s : jstring) (k : nat) :
  Str.index_of pat s = None → Str.index_of pat (drop k s) = None.
Proof.
  revert k. induction s as [|c s IH]; intros k Hs.
  - by rewrite drop_nil.
  - destruct k as [|k]; [done|]. cbn [drop]. apply IH.
    cbn [Str.index_of] in Hs. destruct (Str.starts_with pat (c :: s)); [done|].
    by destruct (Str.index_of pat s).
Qed.

(** The leftmost match starts at the first [OPEN], provided three
    backquotes follow somewhere. *)
Lemma search_block_index (content : jstring) :
  CodeBlock.search_block content
  = match Str.index_of CodeBlock.OPEN content with
    | Some i =>
        (λ j, (i, 10 + (j + 3))%nat)
          <$> Str.index_of CodeBlock.FENCE (drop (i + 10) content)
    | None => None
    end.
Proof.
  induction content as [|c content IH].
  - reflexivity.
  - cbn [CodeBlock.search_block Str.index_of]. unfold CodeBlock.block_here.
    destruct (Str.starts_with CodeBlock.OPEN (c :: content)) eqn:Hopen.
    + rewrite lazy_until_index_of. change (length CodeBlock.OPEN) with 10%nat.
      change (length CodeBlock.FENCE) with 3%nat. cbn [Nat.add].
      destruct (Str.index_of CodeBlock.FENCE (drop 10 (c :: content))) as [j|] eqn:Hj;
        cbn [fmap option_fmap option_map]; [done|].
      rewrite IH. destruct (Str.index_of CodeBlock.OPEN content) as [i|]; [|done].
      replace (drop (i + 10) content) with (drop (S i) (drop 10 (c :: content))).
      { by rewrite index_of_None_drop. }
      rewrite drop_drop. cbn [drop Nat.add]. f_equal. lia.
    + rewrite IH. destruct (Str.index_of CodeBlock.OPEN content) as [i|]; [|done].
      cbn [fmap option_fmap option_map Nat.add drop].
      by destruct (Str.index_of CodeBlock.FENCE (drop (i + 10) content)).
Qed.

(** X16: [replaceCodeBlock] leaves a text without a complete [todoist]
    block as it is; otherwise it replaces the first block, which ends at
    the first three backquotes after its opening, and nothing else (the
    new text is taken literally when it holds no dollar sign). *)
Theorem replaceCodeBlock_first_block (markdown : jstring) :
  (∀ content,
     Str.index_of CodeBlock.OPEN content = None →
     CodeBlock.replaceCodeBlock markdown content = content)
  ∧ (∀ content i,
       Str.index_of CodeBlock.OPEN content = Some i →
       Str.index_of CodeBlock.FENCE (drop (i + 10) content) = None →
       CodeBlock.replaceCodeBlock markdown content = content)
  ∧ (∀ pre body post,
       Str.index_of CodeBlock.OPEN (pre ++ CodeBlock.OPEN ++ body ++ CodeBlock.FENCE ++ post)
       = Some (length pre) →
       Str.index_of CodeBlock.FENCE (body ++ CodeBlock.FENCE ++ post)
       = Some (length body) →
       36%N ∉ markdown →
       CodeBlock.replaceCodeBlock markdown
         (pre ++ CodeBlock.OPEN ++ body ++ CodeBlock.FENCE ++ post)
       = pre ++ markdown ++ post).
Proof.
  unfold CodeBlock.replaceCodeBlock. split; [|split].
  - intros content H. by rewrite search_block_index, H.
  - intros content i H Hf. by rewrite search_block_index, H, Hf.
  - intros pre body post H Hf Hd. rewrite search_block_index, H.
    assert (drop (length pre + 10) (pre ++ CodeBlock.OPEN ++ body ++ CodeBlock.FENCE ++ post)
            = body ++ CodeBlock.FENCE ++ post) as Hdrop.
    { rewrite <- drop_drop, drop_app_length. done. }
    rewrite Hdrop, Hf. cbn [fmap option_fmap option_map]. cbv zeta.
    rewrite get_substitution_plain by done.
    rewrite take_app_length. f_equal. f_equal.
    replace (length pre + (10 + (length body + 3)))%nat
      with (length pre + (length (CodeBlock.OPEN ++ body ++ CodeBlock.FENCE)))%nat
      by (rewrite !length_app; change (length CodeBlock.OPEN) with 10%nat;
          change (length CodeBlock.FENCE) with 3%nat; lia).
    rewrite <- drop_drop, drop_app_length.
    replace (CodeBlock.OPEN ++ body ++ CodeBlock.FENCE ++ post)
      with ((CodeBlock.OPEN ++ body ++ CodeBlock.FENCE) ++ post)
      by (by rewrite <- !app_assoc).
    by rewrite drop_app_length.
Qed.

Example replaceCodeBlock_values :
  CodeBlock.replaceCodeBlock (js "- [ ] Buy milk (*42*)" ++ [10%N])
    (js "# Today" ++ [10%N] ++ js "```todoist" ++ [10%N] ++ js "filter: p1"
     ++ [10%N] ++ js "```" ++ [10%N] ++ js "```todoist" ++ [10%N] ++ js "```")
  = js "# Today" ++ [10%N] ++ js "- [ ] Buy milk (*42*)" ++ [10%N] ++ [10%N]
    ++ js "```todoist" ++ [10%N] ++ js "```"
  ∧ CodeBlock.replaceCodeBlock (js "- [ ] Pay $$5 (*42*)") (js "```todoist```")
    = js "- [ ] Pay $5 (*42*)".
Proof. vm_compute. split; reflexivity. Qed.

(** ** A click on the button *)

Lemma onlyAsked_refl w : onlyAsked w w.
Proof. split; [done|]. split; [done|]. split; [done|]. exists []. by rewrite app_nil_r. Qed.

Lemma onlyAsked_trans w1 w2 w3 : onlyAsked w1 w2 → onlyAsked w2 w3 → onlyAsked w1 w3.
Proof.
  intros (Hb & Hv & Ht & ids & Hr) (Hb' & Hv' & Ht' & ids' & Hr').
  split; [congruence|]. split; [congruence|]. split; [congruence|].
  exists (ids ++ ids'). by rewrite Hr', Hr, fmap_app, app_assoc.
Qed.

Lemma buildTags_onlyAsked O task w :
  onlyAsked w (CodeBlock.buildTags O task w).1.
Proof.
  unfold CodeBlock.buildTags, CodeBlock.bindM, CodeBlock.ret, CodeBlock.getProject.
  cbv zeta. destruct (CodeBlock.lt_projectId task) as [|c pid]; [apply onlyAsked_refl|].
  assert (onlyAsked w (CodeBlock.asked (CodeBlock.FetchProject (c :: pid)) w)) as H.
  { split; [done|]. split; [done|]. split; [done|]. by exists [c :: pid]. }
  by destruct (CodeBlock.projectById O _ _).
Qed.

Lemma checkboxMarkdown_onlyAsked O tasks :
  ∀ markdown w, onlyAsked w (CodeBlock.checkboxMarkdown O tasks markdown w).1.
Proof.
  induction tasks as [|task tasks IH]; intros markdown w; [apply onlyAsked_refl|].
  cbn [CodeBlock.checkboxMarkdown]. unfold CodeBlock.bindM.
  pose proof (buildTags_onlyAsked O task w) as H.
  destruct (CodeBlock.buildTags O task w) as [w1 [tags|e]]; [|done].
  eapply onlyAsked_trans; [exact H|]. apply IH.
Qed.

Lemma fetchAndInsert_cases O query sourcePath w :
  CodeBlock.fetchAndInsert O query sourcePath w
  = let w1 := CodeBlock.asked (CodeBlock.FetchTasks query) w in
    match CodeBlock.tasksByFilter O (length (CodeBlock.requests w)) query with
    | CodeBlock.Ok [] =>
        (CodeBlock.setTimeout 2000 (CodeBlock.buttonText query)
           (CodeBlock.setText (js "No tasks found") w1), CodeBlock.Ok tt)
    | CodeBlock.Ok (task :: tasks) =>
        match CodeBlock.checkboxMarkdown O (task :: tasks) [] w1 with
        | (w2, CodeBlock.Ok markdown) =>
            match CodeBlock.vault w2 !! sourcePath with
            | Some (CodeBlock.TFile content) =>
                let newContent := CodeBlock.replaceCodeBlock markdown content in
                (CodeBlock.writeFile sourcePath newContent
                   (CodeBlock.asked (CodeBlock.ModifyFile sourcePath newContent)
                      (CodeBlock.asked (CodeBlock.ReadFile sourcePath) w2)),
                 CodeBlock.Ok tt)
            | _ => (w2, CodeBlock.Ok tt)
            end
        | (w2, CodeBlock.Err error) => (w2, CodeBlock.Err error)
        end
    | CodeBlock.Err error => (w1, CodeBlock.Err error)
    end.
Proof.
  unfold CodeBlock.fetchAndInsert, CodeBlock.bindM, CodeBlock.getTasksByFilter,
    CodeBlock.update.
  by destruct (CodeBlock.tasksByFilter O _ query) as [[|task tasks]|error].
Qed.

(** X17: whatever Todoist answers, a click leaves the button disabled and
    ends in one of three ways: it shows an error and registers the timer
    of 3 s, or it finds no task and registers the timer of 2 s, in both
    cases without reading or writing the vault; or it registers no timer
    and either leaves the vault as it is (there is no file at the path of
    the note) or replaces, in the file of the note and in no other, the
    first code block by the lines it has built. *)
Theorem click_outcomes (O : CodeBlock.Outside) (query sourcePath : jstring)
    (w : CodeBlock.World) :
  let w' := CodeBlock.click O query sourcePath w in
  (∃ error,
     CodeBlock.button w' = CodeBlock.mkButton true (js "Error: " ++ error)
     ∧ CodeBlock.timeouts w'
       = CodeBlock.timeouts w ++ [(3000%Z, js "Insert Todoist tasks")]
     ∧ CodeBlock.vault w' = CodeBlock.vault w)
  ∨ (CodeBlock.button w' = CodeBlock.mkButton true (js "No tasks found")
     ∧ CodeBlock.timeouts w'
       = CodeBlock.timeouts w ++ [(2000%Z, CodeBlock.buttonText query)]
     ∧ CodeBlock.vault w' = CodeBlock.vault w)
  ∨ (CodeBlock.button w' = CodeBlock.mkButton true (js "Fetching tasks...")
     ∧ CodeBlock.timeouts w' = CodeBlock.timeouts w
     ∧ (CodeBlock.vault w' = CodeBlock.vault w
        ∨ ∃ content markdown,
            CodeBlock.vault w !! sourcePath = Some (CodeBlock.TFile content)
            ∧ CodeBlock.vault w'
              = <[sourcePath := CodeBlock.TFile
                    (CodeBlock.replaceCodeBlock markdown content)]>
                  (CodeBlock.vault w))).
Proof.
  intros w'. subst w'. unfold CodeBlock.click. cbv zeta.
  rewrite fetchAndInsert_cases. cbv zeta.
  set (w1 := CodeBlock.setText _ _).
  change (CodeBlock.requests w1) with (CodeBlock.requests w).
  destruct (CodeBlock.tasksByFilter O _ query) as [[|task tasks]|error].
  - right; left. done.
  - pose proof (checkboxMarkdown_onlyAsked O (task :: tasks) []
                  (CodeBlock.asked (CodeBlock.FetchTasks query) w1))
      as (Hb & Hv & Ht & _).
    destruct (CodeBlock.checkboxMarkdown O (task :: tasks) [] _) as [w2 [markdown|error]].
    + cbn [fst] in *. right; right.
      destruct (CodeBlock.vault w2 !! sourcePath) as [[content|]|] eqn:Hfile.
      * cbv zeta.
        cbn [CodeBlock.button CodeBlock.vault CodeBlock.timeouts
             CodeBlock.writeFile CodeBlock.asked].
        rewrite Hb, Ht. split; [done|]. split; [done|]. right.
        exists content, markdown. rewrite <- Hfile, Hv. done.
      * rewrite Hb, Ht, Hv. auto.
      * rewrite Hb, Ht, Hv. auto.
    + cbn [fst] in *. left. exists error.
      cbn [CodeBlock.button CodeBlock.vault CodeBlock.timeouts
           CodeBlock.setTimeout CodeBlock.setText CodeBlock.disabled].
      by rewrite Hb, Ht, Hv.
  - left. exists error. done.
Qed.

(** X18: when the filter lists no task, a click shows "No tasks found",
    asks Todoist once, and touches neither the vault nor the other timers;
    when the timer it registers runs, the button is again as the code
    block rendered it. *)
Theorem click_no_tasks (O : CodeBlock.Outside) (source sourcePath : jstring)
    (w : CodeBlock.World) :
  let query := CodeBlock.filterQuery source in
  CodeBlock.tasksByFilter O (length (CodeBlock.requests w)) query = CodeBlock.Ok [] →
  CodeBlock.click O query sourcePath w
  = CodeBlock.mkWorld (CodeBlock.mkButton true (js "No tasks found"))
      (CodeBlock.vault w)
      (CodeBlock.timeouts w ++ [(2000%Z, CodeBlock.buttonText query)])
      (CodeBlock.requests w ++ [CodeBlock.FetchTasks query])
  ∧ CodeBlock.fire (length (CodeBlock.timeouts w))
      (CodeBlock.click O query sourcePath w)
    = CodeBlock.mkWorld (CodeBlock.processTodoistCodeBlock source)
        (CodeBlock.vault w) (CodeBlock.timeouts w)
        (CodeBlock.requests w ++ [CodeBlock.FetchTasks query]).
Proof.
  intros query Htasks.
  assert (CodeBlock.click O query sourcePath w
          = CodeBlock.mkWorld (CodeBlock.mkButton true (js "No tasks found"))
              (CodeBlock.vault w)
              (CodeBlock.timeouts w ++ [(2000%Z, CodeBlock.buttonText query)])
              (CodeBlock.requests w ++ [CodeBlock.FetchTasks query])) as Hclick.
  { unfold CodeBlock.click. cbv zeta. rewrite fetchAndInsert_cases. cbv zeta.
    cbn [CodeBlock.requests CodeBlock.setText CodeBlock.setDisabled].
    by rewrite Htasks. }
  split; [done|]. rewrite Hclick. unfold CodeBlock.fire. cbn [CodeBlock.timeouts].
  rewrite lookup_app_r by done. rewrite Nat.sub_diag. cbn [lookup list_lookup].
  cbn [CodeBlock.vault CodeBlock.requests]. f_equal.
  rewrite delete_take_drop, take_app_length.
  rewrite drop_app_ge by lia.
  replace (S (length (CodeBlock.timeouts w)) - length (CodeBlock.timeouts w))%nat
    with 1%nat by lia.
  cbn. by rewrite app_nil_r.
Qed.

Lemma click_no_tasks_witness :
  let O := CodeBlock.mkOutside (λ _ _, CodeBlock.Ok [])
             (λ _ _, CodeBlock.Err (js "offline")) (λ _, false) in
  let source := js "filter: p1" ++ [10%N] in
  let w := CodeBlock.mkWorld (CodeBlock.processTodoistCodeBlock source) ∅ [] [] in
  CodeBlock.click O (js "p1") (js "todo.md") w
  = CodeBlock.mkWorld (CodeBlock.mkButton true (js "No tasks found")) ∅
      [(2000%Z, js "Insert Todoist tasks (p1)")] [CodeBlock.FetchTasks (js "p1")]
  ∧ CodeBlock.fire 0 (CodeBlock.click O (js "p1") (js "todo.md") w)
    = CodeBlock.mkWorld (CodeBlock.mkButton false (js "Insert Todoist tasks (p1)"))
        ∅ [] [CodeBlock.FetchTasks (js "p1")].
Proof.
  intros O source w.
  exact (click_no_tasks O source (js "todo.md") w eq_refl).
Defined.

(** X19: when Todoist rejects the request for the tasks, the vault is not
    touched and the button shows the error; once the timer of 3 s has run
    the button is enabled again with the text "Insert Todoist tasks",
    which is not the text the code block rendered: the query is gone from
    it. *)
Theorem click_fetch_fails (O : CodeBlock.Outside) (source sourcePath error : jstring)
    (w : CodeBlock.World) :
  let query := CodeBlock.filterQuery source in
  CodeBlock.tasksByFilter O (length (CodeBlock.requests w)) query
  = CodeBlock.Err error →
  let w' := CodeBlock.click O query sourcePath w in
  w' = CodeBlock.mkWorld (CodeBlock.mkButton true (js "Error: " ++ error))
         (CodeBlock.vault w)
         (CodeBlock.timeouts w ++ [(3000%Z, js "Insert Todoist tasks")])
         (CodeBlock.requests w ++ [CodeBlock.FetchTasks query])
  ∧ CodeBlock.button (CodeBlock.fire (length (CodeBlock.timeouts w)) w')
    = CodeBlock.mkButton false (js "Insert Todoist tasks")
  ∧ CodeBlock.button (CodeBlock.fire (length (CodeBlock.timeouts w)) w')
    ≠ CodeBlock.processTodoistCodeBlock source.
Proof.
  intros query Htasks w'.
  assert (w' = CodeBlock.mkWorld (CodeBlock.mkButton true (js "Error: " ++ error))
         (CodeBlock.vault w)
         (CodeBlock.timeouts w ++ [(3000%Z, js "Insert Todoist tasks")])
         (CodeBlock.requests w ++ [CodeBlock.FetchTasks query])) as Hclick.
  { subst w'. unfold CodeBlock.click. cbv zeta. rewrite fetchAndInsert_cases.
    cbv zeta. cbn [CodeBlock.requests CodeBlock.setText CodeBlock.setDisabled].
    by rewrite Htasks. }
  split; [done|]. rewrite Hclick. unfold CodeBlock.fire. cbn [CodeBlock.timeouts].
  rewrite lookup_app_r by done. rewrite Nat.sub_diag. cbn [lookup list_lookup].
  cbn [CodeBlock.button]. split; [done|].
  unfold CodeBlock.processTodoistCodeBlock, CodeBlock.buttonText.
  by intros [= H].
Qed.

Lemma click_fetch_fails_witness :
  let O := CodeBlock.mkOutside (λ _ _, CodeBlock.Err (js "offline"))
             (λ _ _, CodeBlock.Err (js "offline")) (λ _, false) in
  let source := js "filter: p1" in
  let w := CodeBlock.mkWorld (CodeBlock.processTodoistCodeBlock source) ∅ [] [] in
  let w' := CodeBlock.click O (js "p1") (js "todo.md") w in
  w' = CodeBlock.mkWorld (CodeBlock.mkButton true (js "Error: offline")) ∅
         [(3000%Z, js "Insert Todoist tasks")] [CodeBlock.FetchTasks (js "p1")]
  ∧ CodeBlock.button (CodeBlock.fire 0 w')
    = CodeBlock.mkButton false (js "Insert Todoist tasks")
  ∧ CodeBlock.button (CodeBlock.fire 0 w')
    ≠ CodeBlock.processTodoistCodeBlock source.
Proof.
  intros O source w.
  exact (click_fetch_fails O source (js "todo.md") (js "offline") w eq_refl).
Defined.

(** ** The lines a click inserts *)

(** X20: the text a click puts in place of the code block holds one line
    per task, in the order Todoist lists them, each ended by a line end and
    built from the tags [buildTags] has yielded for the task. *)
Theorem checkboxMarkdown_one_line_per_task (O : CodeBlock.Outside)
    (tasks : list CodeBlock.ListedTask) (w w' : CodeBlock.World)
    (markdown : jstring) :
  CodeBlock.checkboxMarkdown O tasks [] w = (w', CodeBlock.Ok markdown) →
  ∃ tagss,
    Forall2 (λ task tags, ∃ w1 w2,
               CodeBlock.buildTags O task w1 = (w2, CodeBlock.Ok tags))
      tasks tagss
    ∧ markdown
      = concat (zip_with (λ task tags, CodeBlock.taskLine O task tags ++ [10%N])
                  tasks tagss).
Proof.
  assert (∀ acc,
    CodeBlock.checkboxMarkdown O tasks acc w = (w', CodeBlock.Ok markdown) →
    ∃ tagss,
      Forall2 (λ task tags, ∃ w1 w2,
                 CodeBlock.buildTags O task w1 = (w2, CodeBlock.Ok tags))
        tasks tagss
      ∧ markdown
        = acc ++ concat (zip_with (λ task tags, CodeBlock.taskLine O task tags ++ [10%N])
                           tasks tagss)) as H; [|apply H].
  revert w. induction tasks as [|task tasks IH]; intros w acc.
  - intros [= <- <-]. exists []. split; [constructor|]. by rewrite app_nil_r.
  - cbn [CodeBlock.checkboxMarkdown]. unfold CodeBlock.bindM.
    destruct (CodeBlock.buildTags O task w) as [w1 [tags|e]] eqn:Htags; [|done].
    intros (tagss & Hall & ->)%IH. exists (tags :: tagss). split.
    + constructor; [eauto|done].
    + cbn [zip_with concat]. by rewrite <- !app_assoc.
Qed.

Lemma checkboxMarkdown_one_line_per_task_witness :
  let O := CodeBlock.mkOutside (λ _ _, CodeBlock.Ok [])
             (λ _ _, CodeBlock.Ok (mkProject (js "Home"))) (λ _, true) in
  let a := CodeBlock.mkListed (js "41") (js "Paint") (js "2001") [] None in
  let b := CodeBlock.mkListed (js "42") (js "Buy milk") [] [js "shop"]
             (Some (CodeBlock.mkDue (js "2024-05-01"))) in
  ∃ tagss,
    Forall2 (λ task tags, ∃ w1 w2,
               CodeBlock.buildTags O task w1 = (w2, CodeBlock.Ok tags))
      [a; b] tagss
    ∧ js "- [ ] Paint #todoist/Home  (*41*)" ++ [10%N]
      ++ js "- [ ] Buy milk #todoist #todoist/shop  (" ++ CodeBlock.CALENDAR
      ++ js " 2024-05-01  - **OVERDUE**) (*42*)" ++ [10%N]
      = concat (zip_with (λ task tags, CodeBlock.taskLine O task tags ++ [10%N])
                  [a; b] tagss).
Proof.
  intros O a b.
  exact (checkboxMarkdown_one_line_per_task O [a; b]
           (CodeBlock.mkWorld (CodeBlock.mkButton true []) ∅ [] []) _ _ eq_refl).
Defined.

Lemma unmarked_paren_then (A B : jstring) :
  40%N ∉ A → 40%N ∉ B → (∀ B', B ≠ 42%N :: B') → unmarked (A ++ 40%N :: B).
Proof.
  intros HA HB Hhead (pre & id & post & Heq & _).
  change (pre ++ js "(*" ++ id ++ js "*)" ++ post)
    with (pre ++ 40%N :: 42%N :: (id ++ js "*)" ++ post)) in Heq.
  apply app_eq_inv in Heq as [(k & -> & Hk)|(k & -> & Hk)].
  - destruct k as [|c k].
    + injection Hk as Hk. by eapply Hhead.
    + injection Hk as <- _. apply HA. apply elem_of_app. right. by left.
  - destruct k as [|c k].
    + injection Hk as Hk. by eapply Hhead.
    + injection Hk as <- ->. apply HB. apply elem_of_app. right. by left.
Qed.

Lemma join_no_paren (tags : list jstring) :
  (∀ tag, tag ∈ tags → 40%N ∉ tag) → 40%N ∉ Str.join (js " ") tags.
Proof.
  induction tags as [|tag tags IH]; intros Ht; [by intros ?%elem_of_nil|].
  destruct tags as [|tag2 tags]; [apply Ht; by left|].
  change (Str.join (js " ") (tag :: tag2 :: tags))
    with (tag ++ js " " ++ Str.join (js " ") (tag2 :: tags)).
  intros [Hin|[Hin|Hin]%elem_of_app]%elem_of_app.
  - by apply (Ht tag); [left|].
  - apply list_elem_of_singleton in Hin. discriminate.
  - apply IH; [|done]. intros t Hin'. apply Ht. by right.
Qed.

Lemma not_in_literal (c : N) (s : jstring) :
  forallb (λ d, negb (N.eqb c d)) s = true → c ∉ s.
Proof.
  intros H Hin. rewrite forallb_forall in H.
  apply list_elem_of_In, H in Hin. by rewrite N.eqb_refl in Hin.
Qed.

(** The tags of a task hold no opening parenthesis when the names they
    are built from hold none, and never a line end. *)
Lemma buildTags_no_paren O task w w' tags :
  CodeBlock.buildTags O task w = (w', CodeBlock.Ok tags) →
  (∀ n project,
     CodeBlock.projectById O n (CodeBlock.lt_projectId task) = CodeBlock.Ok project →
     40%N ∉ p_name project) →
  (∀ label, label ∈ CodeBlock.lt_labels task → 40%N ∉ label) →
  ∀ tag, tag ∈ tags → 40%N ∉ tag.
Proof.
  intros Htags Hproject Hlabels.
  assert (∀ name, 40%N ∉ name →
            40%N ∉ js "#todoist" ++ js "/" ++ CodeBlock.dash_spaces name) as Htag.
  { intros name Hname [Hin|[Hin|Hin]%elem_of_app]%elem_of_app.
    - revert Hin. by apply not_in_literal.
    - revert Hin. by apply not_in_literal.
    - apply dash_spaces_from_keeps in Hin as [?|?]; done. }
  revert Htags.
  unfold CodeBlock.buildTags, CodeBlock.bindM, CodeBlock.ret, CodeBlock.getProject.
  cbv zeta. intros Htags.
  assert (∀ tag, tag ∈ (λ taskLabel, js "#todoist" ++ js "/"
                            ++ CodeBlock.dash_spaces taskLabel)
                         <$> CodeBlock.lt_labels task → 40%N ∉ tag) as Hl.
  { intros tag (label & -> & Hin)%list_elem_of_fmap. by apply Htag, Hlabels. }
  destruct (CodeBlock.lt_projectId task) as [|c pid].
  - injection Htags as _ <-. intros tag [->|Hin]%elem_of_cons; [|by apply Hl].
    by apply not_in_literal.
  - destruct (CodeBlock.projectById O _ _) as [project|e] eqn:Hp; [|done].
    injection Htags as _ <-. intros tag [->|Hin]%elem_of_cons; [|by apply Hl].
    by eapply Htag, Hproject.
Qed.

Lemma dash_spaces_no_line_end (s : jstring) : 10%N ∉ CodeBlock.dash_spaces s.
Proof.
  intros Hin. pose proof (dash_spaces_from_no_space false s) as Hall.
  rewrite Forall_forall in Hall. by specialize (Hall _ Hin).
Qed.

Lemma buildTags_no_line_end O task w w' tags :
  CodeBlock.buildTags O task w = (w', CodeBlock.Ok tags) →
  ∀ tag, tag ∈ tags → 10%N ∉ tag.
Proof.
  assert (∀ name, 10%N ∉ js "#todoist" ++ js "/" ++ CodeBlock.dash_spaces name) as Htag.
  { intros name [Hin|[Hin|Hin]%elem_of_app]%elem_of_app.
    - revert Hin. by apply not_in_literal.
    - revert Hin. by apply not_in_literal.
    - by apply dash_spaces_no_line_end in Hin. }
  unfold CodeBlock.buildTags, CodeBlock.bindM, CodeBlock.ret, CodeBlock.getProject.
  cbv zeta. intros Htags.
  assert (∀ tag, tag ∈ (λ taskLabel, js "#todoist" ++ js "/"
                            ++ CodeBlock.dash_spaces taskLabel)
                         <$> CodeBlock.lt_labels task → 10%N ∉ tag) as Hl.
  { intros tag (label & -> & Hin)%list_elem_of_fmap. apply Htag. }
  destruct (CodeBlock.lt_projectId task) as [|c pid].
  - injection Htags as _ <-. intros tag [->|Hin]%elem_of_cons; [|by apply Hl].
    by apply not_in_literal.
  - destruct (CodeBlock.projectById O _ _) as [project|e] eqn:Hp; [|done].
    injection Htags as _ <-. intros tag [->|Hin]%elem_of_cons; [|by apply Hl].
    apply Htag.
Qed.

Lemma join_without (c : N) (tags : list jstring) :
  c ≠ 32%N → (∀ tag, tag ∈ tags → c ∉ tag) → c ∉ Str.join (js " ") tags.
Proof.
  intros Hc. induction tags as [|tag tags IH]; intros Ht; [by intros ?%elem_of_nil|].
  destruct tags as [|tag2 tags]; [apply Ht; by left|].
  change (Str.join (js " ") (tag :: tag2 :: tags))
    with (tag ++ js " " ++ Str.join (js " ") (tag2 :: tags)).
  intros [Hin|[Hin|Hin]%elem_of_app]%elem_of_app.
  - by apply (Ht tag); [left|].
  - apply list_elem_of_singleton in Hin. done.
  - apply IH; [|done]. intros t Hin'. apply Ht. by right.
Qed.

(** The line built for a task carries the id of the task as its first
    marker. *)
Lemma taskLine_marker O task tags :
  (∀ tag, tag ∈ tags → 40%N ∉ tag) →
  extractTodoistId (CodeBlock.lt_content task) = None →
  (∀ due, CodeBlock.lt_due task = Some due → 40%N ∉ CodeBlock.due_date due) →
  CodeBlock.lt_id task ≠ [] →
  Forall (λ c, alnum c = true) (CodeBlock.lt_id task) →
  extractTodoistId (CodeBlock.taskLine O task tags) = Some (CodeBlock.lt_id task).
Proof.
  intros Hnoparen Hcontent Hdue Hne Hal.
  unfold CodeBlock.taskLine.
  set (joined := Str.join (js " ") tags).
  assert (40%N ∉ joined) as Hjoined by (by apply join_no_paren).
  replace (js "- [ ] " ++ CodeBlock.lt_content task ++ js " " ++ joined ++ js " "
           ++ CodeBlock.dueDate O task ++ js " (*" ++ CodeBlock.lt_id task ++ js "*)")
    with ((js "- [ ] " ++ CodeBlock.lt_content task ++ js " " ++ joined ++ js " "
           ++ CodeBlock.dueDate O task) ++ js " (*" ++ CodeBlock.lt_id task ++ js "*)")
    by (by rewrite <- !app_assoc).
  apply extract_appended_marker; [|done..].
  rewrite <- !app_assoc.
  apply unmarked_after_no_paren; [by apply not_in_literal|].
  apply unmarked_before; [by apply extract_None_unmarked| |by intros c b' [= <- _]].
  unfold CodeBlock.dueDate. destruct (CodeBlock.lt_due task) as [due|] eqn:Hd.
  - replace (js " " ++ joined ++ js " "
             ++ (js " (" ++ CodeBlock.CALENDAR ++ js " " ++ CodeBlock.due_date due
                 ++ js " "
                 ++ (if CodeBlock.isOverdue O (CodeBlock.due_date due)
                     then js " - **OVERDUE**" else [])
                 ++ js ")") ++ [32%N])
      with ((js " " ++ joined ++ js "  ")
            ++ 40%N :: (CodeBlock.CALENDAR ++ js " " ++ CodeBlock.due_date due
                        ++ js " "
                        ++ (if CodeBlock.isOverdue O (CodeBlock.due_date due)
                            then js " - **OVERDUE**" else [])
                        ++ js ")" ++ [32%N]))
      by (by rewrite <- !app_assoc).
    apply unmarked_paren_then.
    + intros [Hin|[Hin|Hin]%elem_of_app]%elem_of_app; [|done|];
        revert Hin; by apply not_in_literal.
    + intros [Hin|[Hin|[Hin|[Hin|[Hin|Hin]%elem_of_app]%elem_of_app]%elem_of_app]%elem_of_app]%elem_of_app.
      * revert Hin. by apply not_in_literal.
      * revert Hin. by apply not_in_literal.
      * by apply (Hdue due).
      * revert Hin. by apply not_in_literal.
      * destruct (CodeBlock.isOverdue O _); revert Hin; by apply not_in_literal.
      * revert Hin. by apply not_in_literal.
    + done.
  - apply unmarked_no_paren.
    intros [Hin|[Hin|Hin]%elem_of_app]%elem_of_app; [|done|];
      revert Hin; by apply not_in_literal.
Qed.

Lemma alnum_no_line_end (id : jstring) :
  Forall (λ c, alnum c = true) id → 10%N ∉ id.
Proof. intros Hal Hin. rewrite Forall_forall in Hal. by specialize (Hal _ Hin). Qed.

(** The line built for a task holds no line end when its text and its due
    date hold none. *)
Lemma taskLine_no_line_end O task tags :
  (∀ tag, tag ∈ tags → 10%N ∉ tag) →
  10%N ∉ CodeBlock.lt_content task →
  (∀ due, CodeBlock.lt_due task = Some due → 10%N ∉ CodeBlock.due_date due) →
  Forall (λ c, alnum c = true) (CodeBlock.lt_id task) →
  10%N ∉ CodeBlock.taskLine O task tags.
Proof.
  intros Htags Hcontent Hdue Hal. unfold CodeBlock.taskLine.
  assert (10%N ∉ CodeBlock.dueDate O task) as Hd.
  { unfold CodeBlock.dueDate. destruct (CodeBlock.lt_due task) as [due|] eqn:Hdd;
      [|by intros ?%elem_of_nil].
    intros [Hin|[Hin|[Hin|[Hin|[Hin|[Hin|Hin]%elem_of_app]%elem_of_app]%elem_of_app]%elem_of_app]%elem_of_app]%elem_of_app.
    - revert Hin. by apply not_in_literal.
    - revert Hin. by apply not_in_literal.
    - revert Hin. by apply not_in_literal.
    - by apply (Hdue due).
    - revert Hin. by apply not_in_literal.
    - destruct (CodeBlock.isOverdue O _); revert Hin; by apply not_in_literal.
    - revert Hin. by apply not_in_literal. }
  intros [Hin|[Hin|[Hin|[Hin|[Hin|[Hin|[Hin|[Hin|Hin]%elem_of_app]%elem_of_app]%elem_of_app]%elem_of_app]%elem_of_app]%elem_of_app]%elem_of_app]%elem_of_app.
  - revert Hin. by apply not_in_literal.
  - done.
  - revert Hin. by apply not_in_literal.
  - revert Hin. by apply join_without.
  - revert Hin. by apply not_in_literal.
  - done.
  - revert Hin. by apply not_in_literal.
  - by apply alnum_no_line_end in Hin.
  - revert Hin. by apply not_in_literal.
Qed.

Lemma checkboxMarkdown_lines O tasks :
  ∀ w acc w' markdown,
    CodeBlock.checkboxMarkdown O tasks acc w = (w', CodeBlock.Ok markdown) →
    ∃ tagss,
      Forall2 (λ task tags, ∃ w1 w2,
                 CodeBlock.buildTags O task w1 = (w2, CodeBlock.Ok tags))
        tasks tagss
      ∧ markdown
        = acc ++ concat (zip_with (λ task tags, CodeBlock.taskLine O task tags ++ [10%N])
                           tasks tagss).
Proof.
  induction tasks as [|task tasks IH]; intros w acc w' markdown.
  - intros [= <- <-]. exists []. split; [constructor|]. by rewrite app_nil_r.
  - cbn [CodeBlock.checkboxMarkdown]. unfold CodeBlock.bindM.
    destruct (CodeBlock.buildTags O task w) as [w1 [tags|e]] eqn:Htags; [|done].
    intros (tagss & Hall & ->)%IH. exists (tags :: tagss). split.
    + constructor; [eauto|done].
    + cbn [zip_with concat]. by rewrite <- !app_assoc.
Qed.

Lemma lines_end (ls : list jstring) :
  concat ((λ l, l ++ [10%N]) <$> ls) = []
  ∨ last (concat ((λ l, l ++ [10%N]) <$> ls)) = Some 10%N.
Proof.
  induction ls as [|l ls IH]; [by left|]. right.
  cbn [fmap list_fmap concat].
  destruct IH as [->| Hl].
  - by rewrite app_nil_r, last_snoc.
  - by rewrite last_app, Hl.
Qed.

(** Where the line of the [k]-th task stands in the text a click builds:
    after the lines of the tasks before it, each ended by a line end. *)
Lemma checkboxMarkdown_at O tasks w w' markdown k task :
  CodeBlock.checkboxMarkdown O tasks [] w = (w', CodeBlock.Ok markdown) →
  tasks !! k = Some task →
  ∃ md1 md2 tags w1 w2,
    CodeBlock.buildTags O task w1 = (w2, CodeBlock.Ok tags)
    ∧ markdown = md1 ++ CodeBlock.taskLine O task tags ++ [10%N] ++ md2
    ∧ (md1 = [] ∨ last md1 = Some 10%N).
Proof.
  intros (tagss & Hall & ->)%checkboxMarkdown_lines Hk.
  destruct (Forall2_lookup_l _ _ _ _ _ Hall Hk) as (tags & Hk' & (w1 & w2 & Htags)).
  pose proof (Forall2_length _ _ _ Hall) as Hlen.
  rewrite <- (take_drop_middle _ _ _ Hk), <- (take_drop_middle _ _ _ Hk').
  rewrite zip_with_app by (rewrite !length_take; lia).
  cbn [zip_with]. rewrite concat_app. cbn [concat app].
  set (lines := zip_with (λ task tags, CodeBlock.taskLine O task tags)
                  (take k tasks) (take k tagss)).
  assert (zip_with (λ task tags, CodeBlock.taskLine O task tags ++ [10%N])
            (take k tasks) (take k tagss)
          = (λ l, l ++ [10%N]) <$> lines) as ->.
  { unfold lines. generalize (take k tagss). induction (take k tasks) as [|a l IH];
      intros [|b r]; cbn; [done..|]. by rewrite IH. }
  exists (concat ((λ l, l ++ [10%N]) <$> lines)), (concat
    (zip_with (λ task tags, CodeBlock.taskLine O task tags ++ [10%N])
       (drop (S k) tasks) (drop (S k) tagss))), tags, w1, w2.
  split; [done|]. split; [by rewrite <- !app_assoc|]. apply lines_end.
Qed.

(** Splitting a text in which a line stands at the start of a line. *)
Lemma split_lines_from_prefix (a : jstring) :
  ∀ cur, ∃ ls l,
    (∀ rest, Str.split_lines_from cur (a ++ rest) = ls ++ Str.split_lines_from l rest)
    ∧ (a = [] → l = cur) ∧ (last a = Some 10%N → l = []).
Proof.
  induction a as [|c a IH]; intros cur.
  - exists [], cur. split; [done|]. split; [done|]. done.
  - cbn [app Str.split_lines_from]. destruct (N.eqb_spec c 10) as [->|Hc].
    + destruct (IH []) as (ls & l & Hsplit & Hnil & Hlast).
      exists (cur :: ls), l. split; [|split; [done|]].
      * intros rest. by rewrite Hsplit.
      * intros Hl. destruct a as [|d a]; [by apply Hnil|]. by apply Hlast.
    + destruct (IH (cur ++ [c])) as (ls & l & Hsplit & Hnil & Hlast).
      exists ls, l. split; [done|]. split; [done|].
      intros Hl. destruct a as [|d a]; [|by apply Hlast].
      cbn in Hl. congruence.
Qed.

Lemma split_lines_from_line (line rest cur : jstring) :
  10%N ∉ line →
  Str.split_lines_from cur (line ++ 10%N :: rest)
  = (cur ++ line) :: Str.split_lines_from [] rest.
Proof.
  revert cur. induction line as [|c line IH]; intros cur Hl.
  - cbn. by rewrite app_nil_r.
  - cbn [app Str.split_lines_from]. destruct (N.eqb_spec c 10) as [->|Hc].
    + exfalso. apply Hl. by left.
    + rewrite IH by (intros Hin; apply Hl; by right).
      by rewrite <- app_assoc.
Qed.

Lemma split_lines_holds (a line b : jstring) :
  a = [] ∨ last a = Some 10%N → 10%N ∉ line →
  ∃ i, Str.split_lines (a ++ line ++ 10%N :: b) !! i = Some line.
Proof.
  intros Ha Hl. unfold Str.split_lines.
  destruct (split_lines_from_prefix a []) as (ls & l & Hsplit & Hnil & Hlast).
  assert (l = []) as -> by (destruct Ha; auto).
  exists (length ls). rewrite Hsplit, split_lines_from_line by done.
  by rewrite lookup_app_r, Nat.sub_diag.
Qed.

(** The replacement of the first block by a text without dollar sign. *)
Lemma replaceCodeBlock_block (markdown pre body post : jstring) :
  Str.index_of CodeBlock.OPEN (pre ++ CodeBlock.OPEN ++ body ++ CodeBlock.FENCE ++ post)
  = Some (length pre) →
  Str.index_of CodeBlock.FENCE (body ++ CodeBlock.FENCE ++ post) = Some (length body) →
  36%N ∉ markdown →
  CodeBlock.replaceCodeBlock markdown
    (pre ++ CodeBlock.OPEN ++ body ++ CodeBlock.FENCE ++ post)
  = pre ++ markdown ++ post.
Proof.
  intros H Hf Hd. unfold CodeBlock.replaceCodeBlock. rewrite search_block_index, H.
  assert (drop (length pre + 10) (pre ++ CodeBlock.OPEN ++ body ++ CodeBlock.FENCE ++ post)
          = body ++ CodeBlock.FENCE ++ post) as Hdrop.
  { rewrite <- drop_drop, drop_app_length. done. }
  rewrite Hdrop, Hf. cbn [fmap option_fmap option_map]. cbv zeta.
  rewrite get_substitution_plain by done.
  rewrite take_app_length. f_equal. f_equal.
  replace (length pre + (10 + (length body + 3)))%nat
    with (length pre + (length (CodeBlock.OPEN ++ body ++ CodeBlock.FENCE)))%nat
    by (rewrite !length_app; change (length CodeBlock.OPEN) with 10%nat;
        change (length CodeBlock.FENCE) with 3%nat; lia).
  rewrite <- drop_drop, drop_app_length.
  replace (CodeBlock.OPEN ++ body ++ CodeBlock.FENCE ++ post)
    with ((CodeBlock.OPEN ++ body ++ CodeBlock.FENCE) ++ post)
    by (by rewrite <- !app_assoc).
  by rewrite drop_app_length.
Qed.

(** X21: a line a click inserts is taken, at the next change of the note,
    for the tracked task with the id Todoist gave. The text put in place
    of the block holds no dollar sign, the block is the first of the note
    and opens at the start of a line; the text of the task holds no marker
    and no line end, its id is made of letters and digits, and the names of
    its project and labels and its due date hold no opening parenthesis
    (the due date no line end either). Then the line built for the task is
    a line of the note as written, [extractTodoistId] finds the id of the
    task in it, and the change handler calls [updateState] for it and
    creates no task. *)
Theorem inserted_line_is_tracked (O : CodeBlock.Outside)
    (tasks : list CodeBlock.ListedTask) (w w' : CodeBlock.World)
    (markdown : jstring) (k : nat) (task : CodeBlock.ListedTask)
    (pre body post : jstring) :
  CodeBlock.checkboxMarkdown O tasks [] w = (w', CodeBlock.Ok markdown) →
  tasks !! k = Some task →
  extractTodoistId (CodeBlock.lt_content task) = None →
  10%N ∉ CodeBlock.lt_content task →
  (∀ n project,
     CodeBlock.projectById O n (CodeBlock.lt_projectId task) = CodeBlock.Ok project →
     40%N ∉ p_name project) →
  (∀ label, label ∈ CodeBlock.lt_labels task → 40%N ∉ label) →
  (∀ due, CodeBlock.lt_due task = Some due →
     (40%N ∉ CodeBlock.due_date due) ∧ (10%N ∉ CodeBlock.due_date due)) →
  CodeBlock.lt_id task ≠ [] →
  Forall (λ c, alnum c = true) (CodeBlock.lt_id task) →
  36%N ∉ markdown →
  (pre = [] ∨ last pre = Some 10%N) →
  Str.index_of CodeBlock.OPEN (pre ++ CodeBlock.OPEN ++ body ++ CodeBlock.FENCE ++ post)
  = Some (length pre) →
  Str.index_of CodeBlock.FENCE (body ++ CodeBlock.FENCE ++ post) = Some (length body) →
  let lines :=
    Str.split_lines
      (CodeBlock.replaceCodeBlock markdown
         (pre ++ CodeBlock.OPEN ++ body ++ CodeBlock.FENCE ++ post)) in
  ∃ i tags,
    lines !! i = Some (CodeBlock.taskLine O task tags)
    ∧ extractTodoistId (CodeBlock.taskLine O task tags) = Some (CodeBlock.lt_id task)
    ∧ ∀ file checkbox,
        li_line checkbox = i →
        handleCheckbox file lines checkbox
        = Fork (updateState (CodeBlock.lt_id task)
                  (bool_decide (li_task checkbox = Some (js "x"))))
            (Ret lines).
Proof.
  intros Hmd Hk Hcontent Hcnl Hproject Hlabels Hdue Hne Hal Hdollar Hpre Hopen Hfence lines.
  destruct (checkboxMarkdown_at _ _ _ _ _ _ _ Hmd Hk)
    as (md1 & md2 & tags & w1 & w2 & Htags & Hmarkdown & Hmd1).
  assert (extractTodoistId (CodeBlock.taskLine O task tags)
          = Some (CodeBlock.lt_id task)) as Hid.
  { apply taskLine_marker; [|done| |done..].
    - by eapply buildTags_no_paren.
    - intros due Hd. by apply Hdue. }
  assert (10%N ∉ CodeBlock.taskLine O task tags) as Hnl.
  { apply taskLine_no_line_end; [|done| |done].
    - by eapply buildTags_no_line_end.
    - intros due Hd. by apply Hdue. }
  assert (∃ i, lines !! i = Some (CodeBlock.taskLine O task tags)) as [i Hi].
  { unfold lines. rewrite replaceCodeBlock_block by done. rewrite Hmarkdown.
    replace (pre ++ (md1 ++ CodeBlock.taskLine O task tags ++ [10%N] ++ md2) ++ post)
      with ((pre ++ md1) ++ CodeBlock.taskLine O task tags ++ 10%N :: (md2 ++ post))
      by (by rewrite <- !app_assoc).
    apply split_lines_holds; [|done].
    destruct Hmd1 as [->|Hl]; [by rewrite app_nil_r|]. right.
    destruct md1 as [|c r]; [done|]. by rewrite last_app, Hl. }
  exists i, tags. split; [done|]. split; [done|].
  intros file checkbox <-. unfold handleCheckbox. cbv zeta. rewrite Hi.
  cbn [default from_option id]. rewrite Hid. by destruct (CodeBlock.lt_id task).
Qed.

Lemma inserted_line_is_tracked_witness :
  let O := CodeBlock.mkOutside (λ _ _, CodeBlock.Ok [])
             (λ _ _, CodeBlock.Ok (mkProject (js "Home"))) (λ _, true) in
  let a := CodeBlock.mkListed (js "41") (js "Paint") (js "2001") [] None in
  let b := CodeBlock.mkListed (js "42") (js "Buy milk") (js "2001") [js "shop"]
             (Some (CodeBlock.mkDue (js "2024-05-01"))) in
  let markdown :=
    js "- [ ] Paint #todoist/Home  (*41*)" ++ [10%N]
    ++ js "- [ ] Buy milk #todoist/Home #todoist/shop  (" ++ CodeBlock.CALENDAR
    ++ js " 2024-05-01  - **OVERDUE**) (*42*)" ++ [10%N] in
  let lines :=
    Str.split_lines
      (CodeBlock.replaceCodeBlock markdown
         ((js "# Today" ++ [10%N]) ++ CodeBlock.OPEN ++ ([10%N] ++ js "filter: p1" ++ [10%N])
          ++ CodeBlock.FENCE ++ ([10%N] ++ js "Done."))) in
  ∃ i tags,
    lines !! i = Some (CodeBlock.taskLine O b tags)
    ∧ extractTodoistId (CodeBlock.taskLine O b tags) = Some (js "42")
    ∧ ∀ file checkbox,
        li_line checkbox = i →
        handleCheckbox file lines checkbox
        = Fork (updateState (js "42") (bool_decide (li_task checkbox = Some (js "x"))))
            (Ret lines).
Proof.
  intros O a b markdown lines.
  apply (inserted_line_is_tracked O [a; b]
           (CodeBlock.mkWorld (CodeBlock.mkButton true []) ∅ [] [])
           (CodeBlock.mkWorld (CodeBlock.mkButton true []) ∅ []
              [CodeBlock.FetchProject (js "2001"); CodeBlock.FetchProject (js "2001")])
           markdown 1 b (js "# Today" ++ [10%N]) ([10%N] ++ js "filter: p1" ++ [10%N])
           ([10%N] ++ js "Done.")).
  - reflexivity.
  - reflexivity.
  - reflexivity.
  - by apply not_in_literal.
  - intros n project [= <-]. by apply not_in_literal.
  - intros label ->%list_elem_of_singleton. by apply not_in_literal.
  - intros due [= <-]. split; by apply not_in_literal.
  - done.
  - vm_compute. repeat constructor.
  - by apply not_in_literal.
  - by right.
  - reflexivity.
  - reflexivity.
Defined.

(** ** An unload while the restore is under way *)

(** X22: the restore brings the entries back one after the other and waits
    for the attempt of each: while the fetch of the first entry is in
    flight the store holds that entry alone, so an unload at that moment
    persists the first entry only and the entries after it are no longer
    in the pending list. *)
Theorem unload_during_restore_keeps_first_entry (st0 : MyPluginSettings)
    (o : Oracle) (loaded : LoadedData) (entry : PersistedSyncEntry)
    (rest : list PersistedSyncEntry) :
  o LoadData = Fulfilled (Some loaded) →
  l_pendingSyncs loaded = Some (entry :: rest) →
  let s := run [Restore; Settle 0 o] (initial st0) in
  taskStates (mem s) = {[ e_todoistId entry := 0%nat ]}
  ∧ heap (mem s) = [restored entry]
  ∧ history (step Unload s)
    = [LoadData; GetTask (e_todoistId entry); SaveData (mkData st0 [entry])].
Proof.
  intros Ho Hl s.
  assert (∃ k, s = mkSys (mkMem [restored entry] {[ e_todoistId entry := 0%nat ]} st0 [] [])
                     [mkPending (GetTask (e_todoistId entry)) k]
                     [LoadData; GetTask (e_todoistId entry)] 0) as (k & Hs).
  { subst s.
    assert (run [Restore; Settle 0 o] (initial st0)
            = start (bind (match o LoadData with
                           | Fulfilled v => Ret v
                           | Rejected => Throw
                           end)
                       (λ data, restoreEntries
                          match data with
                          | Some d => default [] (l_pendingSyncs d)
                          | None => []
                          end))
                (mkSys (emptyMem st0) [] [LoadData] 0)) as -> by reflexivity.
    rewrite Ho. cbn [bind]. rewrite Hl. cbn [default from_option id].
    destruct (start_restoreEntries_cons entry rest
                (mkSys (emptyMem st0) [] [LoadData] 0)) as (k & Hk).
    exists k. rewrite Hk. reflexivity. }
  rewrite Hs. split; [done|]. split; [done|].
  cbn [step]. unfold start, onunload, savePendingSyncs, mbind, Prog_bind, mret, Prog_ret, get.
  cbn [bind await advance register history mem app]. do 3 f_equal.
  unfold pendingSyncs, Object_values, mkMem. cbn [taskStates heap].
  rewrite map_to_list_singleton. cbn [omap list_omap snd lookup list_lookup].
  rewrite filter_cons. cbn [restored synced]. case_decide; [|done].
  rewrite filter_nil. by destruct entry.
Qed.

Lemma unload_during_restore_keeps_first_entry_witness :
  let a := mkEntry (js "123") true 2 in
  let b := mkEntry (js "456") false 0 in
  let o := serves (healthy None (Some (mkLoaded (Some (js "key")) (Some [a; b])))) in
  let s := run [Restore; Settle 0 o] (initial key) in
  taskStates (mem s) = {[ js "123" := 0%nat ]}
  ∧ heap (mem s) = [restored a]
  ∧ history (step Unload s)
    = [LoadData; GetTask (js "123"); SaveData (mkData key [a])].
Proof.
  intros a b o.
  exact (unload_during_restore_keeps_first_entry key o
           (mkLoaded (Some (js "key")) (Some [a; b])) a [b] eq_refl eq_refl).
Defined.

(** ** The content of a new task *)

(** X23: the content sent to Todoist for a new task never begins or ends
    with white space. The checkbox syntax is removed only as [- [ ]]: for a
    line without it, such as one whose box is ticked, the content is the
    whole line without its first tag, trimmed, checkbox syntax included. *)
Theorem taskContent_trimmed (line : jstring) :
  Str.trim (taskContent line) = taskContent line
  ∧ (Str.contains (js "- [ ]") line = false →
     taskContent line = Str.trim (Str.replace TAG [] line))
  ∧ taskContent (js "- [x] Buy milk #todoist") = js "- [x] Buy milk".
Proof.
  split; [apply trim_idempotent|]. split; [|reflexivity].
  unfold taskContent, Str.contains. intros H.
  unfold Str.replace at 2. by destruct (Str.index_of (js "- [ ]") line).
Qed.

(** ** Ids the store inherits *)

Lemma builtin_written name f b m :
  builtin name (with_builtins (<[name := f]> b) m) = f.
Proof. unfold builtin. cbn. by rewrite lookup_insert_eq. Qed.

Lemma advance_syncStateBuiltin name s :
  ∃ k, advance (syncStateBuiltin name) s = (s, Waiting GetTask_undefined k)
       ∧ ∀ s', advance (k Rejected) s'
               = (on_mem (λ m, with_builtins
                             (<[name := set_b_retryAttempts
                                          (increment (b_retryAttempts (builtin name m)))
                                          (builtin name m)]> (builtins m)) m) s',
                  Threw).
Proof. eexists. split; [reflexivity|]. intros s'. reflexivity. Qed.

(** X24: an id that is the name of a member the store inherits from
    [Object.prototype], and has no entry, is never a first sighting.
    Observed with a value the member does not hold (as it is the first
    time), the value is written on the member with synced = false and
    retryAttempts = 0, nothing is added to the store, and a sync attempt
    fetches a task without an id. When that fetch is rejected the count
    becomes 1 and the [catch] block throws: no notice, no retry timer, and
    one more rejection nobody handles. *)
Theorem observe_inherited_name (s : Sys) (id : jstring) (checked : bool)
    (o : Oracle) :
  taskStates (mem s) !! id = None →
  inherited id = true →
  b_checkboxState (builtin id (mem s)) ≠ Some checked →
  let written c :=
    with_builtins
      (<[id := mkBuiltin (Some checked) (Some false) (Counted c)]> (builtins (mem s)))
      (mem s) in
  let s1 := step (Observe id checked) s in
  (∃ k, s1 = mkSys (written 0%N) (pool s ++ [mkPending GetTask_undefined k])
               (history s ++ [GetTask_undefined]) (unhandled s))
  ∧ (o GetTask_undefined = Rejected →
     step (Settle (length (pool s)) o) s1
     = mkSys (written 1%N) (pool s) (history s ++ [GetTask_undefined])
         (S (unhandled s))).
Proof.
  intros Hid Hin Hcs written s1.
  destruct (advance_syncStateBuiltin id (with_mem (written 0%N) s)) as (k & Hk & Hrej).
  assert (s1 = mkSys (written 0%N) (pool s ++ [mkPending GetTask_undefined k])
               (history s ++ [GetTask_undefined]) (unhandled s)) as Hs1.
  { unfold s1, step, start, updateState, mbind, Prog_bind, mret, Prog_ret, get.
    cbn [bind advance]. rewrite Hid, Hin.
    unfold updateStateBuiltin, mbind, Prog_bind, mret, Prog_ret.
    cbn [readBuiltin bind advance].
    rewrite (bool_decide_eq_false_2 _ Hcs). cbn [negb].
    cbn [assignBuiltin modify bind advance mem with_mem].
    rewrite !builtin_written.
    cbn [set_b_retryAttempts set_b_synced set_b_checkboxState b_checkboxState
         b_synced b_retryAttempts].
    rewrite bool_decide_eq_false_2 by done.
    replace (with_mem _ _) with (with_mem (written 0%N) s).
    2: { unfold written, with_mem, with_builtins.
         cbn [mem heap taskStates settings timers notices builtins pool history
              unhandled].
         by rewrite !insert_insert_eq. }
    rewrite Hk. reflexivity. }
  split; [by exists k|]. intros Ho. rewrite Hs1. cbn [step pool].
  rewrite lookup_app_r, Nat.sub_diag by done. cbn [lookup list_lookup p_resume p_call].
  rewrite Ho. unfold start. rewrite Hrej.
  cbn [register on_mem mem with_mem with_pool pool history unhandled].
  unfold written. rewrite builtin_written. unfold with_builtins.
  cbn [mem heap taskStates settings timers notices builtins
       set_b_retryAttempts increment b_checkboxState b_synced b_retryAttempts].
  rewrite insert_insert_eq.
  replace (delete (length (pool s)) (pool s ++ [mkPending GetTask_undefined k]))
    with (pool s).
  2: { rewrite delete_take_drop, take_app_length.
       rewrite drop_ge; [by rewrite app_nil_r|]. rewrite length_app. cbn. lia. }
  reflexivity.
Qed.

Lemma observe_inherited_name_witness :
  let id := js "constructor" in
  let written c :=
    with_builtins
      (<[id := mkBuiltin (Some true) (Some false) (Counted c)]>
         (builtins (mem (initial key))))
      (mem (initial key)) in
  let s1 := step (Observe id true) (initial key) in
  (∃ k, s1 = mkSys (written 0%N) (pool (initial key) ++ [mkPending GetTask_undefined k])
               (history (initial key) ++ [GetTask_undefined]) (unhandled (initial key)))
  ∧ (rejects GetTask_undefined = Rejected →
     step (Settle (length (pool (initial key))) rejects) s1
     = mkSys (written 1%N) (pool (initial key))
         (history (initial key) ++ [GetTask_undefined])
         (S (unhandled (initial key)))).
Proof.
  intros id written s1.
  apply (observe_inherited_name (initial key) (js "constructor") true rejects).
  - reflexivity.
  - reflexivity.
  - discriminate.
Defined.
